(** * Grab: the HTTP client and the spider's task queue and dispatcher

    A shallow embedding of the Python sources

      - [grab/spider/queue_backend/memory.py]   (module [memory])
      - [grab/util/http.py]                     (module [http])
      - [grab/spider/service/task_dispatcher.py] (module [task_dispatcher])
      - [grab/grab.py]                          (module [grab])

    together with the part of CPython's [heapq] that [queue.PriorityQueue]
    runs on (module [heapq]).  Python objects that are mutated in place
    live in an explicit store; exceptions are a result type. *)

From stdpp Require Import gmap strings list fin_maps sorting.
From Stdlib Require Import ZArith Lia Zify ZifyNat Ascii.

#[local] Open Scope Z_scope.
#[local] Open Scope nat_scope.

Ltac Zify.zify_post_hook ::= Z.div_mod_to_equations.

(** ** Exceptions and results *)

Inductive exn : Type :=
  | Empty                 (* queue.Empty *)
  | IndexError
  | KeyError (key : string)
  | AttributeError
  | ValueError
  | GrabMisuseError
  | GrabTooManyRedirectsError
  | SpiderError
  | TypeError
  | GrabNetworkError
  | AssertionError
  | OutOfFuel.            (* no Python exception: a run of the model cut short *)

Inductive result (A : Type) : Type :=
  | Return (a : A)
  | Raise (e : exn).
Arguments Return {A} a.
Arguments Raise {A} e.

#[global] Instance exn_eq_dec : EqDecision exn.
Proof. solve_decision. Defined.

(** ** CPython's [heapq]: the binary heap under [queue.PriorityQueue]

    [heappush] appends and sifts the new item towards the root;
    [heappop] moves the last item to the root, lets the smaller child
    bubble up to a leaf and sifts the item back from there.  Only [<]
    is ever asked of the items. *)

Module heapq.
Section heapq.
Context {A : Type} (lt : A → A → bool).

(** The [while pos > startpos] loop of [_siftdown]; [pos] strictly
    decreases, so [pos] itself is enough fuel. *)
Fixpoint _siftdown_loop (fuel : nat) (newitem : A) (startpos pos : nat)
    (heap : list A) : list A :=
  match fuel with
  | O => <[pos := newitem]> heap
  | S fuel' =>
    if decide (startpos < pos) then
      let parentpos := (pos - 1) / 2 in       (* (pos - 1) >> 1 *)
      match heap !! parentpos with
      | Some parent =>
        if lt newitem parent
        then _siftdown_loop fuel' newitem startpos parentpos (<[pos := parent]> heap)
        else <[pos := newitem]> heap
      | None => heap                           (* out of reach: parentpos < pos *)
      end
    else <[pos := newitem]> heap
  end.

Definition _siftdown (heap : list A) (startpos pos : nat) : list A :=
  match heap !! pos with
  | Some newitem => _siftdown_loop pos newitem startpos pos heap
  | None => heap                               (* IndexError: never called so *)
  end.

(** The child that is moved up: the right one when it exists and the
    left one is not smaller. *)
Definition smaller_child (heap : list A) (endpos childpos : nat) : nat :=
  let rightpos := childpos + 1 in
  match heap !! childpos, heap !! rightpos with
  | Some l, Some r =>
    if decide (rightpos < endpos) then (if lt l r then childpos else rightpos)
    else childpos
  | _, _ => childpos
  end.

(** The [while childpos < endpos] loop of [_siftup], then the final
    [_siftdown]; [pos] strictly increases below [endpos]. *)
Fixpoint _siftup_loop (fuel : nat) (newitem : A) (endpos startpos pos : nat)
    (heap : list A) : list A :=
  let childpos := 2 * pos + 1 in
  match fuel with
  | O => _siftdown (<[pos := newitem]> heap) startpos pos
  | S fuel' =>
    if decide (childpos < endpos) then
      let childpos := smaller_child heap endpos childpos in
      match heap !! childpos with
      | Some c => _siftup_loop fuel' newitem endpos startpos childpos (<[pos := c]> heap)
      | None => heap                           (* out of reach: childpos < endpos *)
      end
    else _siftdown (<[pos := newitem]> heap) startpos pos
  end.

Definition _siftup (heap : list A) (pos : nat) : list A :=
  match heap !! pos with
  | Some newitem => _siftup_loop (length heap - pos) newitem (length heap) pos pos heap
  | None => heap
  end.

Definition heappush (heap : list A) (item : A) : list A :=
  let heap := heap ++ [item] in
  _siftdown heap 0 (length heap - 1).

(** [heap.pop()] on a list: the last element and the rest. *)
Definition list_pop (heap : list A) : option (A * list A) :=
  match last heap with
  | Some x => Some (x, removelast heap)
  | None => None
  end.

(** [None] is the [IndexError] of popping an empty list. *)
Definition heappop (heap : list A) : option (A * list A) :=
  match list_pop heap with
  | None => None
  | Some (lastelt, heap) =>
    match heap with
    | returnitem :: _ => Some (returnitem, _siftup (<[0 := lastelt]> heap) 0)
    | [] => Some (lastelt, heap)
    end
  end.
End heapq.

(** The heap shape with respect to an order [le]: no item is below its
    parent, the item at [(c - 1) / 2]. *)
Definition heap_ordered {A : Type} (le : A → A → Prop) (heap : list A) : Prop :=
  ∀ c x y, 0 < c → heap !! c = Some x → heap !! ((c - 1) / 2) = Some y → le y x.
End heapq.

(** ** [grab/spider/queue_backend/memory.py] *)

Module memory.
Section memory.
(** The [Task] class is not among the sources at hand: its identity
    ([is], here Leibniz equality), [__eq__] and [__lt__] are taken as
    parameters. *)
Context {Task : Type} `{EqDecision Task}.
Context (task_eq task_lt : Task → Task → bool).

(** Python's comparison of the tuples [(priority, task)] that [put]
    stores: the first components decide unless they are equal; then the
    tasks decide, and the same object or two [==] tasks are not [<]. *)
Definition entry_lt (x y : Z * Task) : bool :=
  if decide (x.1 = y.1) then
    if decide (x.2 = y.2) then false
    else if task_eq x.2 y.2 then false
    else task_lt x.2 y.2
  else bool_decide (x.1 < y.1)%Z.

(** [queue_object] is the list inside the [PriorityQueue];
    [schedule_list] holds [(schedule_time, task)]. *)
Record QueueBackend : Type := mkQueue {
  queue_object : list (Z * Task);
  schedule_list : list (Z * Task);
}.

Definition init : QueueBackend := mkQueue [] [].

Definition put (self : QueueBackend) (task : Task) (priority : Z)
    (schedule_time : option Z) : QueueBackend :=
  match schedule_time with
  | None =>
    mkQueue (heapq.heappush entry_lt (queue_object self) (priority, task))
            (schedule_list self)
  | Some t =>
    mkQueue (queue_object self) (schedule_list self ++ [(t, task)])
  end.

(** The [for] loop of [get] over the scheduled entries, with its
    running [index] and the [removed_indexes] it collects. *)
Fixpoint get_loop (now : Z) (items : list (Z * Task)) (index : nat)
    (self : QueueBackend) (removed_indexes : list nat)
    : QueueBackend * list nat :=
  match items with
  | [] => (self, removed_indexes)
  | (schedule_time, task) :: items =>
    if bool_decide (schedule_time ≤ now)%Z
    then get_loop now items (S index) (put self task 1 None)
                  (removed_indexes ++ [index])
    else get_loop now items (S index) self removed_indexes
  end.

Definition enumerate {X : Type} (l : list X) : list (nat * X) := imap pair l.

(** [get], with the clock reading [now = datetime.utcnow()] as an
    argument.  [PriorityQueue.get(block=False)] raises [Empty] on an
    empty queue and pops the heap otherwise. *)
Definition get (self : QueueBackend) (now : Z) : result Task * QueueBackend :=
  let '(self, removed_indexes) :=
    get_loop now (schedule_list self) 0 self [] in
  let self :=
    mkQueue (queue_object self)
      ((filter (λ ix, ix.1 ∉ removed_indexes)
               (enumerate (schedule_list self))).*2) in
  if decide (length (queue_object self) = 0) then (Raise Empty, self)
  else
    match heapq.heappop entry_lt (queue_object self) with
    | Some ((_, task), heap) => (Return task, mkQueue heap (schedule_list self))
    | None => (Raise IndexError, self)
    end.

Definition size (self : QueueBackend) : nat :=
  length (queue_object self) + length (schedule_list self).

(** The loop of [clear]: [queue_object.get(False)] until it raises
    [Empty]; one unit of fuel per entry taken. *)
Fixpoint clear_loop (fuel : nat) (heap : list (Z * Task))
    : result unit * list (Z * Task) :=
  match fuel with
  | O => (Raise OutOfFuel, heap)
  | S fuel =>
    if decide (length heap = 0) then (Raise Empty, heap)
    else
      match heapq.heappop entry_lt heap with
      | Some (_, heap) => clear_loop fuel heap
      | None => (Raise IndexError, heap)
      end
  end.

(** [clear]: the loop under [suppress(Empty)], then
    [self.schedule_list = []]. *)
Definition clear (fuel : nat) (self : QueueBackend) : result unit * QueueBackend :=
  match clear_loop fuel (queue_object self) with
  | (Raise Empty, heap) | (Return _, heap) => (Return (), mkQueue heap [])
  | (Raise e, heap) => (Raise e, mkQueue heap (schedule_list self))
  end.

(** *** Interleavings of [put] and [get] *)

Inductive op : Type :=
  | Put (task : Task) (priority : Z) (schedule_time : option Z)
  | Get (now : Z).

(** Runs the calls in order; the outcome of every [get] is recorded
    with the clock reading it saw. *)
Fixpoint run (ops : list op) (self : QueueBackend)
    : list (Z * result Task) * QueueBackend :=
  match ops with
  | [] => ([], self)
  | Put task priority schedule_time :: ops =>
    run ops (put self task priority schedule_time)
  | Get now :: ops =>
    let '(r, self) := get self now in
    let '(rs, self) := run ops self in
    ((now, r) :: rs, self)
  end.

(** The clock readings of the [get]s, in call order. *)
Definition clock_readings (ops : list op) : list Z :=
  omap (λ o, match o with Get now => Some now | Put _ _ _ => None end) ops.

Definition is_put (o : op) : bool :=
  match o with Put _ _ _ => true | Get _ => false end.

Definition is_return {X : Type} (r : result X) : bool :=
  match r with Return _ => true | Raise _ => false end.

Definition puts (ops : list op) : nat :=
  length (filter (λ o, is_put o) ops).

Definition successful_gets (rs : list (Z * result Task)) : nat :=
  length (filter (λ r, is_return r.2) rs).

(** The tasks that were [put], that [get] returned, and that the
    queue holds (ready, then scheduled). *)
Definition put_tasks (ops : list op) : list Task :=
  omap (λ o, match o with Put task _ _ => Some task | Get _ => None end) ops.

Definition returned (rs : list (Z * result Task)) : list Task :=
  omap (λ r, match r.2 with Return task => Some task | Raise _ => None end) rs.

Definition held (self : QueueBackend) : list Task :=
  (queue_object self).*2 ++ (schedule_list self).*2.

(** What the specification says [get] does: the due entries leave the
    scheduled list and enter the ready heap at priority 1, in list
    order; then the heap is popped, or [Empty] is raised. *)
Definition due (now : Z) (e : Z * Task) : Prop := (e.1 ≤ now)%Z.
#[global] Instance due_dec now e : Decision (due now e).
Proof. unfold due. apply _. Defined.

Definition promote (now : Z) (self : QueueBackend) : QueueBackend :=
  mkQueue
    (foldl (λ heap e, heapq.heappush entry_lt heap (1%Z, e.2))
           (queue_object self) (filter (due now) (schedule_list self)))
    (filter (λ e, ¬ due now e) (schedule_list self)).

(** The order that matters between two entries of the ready heap. *)
Definition priority_le (x y : Z * Task) : Prop := (x.1 ≤ y.1)%Z.

Definition get_spec (self : QueueBackend) (now : Z) : result Task * QueueBackend :=
  let self := promote now self in
  match heapq.heappop entry_lt (queue_object self) with
  | Some (e, heap) => (Return e.2, mkQueue heap (schedule_list self))
  | None => (Raise Empty, self)
  end.

(** Task [x] is held back until [t], the clock having reached [last]:
    a ready entry of [x] means [t] has passed, and no scheduled entry of
    [x] is due before [t]. *)
Definition held_back (x : Task) (t last : Z) (self : QueueBackend) : Prop :=
  (∀ p, (p, x) ∈ queue_object self → (t ≤ last)%Z) ∧
  (∀ s, (s, x) ∈ schedule_list self → (t ≤ s)%Z).
End memory.

(** Tasks named by numbers, under a [Task] ordering that ranks no two
    of them (as when [__lt__] compares equal priorities). *)
Definition unranked (a b : nat) : bool := false.

(** Scenario: [A] at priority 2, [B] at priority 1, [C] scheduled for
    time 100; [get]s at 50, 51, 52 and 100. *)
Definition scenario_priority_schedule : list (@op nat) :=
  [Put 10 2%Z None; Put 11 1%Z None; Put 12 1%Z (Some 100%Z);
   Get 50%Z; Get 51%Z; Get 52%Z; Get 100%Z].
End memory.

(** ** [grab/util/http.py] *)

Module http.
Section http.
Context {V : Type}.

(** A Python [dict] with string keys: its items in insertion order. *)
#[local] Abbreviation dict := (list (string * V)) (only parsing).

Definition dict_contains (key : string) (d : dict) : bool :=
  bool_decide (key ∈ d.*1).

(** [d.get(key)] *)
Fixpoint dict_get (key : string) (d : dict) : option V :=
  match d with
  | [] => None
  | (k, v) :: d => if decide (k = key) then Some v else dict_get key d
  end.

(** [d[key] = val]: an existing key keeps its place. *)
Fixpoint dict_setitem (key : string) (val : V) (d : dict) : dict :=
  match d with
  | [] => [(key, val)]
  | (k, v) :: d =>
    if decide (k = key) then (k, val) :: d else (k, v) :: dict_setitem key val d
  end.

(** The first argument of [merge_with_dict]: a mapping, which the
    function updates in place, or a sequence of pairs. *)
Inductive headers : Type :=
  | Mapping (d : dict)
  | Sequence (l : list (string * V)).

(** The first branch: [hdr1[key] = val] for the keys of [hdr2] that are
    new or to be replaced. *)
Definition merge_mapping (hdr1 hdr2 : dict) (replace : bool) : dict :=
  foldl (λ hdr1 '(key, val),
           if replace || negb (dict_contains key hdr1)
           then dict_setitem key val hdr1 else hdr1)
        hdr1 hdr2.

(** The second branch builds the list [ret] (with the set [hdr1_keys]
    of the keys it kept) out of both arguments. *)
Definition merge_sequence (hdr1 : list (string * V)) (hdr2 : dict)
    (replace : bool) : list (string * V) :=
  let hdr2_keys : gset string := list_to_set hdr2.*1 in
  let '(ret, hdr1_keys) :=
    foldl (λ '(ret, hdr1_keys) '(key, val),
             if negb replace || bool_decide (key ∉ hdr2_keys)
             then (ret ++ [(key, val)], {[key]} ∪ hdr1_keys)
             else (ret, hdr1_keys))
          ([], (∅ : gset string)) hdr1 in
  foldl (λ ret '(key, val),
           if replace || bool_decide (key ∉ hdr1_keys)
           then ret ++ [(key, val)] else ret)
        ret hdr2.

(** [merge_with_dict]: the state of the object [hdr1] after the call,
    and the value returned ([None] is Python's [None]: the function has
    no [return] statement). *)
Definition merge_with_dict (hdr1 : headers) (hdr2 : dict) (replace : bool)
    : headers * option (list (string * V)) :=
  match hdr1 with
  | Mapping d => (Mapping (merge_mapping d hdr2 replace), None)
  | Sequence l =>
    let ret := merge_sequence l hdr2 replace in
    (Sequence l, None)
  end.
End http.
Arguments headers : clear implicits.

(** A Python [dict] with string keys and values in [V]. *)
Abbreviation dict V := (list (string * V)) (only parsing).
End http.

(** ** [grab/spider/service/task_dispatcher.py] *)

Module task_dispatcher.

(** Replaces every ["_"] of a class name by ["-"]. *)
Fixpoint replace_underscores (s : string) : string :=
  match s with
  | EmptyString => EmptyString
  | String c s =>
    String (if Ascii.eqb c "_"%char then "-"%char else c) (replace_underscores s)
  end.

Section task_dispatcher.
(** [Task], the handlers and the spider are not among the sources at
    hand.  What the dispatcher asks of a task and of a handler are
    parameters; what it tells the spider is recorded as a list of calls. *)
Context {Task Handler ExcInfo GrabConfig : Type}.
Context (task_clone : Task → Task).
Context (task_get_raw : Task → bool).                    (* task.get("raw") *)
Context (find_task_handler : Task → Handler).
Context (handler__name__ : Handler → option string).
Context (is_valid_network_response_code : Z → Task → bool).
Context (network_try_limit : Z).

(** An instance of [Exception]: its class name and whether the class
    derives from [ResponseNotValid], from [FatalError]. *)
Record exception : Type := mkException {
  class__name__ : string;
  is_ResponseNotValid : bool;
  is_FatalError : bool;
}.

(** The values found in a result [dict] or in [meta]. *)
Inductive value : Type :=
  | VNone
  | VBool (b : bool)
  | VStr (s : string)
  | VGrab (doc_code : Z)              (* a Grab whose [doc.code] is known *)
  | VConfig (config : GrabConfig)
  | VExcInfo (exc_info : ExcInfo).

Context (task_setup_grab_config : Task → value → Task).

(** What a service can submit as [result]. *)
Inductive service_result : Type :=
  | RTask (task : Task)
  | RNone
  | RException (e : exception)
  | RDict (d : gmap string value)
  | RTuple (items : list value)       (* a tuple *)
  | ROther (v : value).               (* any other object *)

Inductive spider_call : Type :=
  | add_task (task : Task)
  | stat_inc (key : string)
  | process_parser_error (handler_name : string) (task : option Task) (exc_info : value)
  | fatal_error_queue_put (exc_info : value)
  | log_network_result_stats (result : gmap string value) (task : option Task)
  | parser_service_input_queue_put (result : gmap string value) (task : option Task)
  | log_failed_network_result (result : gmap string value).

(** The calls made on the spider, in order, and how the method ended. *)
Definition outcome : Type := list spider_call * result unit.

Definition truthy (v : value) : bool :=
  match v with
  | VNone => false
  | VBool b => b
  | VStr s => negb (String.eqb s "")
  | VGrab _ | VConfig _ | VExcInfo _ => true
  end.

Definition process_network_result (result : gmap string value)
    (task : option Task) : outcome :=
  let log := [log_network_result_stats result task] in
  match task with
  | None => (log, Raise AttributeError)               (* None.get *)
  | Some t =>
    let finish (log : list spider_call) (is_valid : bool) : outcome :=
      if is_valid
      then (log ++ [parser_service_input_queue_put result task;
                    stat_inc "spider:request"], Return ())
      else
        let log := log ++ [log_failed_network_result result] in
        if bool_decide (0 < network_try_limit)%Z then
          match result !! "grab_config_backup" with
          | None => (log, Raise (KeyError "grab_config_backup"))
          | Some config =>
            (log ++ [add_task (task_setup_grab_config t config);
                     stat_inc "spider:request"], Return ())
          end
        else (log ++ [stat_inc "spider:request"], Return ()) in
    if task_get_raw t then finish log true
    else
      match result !! "ok" with
      | None => (log, Raise (KeyError "ok"))
      | Some ok =>
        if truthy ok then
          match result !! "grab" with
          | None => (log, Raise (KeyError "grab"))
          | Some (VGrab res_code) =>
            finish log (is_valid_network_response_code res_code t)
          | Some _ => (log, Raise AttributeError)     (* no [doc.code] *)
          end
        else finish log false
      end
  end.

(** The second half of [process_network_result], from [if is_valid:]
    on, for a task [t] and the verdict [is_valid]. *)
Definition settle (result : gmap string value) (t : Task) (is_valid : bool)
    : outcome :=
  let log := [log_network_result_stats result (Some t)] in
  if is_valid
  then (log ++ [parser_service_input_queue_put result (Some t);
                stat_inc "spider:request"], Return ())
  else
    let log := log ++ [log_failed_network_result result] in
    if bool_decide (0 < network_try_limit)%Z then
      match result !! "grab_config_backup" with
      | None => (log, Raise (KeyError "grab_config_backup"))
      | Some config =>
        (log ++ [add_task (task_setup_grab_config t config);
                 stat_inc "spider:request"], Return ())
      end
    else (log ++ [stat_inc "spider:request"], Return ()).

Definition process_service_result (result : service_result)
    (task : option Task) (meta : option (gmap string value)) : outcome :=
  let meta := default ∅ meta in
  match result with
  | RTask t => ([add_task t], Return ())
  | RNone => ([], Return ())
  | RException e =>
    if is_ResponseNotValid e then
      match task with
      | None => ([], Raise AttributeError)            (* None.clone *)
      | Some t =>
        let error_code := replace_underscores (class__name__ e) in
        ([add_task (task_clone t); stat_inc ("integrity:" +:+ error_code)],
         Return ())
      end
    else
      let handler_name :=
        match task with
        | Some t => default "NONE" (handler__name__ (find_task_handler t))
        | None => "NA"
        end in
      match meta !! "exc_info" with
      | None => ([], Raise (KeyError "exc_info"))
      | Some exc_info =>
        let log := [process_parser_error handler_name task exc_info] in
        if is_FatalError e
        then (log ++ [fatal_error_queue_put exc_info], Return ())
        else (log, Return ())
      end
  | RDict d =>
    if bool_decide ("grab" ∈ dom d) then process_network_result d task
    else ([], Raise SpiderError)
  | RTuple items =>
    (* ["...: %s" % result] takes a tuple for the arguments of the
       format, which has one place *)
    if decide (length items = 1) then ([], Raise SpiderError)
    else ([], Raise TypeError)
  | ROther _ => ([], Raise SpiderError)
  end.

(** What [input_queue] holds: [(result, task, meta)]. *)
Definition item : Type :=
  service_result * option Task * option (gmap string value).

(** [worker_callback], over what [input_queue.get(True, 0.1)] gives in
    the rounds of the loop until [stop_event] is set: an item, or [None]
    when the wait ends in [Empty].  (The pause signal only delays the
    worker.)  An exception of [process_service_result] leaves the loop. *)
Fixpoint worker_callback (gets : list (option item)) : outcome :=
  match gets with
  | [] => ([], Return ())
  | None :: gets => worker_callback gets
  | Some (result, task, meta) :: gets =>
    match process_service_result result task meta with
    | (calls, Return _) =>
      let '(calls', r) := worker_callback gets in (calls ++ calls', r)
    | (calls, Raise e) => (calls, Raise e)
    end
  end.

(** The shapes the docstring of [process_service_result] documents, as
    far as the method depends on them: an integrity failure comes with
    its task, any other exception with [exc_info] in [meta]. *)
Definition documented (result : service_result) (task : option Task)
    (meta : option (gmap string value)) : Prop :=
  match result with
  | RException e =>
    if is_ResponseNotValid e then is_Some task
    else is_Some (default ∅ meta !! "exc_info")
  | _ => True
  end.
End task_dispatcher.

(** A sample parser failure: tasks are numbers, handlers are named. *)
Definition sample_fatal : exception := mkException "FatalError" false true.
Definition sample_integrity : exception := mkException "Data_Not_Valid" true false.
End task_dispatcher.

(** ** [grab/spider/service/task_generator.py] *)

Module task_generator.
Import task_dispatcher.
Section task_generator.
Context {Task ExcInfo GrabConfig : Type}.
(** The generator of tasks: its state, and [next], which gives a task
    and the state after it, or [None] for [StopIteration]. *)
Context {Generator : Type} (next : Generator → option (Task * Generator)).

#[local] Abbreviation item := (@item Task ExcInfo GrabConfig).

(** [max(200, self.spider.thread_number * 2)] *)
Definition task_queue_threshold (thread_number : Z) : Z :=
  Z.max 200 (thread_number * 2).

(** [(task, None, {"source": "task_generator"})] *)
Definition generated (task : Task) : item :=
  (RTask task, None, Some {[ "source" := VStr "task_generator" ]}).

(** What the worker sees in one round of its loop: whether
    [stop_event] is set, the sizes of the two queues, and whether
    [pause_event] is set at each round of the [for] loop. *)
Record round : Type := mkRound {
  stop_event : bool;
  task_queue_size : Z;
  parser_qsize : Z;
  pause_event : nat → bool;
}.

(** How [worker_callback] ends: [stop_event] was set, [pause_event] was
    set while it filled the queue, the generator is exhausted; or it is
    still running after the rounds observed. *)
Inductive ending : Type := Stopped | Paused | Exhausted | Running.

(** The [for] loop, [n] rounds from round [i] on; [puts] are the items
    put on the input queue of the dispatcher so far.  [None] says that
    the loop ran to its end. *)
Fixpoint fill (n i : nat) (pause : nat → bool) (real_generator : Generator)
    (puts : list item) : option ending * Generator * list item :=
  match n with
  | O => (None, real_generator, puts)
  | S n =>
    if pause i then (Some Paused, real_generator, puts)
    else
      match next real_generator with
      | None => (Some Exhausted, real_generator, puts)
      | Some (task, real_generator) =>
        fill n (S i) pause real_generator (puts ++ [generated task])
      end
  end.

(** [worker_callback] over the rounds observed.  ([process_pause_signal]
    and [time.sleep] only delay the worker.) *)
Fixpoint worker_callback (task_queue_threshold : Z) (rounds : list round)
    (real_generator : Generator) (puts : list item)
    : ending * Generator * list item :=
  match rounds with
  | [] => (Running, real_generator, puts)
  | r :: rounds =>
    if stop_event r then (Stopped, real_generator, puts)
    else
      let queue_size := Z.max (task_queue_size r) (parser_qsize r) in
      if bool_decide (queue_size < task_queue_threshold)%Z then
        match fill (Z.to_nat (task_queue_threshold - queue_size)) 0
                   (pause_event r) real_generator puts with
        | (Some e, real_generator, puts) => (e, real_generator, puts)
        | (None, real_generator, puts) =>
          worker_callback task_queue_threshold rounds real_generator puts
        end
      else worker_callback task_queue_threshold rounds real_generator puts
  end.

(** The first [n] tasks of a generator (fewer if it ends before), and
    the generator after them. *)
Fixpoint draw (n : nat) (real_generator : Generator) : list Task * Generator :=
  match n with
  | O => ([], real_generator)
  | S n =>
    match next real_generator with
    | None => ([], real_generator)
    | Some (task, real_generator') =>
      let '(tasks, g) := draw n real_generator' in (task :: tasks, g)
    end
  end.

(** The room the worker sees in a round: how far the larger queue is
    below the threshold. *)
Definition room (task_queue_threshold : Z) (r : round) : nat :=
  if stop_event r then 0
  else Z.to_nat (task_queue_threshold
                 - Z.max (task_queue_size r) (parser_qsize r)).
End task_generator.

(** A generator that counts down: [n] gives the tasks [n, ..., 1]. *)
Definition countdown (n : nat) : option (nat * nat) :=
  match n with
  | O => None
  | S n => Some (S n, n)
  end.
End task_generator.

(** ** [grab/grab.py] *)

Module grab.
Import http.

(** *** Python values and the store of mutable objects *)

Abbreviation loc := nat (only parsing).

Inductive val : Type :=
  | VNone
  | VBool (b : bool)
  | VInt (z : Z)
  | VStr (s : string)
  | VRef (l : loc)          (* a mutable object, by reference *)
  | VOpaque (n : nat).      (* an object the client only passes on *)

#[global] Instance val_eq_dec : EqDecision val.
Proof. solve_decision. Defined.

(** Modelled from the spec: the Cookie record ([http.cookiejar.Cookie]);
    its attributes are read, never assigned, by the code at hand. *)
Record Cookie : Type := mkCookie {
  name : string;
  value : val;
  domain : string;
  path : string;
  expires : option Z;
  secure : bool;
  http_only : bool;
}.

#[global] Instance Cookie_eq_dec : EqDecision Cookie.
Proof. solve_decision. Defined.

Definition cookie_key (c : Cookie) : string * string * string :=
  (domain c, path c, name c).

(** Modelled from the spec: the Document, with the attributes that
    [grab.py] reads. *)
Record Document : Type := mkDocument {
  code : Z;
  headers : option (list (string * string));
  body : string;
  doc_cookies : list Cookie;
}.

(** Modelled from the spec: the Request, with the attributes that
    [grab.py] reads; each holds whatever value it was built with. *)
Record Request : Type := mkRequest {
  url : val;
  method : val;
  follow_location : val;
  redirect_limit : val;
  req_cookies : val;
}.

(** Modelled from the spec: the transport, as far as the client sees
    it.  [incoming] are the responses the network is going to deliver,
    one per exchange; [raw] is the response recorded by the last
    [request]; [sent] are the requests sent so far. *)
Record Transport : Type := mkTransport {
  incoming : list Document;
  raw : option Document;
  sent : list Request;
}.

Inductive obj : Type :=
  | OList (items : list val)
  | ODict (items : dict val)
  | OJar (jar : gmap (string * string * string) Cookie)   (* a CookieJar *)
  | OCookies (items : list Cookie)                        (* a list of Cookies *)
  | OTransport (t : Transport).

(** The object at location [l] is [σ !! l]; a new object goes to the
    end. *)
Abbreviation store := (list obj) (only parsing).

(** *** Computations on the store that may raise *)

Definition M (A : Type) : Type := store → store * result A.

#[global] Instance M_ret : MRet M := λ A a σ, (σ, Return a).
#[global] Instance M_bind : MBind M := λ A B k m σ,
  match m σ with
  | (σ, Return a) => k a σ
  | (σ, Raise e) => (σ, Raise e)
  end.
Definition raise {A : Type} (e : exn) : M A := λ σ, (σ, Raise e).
(** A computation that does not touch the store. *)
Definition lift {A : Type} (r : result A) : M A := λ σ, (σ, r).
Definition ret {A : Type} (a : A) : M A := mret a.

Definition alloc (o : obj) : M loc := λ σ, (σ ++ [o], Return (length σ)).
Definition update (l : loc) (o : obj) : M unit := λ σ, (<[l := o]> σ, Return ()).

Definition get_dict (l : loc) : M (dict val) :=
  λ σ, match σ !! l with
       | Some (ODict items) => (σ, Return items)
       | _ => (σ, Raise AttributeError)
       end.

Definition get_jar (l : loc) : M (gmap (string * string * string) Cookie) :=
  λ σ, match σ !! l with
       | Some (OJar jar) => (σ, Return jar)
       | _ => (σ, Raise AttributeError)
       end.

Definition get_transport (l : loc) : M Transport :=
  λ σ, match σ !! l with
       | Some (OTransport t) => (σ, Return t)
       | _ => (σ, Raise AttributeError)
       end.

(** [d[key]] *)
Definition dict_getitem (key : string) (d : dict val) : M val :=
  match list_find (λ kv, kv.1 = key) d with
  | Some (_, (_, v)) => ret v
  | None => raise (KeyError key)
  end.

(** Truth value of a Python object: empty containers are false. *)
Definition truthy (σ : store) (v : val) : bool :=
  match v with
  | VNone => false
  | VBool b => b
  | VInt z => negb (z =? 0)%Z
  | VStr s => negb (String.eqb s "")
  | VRef l =>
    match σ !! l with
    | Some (OList items) => negb (bool_decide (items = []))
    | Some (ODict items) => negb (bool_decide (items = []))
    | Some (OJar jar) => negb (bool_decide (jar = ∅))
    | Some (OCookies items) => negb (bool_decide (items = []))
    | Some (OTransport _) | None => true
    end
  | VOpaque _ => true
  end.

Definition is_true (v : val) : M bool := λ σ, (σ, Return (truthy σ v)).

(** [copy.copy]: immutable values are themselves; a mutable object is
    copied one level, its items being shared with the original. *)
Definition copy (y : val) : M val :=
  match y with
  | VRef l =>
    λ σ, match σ !! l with
         | Some o => (σ ++ [o], Return (VRef (length σ)))
         | None => (σ, Return y)
         end
  | _ => ret y
  end.

Fixpoint copy_items (items : dict val) : M (dict val) :=
  match items with
  | [] => ret []
  | (x, y) :: items =>
    y' ← copy y;
    items' ← copy_items items;
    ret ((x, y') :: items')
  end.

(** [copy_config]: [{x: copy(y) for x, y in config.items()}] *)
Definition copy_config (config : loc) : M loc :=
  items ← get_dict config;
  items' ← copy_items items;
  alloc (ODict items').

(** [{"reuse_cookies": True}] *)
Definition default_grab_config : M loc :=
  alloc (ODict [("reuse_cookies", VBool true)]).

(** *** The cookie jar *)

(** [CookieJar.set_cookie]: the cookie goes under its domain, path and
    name, in place of any cookie there. *)
Definition set_cookie (jar : loc) (c : Cookie) : M unit :=
  m ← get_jar jar;
  update jar (OJar (<[cookie_key c := c]> m)).

(** [CookieJar.clear()] *)
Definition clear_jar (jar : loc) : M unit :=
  _ ← get_jar jar;
  update jar (OJar ∅).

(** Every cookie of a jar sits under its own domain, path and name
    ([set_cookie] puts it there). *)
Definition jar_wf (m : gmap (string * string * string) Cookie) : Prop :=
  ∀ k c, m !! k = Some c → cookie_key c = k.

(** [list(jar)]: the cookies of the jar, in the order of its iteration. *)
Definition jar_items (m : gmap (string * string * string) Cookie) : list Cookie :=
  (map_to_list m).*2.

(** Modelled from the spec: [build_jar] ([grab/util/cookies.py] is not
    among the sources at hand) makes a new jar and sets the given
    cookies in it, in order. *)
Definition built (items : list Cookie) : gmap (string * string * string) Cookie :=
  foldl (λ m c, <[cookie_key c := c]> m) ∅ items.

Definition build_jar (items : list Cookie) : M loc := alloc (OJar (built items)).

(** *** The client *)

(** The three slots of a [Grab]. *)
Record Grab : Type := mkGrab {
  config : loc;
  transport : loc;
  cookies : loc;
}.

(** The store [σ] with the jar and the transport of [self] in the
    states [m] and [t]: what [request] changes on its way. *)
Definition with_state (σ : store) (self : Grab)
    (m : gmap (string * string * string) Cookie) (t : Transport) : store :=
  <[cookies self := OJar m]> (<[transport self := OTransport t]> σ).

(** [setup]: [key in self.config] and [self.config[key] = val]. *)
Fixpoint setup (self : Grab) (kwargs : dict val) : M unit :=
  match kwargs with
  | [] => ret ()
  | (key, val) :: kwargs =>
    items ← get_dict (config self);
    if dict_contains key items then
      update (config self) (ODict (dict_setitem key val items)) ;;
      setup self kwargs
    else raise GrabMisuseError
  end.

(** [Grab(transport=t, **kwargs)] for a transport instance [t], which
    [resolve_transport_entity] hands back as it is. *)
Definition Grab__init__ (transport : loc) (kwargs : dict val) : M Grab :=
  config ← default_grab_config;
  cookies ← alloc (OJar ∅);
  let self := mkGrab config transport cookies in
  (if bool_decide (kwargs = []) then ret () else setup self kwargs) ;;
  ret self.

Definition clone (self : Grab) (kwargs : dict val) : M Grab :=
  grab ← Grab__init__ (transport self) [];
  config ← copy_config (config self);
  m ← get_jar (cookies self);
  cookies ← build_jar (jar_items m);
  let grab := mkGrab config (transport grab) cookies in
  (if bool_decide (kwargs = []) then ret () else setup grab kwargs) ;;
  ret grab.

Definition clear_cookies (self : Grab) : M unit := clear_jar (cookies self).

(** *** What a client is made of, and what it shows *)

Definition dict_refs (items : dict val) : list loc :=
  omap (λ kv, match kv.2 with VRef l => Some l | _ => None end) items.

(** The objects of a client: its config dict, the values of that dict,
    its jar.  Assigning a config key, changing a config value in place,
    setting or clearing cookies writes to one of them. *)
Definition owned (σ : store) (self : Grab) : list loc :=
  config self :: cookies self ::
  match σ !! config self with
  | Some (ODict items) => dict_refs items
  | _ => []
  end.

(** A value, up to the identity of the object it refers to. *)
Definition shallow (σ : store) (v : val) : val + option obj :=
  match v with
  | VRef l => inr (σ !! l)
  | _ => inl v
  end.

(** The config of a client, key by key, with the contents of its
    values, and the contents of its jar. *)
Definition view (σ : store) (self : Grab)
    : option (list (string * (val + option obj))) * option obj :=
  (match σ !! config self with
   | Some (ODict items) => Some ((λ kv, (kv.1, shallow σ kv.2)) <$> items)
   | _ => None
   end,
   σ !! cookies self).

(** The objects a value refers to, directly or through lists and
    dicts, [fuel] levels deep. *)
Fixpoint contents (fuel : nat) (σ : store) (v : val) : list obj :=
  match fuel with
  | O => []
  | S fuel =>
    match v with
    | VRef l =>
      match σ !! l with
      | Some (OList items as o) => o :: (items ≫= contents fuel σ)
      | Some (ODict items as o) => o :: (items.*2 ≫= contents fuel σ)
      | Some o => [o]
      | None => []
      end
    | _ => []
    end
  end.

(** *** Serialisation *)

Definition __slots__ : list string := ["config"; "transport"; "cookies"].

Definition get_cookies (l : loc) : M (list Cookie) :=
  λ σ, match σ !! l with
       | Some (OCookies items) => (σ, Return items)
       | _ => (σ, Raise TypeError)
       end.

(** [__getstate__]: the slots by name, the jar as the list of its
    cookies under ["_cookies_items"]. *)
Definition __getstate__ (self : Grab) : M (dict val) :=
  m ← get_jar (cookies self);
  items ← alloc (OCookies (jar_items m));
  ret [("config", VRef (config self));
       ("transport", VRef (transport self));
       ("_cookies_items", VRef items)].

(** [__setstate__] on an object whose slots are the finite map [self]
    (it runs before any slot is set). *)
Fixpoint __setstate__ (self : gmap string val) (state : dict val)
    : M (gmap string val) :=
  match state with
  | [] => ret self
  | (key, value) :: state =>
    if decide (key = "_cookies_items") then
      match value with
      | VRef l =>
        items ← get_cookies l;
        jar ← build_jar items;
        __setstate__ (<["cookies" := VRef jar]> self) state
      | _ => raise TypeError
      end
    else if decide (key ∈ __slots__) then
      __setstate__ (<[key := value]> self) state
    else raise ValueError
  end.

(** The slots of a client that has all three. *)
Definition slots_of (self : Grab) : gmap string val :=
  {[ "config" := VRef (config self);
     "transport" := VRef (transport self);
     "cookies" := VRef (cookies self) ]}.

(** *** Requests *)

(** Modelled from the spec: the transport contract.  [reset] drops the
    recorded response; [request] performs one exchange, which delivers
    the next incoming response, or fails when the network has none;
    [prepare_response] hands out the recorded response as a Document. *)
Definition transport_reset (l : loc) : M unit :=
  t ← get_transport l;
  update l (OTransport (mkTransport (incoming t) None (sent t))).

Definition transport_request (l : loc) (req : Request) (jar : loc) : M unit :=
  t ← get_transport l;
  match incoming t with
  | doc :: rest => update l (OTransport (mkTransport rest (Some doc) (sent t ++ [req])))
  | [] => raise GrabNetworkError
  end.

Definition transport_prepare_response (l : loc) (req : Request) : M Document :=
  t ← get_transport l;
  match raw t with
  | Some doc => ret doc
  | None => raise GrabNetworkError
  end.

(** Modelled from the spec: [create_cookie], for a cookie given by name
    and value only; its domain is the host of the request. *)
Definition create_cookie (name : string) (value : val) (domain : string) : Cookie :=
  mkCookie name value domain "/" None false false.

Fixpoint set_cookies (jar : loc) (items : list Cookie) : M unit :=
  match items with
  | [] => ret ()
  | item :: items => set_cookie jar item;; set_cookies jar items
  end.

Definition find_redirect_url (doc : Document) : result (option string) :=
  match headers doc with
  | None => Raise AssertionError
  | Some headers =>
    if bool_decide (code doc ∈ [301; 302; 303; 307; 308]%Z) then
      match list_find (λ h, h.1 = "Location") headers with
      | Some (_, (_, location)) =>
        if String.eqb location "" then Return None else Return (Some location)
      | None => Return None
      end
    else Return None
  end.

(** The first argument of [request]: a [Request], or a URL or [None]. *)
Inductive url_arg : Type :=
  | UrlRequest (req : Request)
  | UrlValue (v : val).

Section request.
(** [Request.init_keys] and the default of [redirect_limit] belong to
    the Request class, [urljoin] and the host of a URL to [urllib]:
    parameters. *)
Context (init_keys : gset string).
Context (default_redirect_limit : Z).
Context (urljoin : string → string → string).
Context (hostname : string → option string).

Fixpoint merge_loop (cfg : gmap string val) (request_config : dict val)
    : result (gmap string val) :=
  match request_config with
  | [] => Return cfg
  | (key, val) :: request_config =>
    if decide (key ∈ init_keys) then merge_loop (<[key := val]> cfg) request_config
    else Raise GrabMisuseError
  end.

(** [merge_request_configs]; the second loop gives [None] to every
    key of [init_keys] that is not in [cfg] yet. *)
Definition merge_request_configs (request_config : dict val)
    : result (gmap string val) :=
  match merge_loop ∅ request_config with
  | Return cfg => Return (cfg ∪ gset_to_gmap VNone init_keys)
  | Raise e => Raise e
  end.

(** [cfg[key]] *)
Definition cfg_getitem (key : string) (cfg : gmap string val) : result val :=
  match cfg !! key with
  | Some v => Return v
  | None => Raise (KeyError key)
  end.

(** Modelled from the spec: [Request.create_from_mapping]; a missing
    [redirect_limit] takes the default of the system. *)
Definition create_from_mapping (cfg : gmap string val) : Request :=
  mkRequest
    (default VNone (cfg !! "url"))
    (default VNone (cfg !! "method"))
    (default VNone (cfg !! "follow_location"))
    (match cfg !! "redirect_limit" with
     | Some VNone | None => VInt default_redirect_limit
     | Some limit => limit
     end)
    (default VNone (cfg !! "cookies")).

Definition update_session_cookies (self : Grab) (cookies : val)
    (request_url : val) : M unit :=
  match request_url with
  | VStr request_url =>
    match hostname request_url with
    | Some request_host =>
      if String.eqb request_host "" then ret ()
      else
        nonempty ← is_true cookies;
        if nonempty : bool then
          match cookies with
          | VRef l =>
            items ← get_dict l;
            set_cookies (grab.cookies self)
              ((λ '(name, value), create_cookie name value request_host) <$> items)
          | _ => raise AttributeError
          end
        else ret ()
    | None => ret ()
    end
  | _ => raise TypeError                       (* urlsplit of no string *)
  end.

Definition prepare_request (self : Grab) (request_config : dict val) : M Request :=
  transport_reset (transport self);;
  cfg ← lift (merge_request_configs request_config);
  u ← lift (cfg_getitem "url" cfg);
  if decide (u = VNone) then raise GrabMisuseError
  else
    m ← lift (cfg_getitem "method" cfg);
    given ← is_true m;
    let cfg := if given : bool then cfg else <["method" := VStr "GET"]> cfg in
    f ← lift (cfg_getitem "follow_location" cfg);
    let cfg :=
      if decide (f = VNone) then <["follow_location" := VBool true]> cfg else cfg in
    let req := create_from_mapping cfg in
    update_session_cookies self (req_cookies req) (url req);;
    ret req.

(** The request that [prepare_request] builds from a merged config:
    [create_from_mapping] after the two defaults. *)
Definition prepared (cfg : gmap string val) : Request :=
  let cfg :=
    if truthy [] (default VNone (cfg !! "method")) then cfg
    else <["method" := VStr "GET"]> cfg in
  let cfg :=
    if decide (cfg !! "follow_location" = Some VNone)
    then <["follow_location" := VBool true]> cfg else cfg in
  create_from_mapping cfg.

(** The URLs of a redirect chain that starts at [u] and is told the
    locations [locations], each resolved against the URL before it. *)
Fixpoint chain_urls (u : string) (locations : list string) : list string :=
  u :: match locations with
       | [] => []
       | location :: locations => chain_urls (urljoin u location) locations
       end.

(** The request for the URL [u] under the merged config [cfg]. *)
Definition hop (cfg : gmap string val) (u : string) : Request :=
  prepared (<["url" := VStr u]> cfg).

(** Keyword arguments as a [dict] has them: every key once; and as
    [merge_request_configs] accepts them: every key in [init_keys]. *)
Definition kwargs_ok (kwargs : dict val) : Prop :=
  Forall (λ kv, kv.1 ∈ init_keys) kwargs ∧ NoDup kwargs.*1.

(** What [merge_request_configs] makes of such keyword arguments. *)
Definition merged (kwargs : dict val) : gmap string val :=
  foldl (λ cfg kv, <[kv.1 := kv.2]> cfg) ∅ kwargs ∪ gset_to_gmap VNone init_keys.

(** Keyword arguments that merge to [cfg], whatever URL they carry. *)
Definition kwargs_for (cfg : gmap string val) (kwargs : dict val) : Prop :=
  kwargs_ok kwargs ∧
  ∃ cfg', merge_request_configs kwargs = Return cfg' ∧
          ∀ u, <["url" := VStr u]> cfg' = <["url" := VStr u]> cfg.

(** The cookies of a request: none, or a mapping of the store. *)
Definition cookies_ok (σ : store) (c : val) : Prop :=
  c = VNone ∨ ∃ l items, c = VRef l ∧ σ !! l = Some (ODict items).

(** The transport after [reset]. *)
Definition reset (t : Transport) : Transport :=
  mkTransport (incoming t) None (sent t).

Definition process_request_result (self : Grab) (req : Request) : M Document :=
  doc ← transport_prepare_response (transport self) req;
  items ← get_dict (config self);
  reuse_cookies ← dict_getitem "reuse_cookies" items;
  reuse ← is_true reuse_cookies;
  (if reuse : bool then set_cookies (cookies self) (doc_cookies doc) else ret ());;
  ret doc.

(** [redir_count > req.redirect_limit] *)
Definition exceeds (redir_count : nat) (limit : val) : result bool :=
  match limit with
  | VInt z => Return (bool_decide (z < Z.of_nat redir_count)%Z)
  | VBool b => Return (bool_decide ((if b then 1 else 0) < Z.of_nat redir_count)%Z)
  | _ => Raise TypeError
  end.

(** The [while True] loop of [request]; one unit of fuel per exchange.
    ([log_request] only writes to the log.) *)
Fixpoint request_loop (fuel : nat) (self : Grab) (req : Request)
    (request_kwargs : dict val) (redir_count : nat) : M Document :=
  match fuel with
  | O => raise OutOfFuel
  | S fuel =>
    transport_request (transport self) req (cookies self);;
    doc ← process_request_result self req;
    follow ← is_true (follow_location req);
    if follow : bool then
      redir ← lift (find_redirect_url doc);
      match redir with
      | Some redir_url =>
        let redir_count := S redir_count in
        over ← lift (exceeds redir_count (redirect_limit req));
        if over : bool then raise GrabTooManyRedirectsError
        else
          match url req with
          | VStr u =>
            let redir_url := urljoin u redir_url in
            let request_kwargs := dict_setitem "url" (VStr redir_url) request_kwargs in
            req ← prepare_request self request_kwargs;
            request_loop fuel self req request_kwargs redir_count
          | _ => raise TypeError               (* urljoin of no string *)
          end
      | None => ret doc
      end
    else ret doc
  end.

Definition request (fuel : nat) (self : Grab) (url : url_arg)
    (request_kwargs : dict val) : M Document :=
  match url with
  | UrlRequest req => request_loop fuel self req request_kwargs 0
  | UrlValue url =>
    let request_kwargs :=
      if decide (url = VNone) then request_kwargs
      else dict_setitem "url" url request_kwargs in
    req ← prepare_request self request_kwargs;
    request_loop fuel self req request_kwargs 0
  end.
End request.

(** The keyword arguments of [request] once the URL argument is in:
    [if url is not None: request_kwargs["url"] = url]. *)
Definition with_url (v : val) (kwargs : dict val) : dict val :=
  if decide (v = VNone) then kwargs else dict_setitem "url" v kwargs.

(** *** Sample data *)

(** Modelled from the spec: the request keys it lists. *)
Definition spec_init_keys : gset string :=
  list_to_set
    ["url"; "method"; "headers"; "body"; "cookies"; "proxy"; "proxy_type";
     "proxy_userpwd"; "follow_location"; "redirect_limit"; "timeout";
     "connect_timeout"; "user_agent"].

(** A server on ["http://host"] that answers with absolute paths. *)
Definition sample_urljoin (base location : string) : string :=
  "http://host" +:+ location.
Definition sample_hostname (url : string) : option string := Some "host".

Definition redirect_to (location : string) : Document :=
  mkDocument 302 (Some [("Location", location)]) "" [].
Definition page (body : string) : Document :=
  mkDocument 200 (Some [("Hello", "Grab")]) body [].

(** A client at locations 0 (config), 1 (transport), 2 (jar), whose
    network is about to deliver [incoming]. *)
Definition sample_grab : Grab := mkGrab 0 1 2.
Definition sample_store (incoming : list Document) : store :=
  [ODict [("reuse_cookies", VBool true)];
   OTransport (mkTransport incoming None []);
   OJar ∅].

Definition sample_cookie : Cookie :=
  mkCookie "sid" (VStr "42") "host" "/" None false false.

(** The sample client with one cookie in its jar. *)
Definition sample_store_with_cookie : store :=
  [ODict [("reuse_cookies", VBool true)];
   OTransport (mkTransport [] None []);
   OJar {[ cookie_key sample_cookie := sample_cookie ]}].

(** The sample client with a list of lists as a config value:
    [config = {"reuse_cookies": [[1]]}]. *)
Definition nested_store : store :=
  [ODict [("reuse_cookies", VRef 3)];
   OTransport (mkTransport [] None []);
   OJar ∅;
   OList [VRef 4];
   OList [VInt 1]].

(** The requests sent, as the transport at location 1 has them. *)
Definition sent_urls (σ : store) : list val :=
  match σ !! 1 with
  | Some (OTransport t) => url <$> sent t
  | _ => []
  end.
End grab.

(** * Properties *)

(** ** The heap operations: sizes, contents, order *)

Module heapq_facts.
Import heapq.
#[local] Arguments Nat.div : simpl never.
#[local] Arguments Nat.mul : simpl never.
#[local] Arguments Nat.sub : simpl never.
Section contents.
Context {A : Type} (lt : A → A → bool).
Implicit Types (heap : list A) (x : A).

Lemma smaller_child_cases heap endpos childpos :
  smaller_child lt heap endpos childpos = childpos ∨
  smaller_child lt heap endpos childpos = childpos + 1 ∧ childpos + 1 < endpos.
Proof.
  unfold smaller_child.
  destruct (heap !! childpos), (heap !! (childpos + 1)); auto.
  case_decide; auto. destruct (lt _ _); auto.
Qed.

(** The loops never run out of fuel: any fuel from [pos] (towards the
    root) or from [endpos - pos] (towards the leaves) on gives the same
    heap. *)
Lemma _siftdown_loop_fuel fuel fuel' x startpos pos heap :
  pos ≤ fuel → pos ≤ fuel' →
  _siftdown_loop lt fuel x startpos pos heap =
  _siftdown_loop lt fuel' x startpos pos heap.
Proof.
  revert fuel' pos heap.
  induction fuel as [|fuel IH]; intros [|fuel'] pos heap Hf Hf'; simpl; try done.
  - by rewrite decide_False by lia.
  - by rewrite decide_False by lia.
  - case_decide; [|done]. destruct (heap !! _) as [parent|]; [|done].
    destruct (lt x parent); [|done]. apply IH; lia.
Qed.

Lemma _siftup_loop_fuel fuel fuel' x endpos startpos pos heap :
  endpos - pos ≤ fuel → endpos - pos ≤ fuel' →
  _siftup_loop lt fuel x endpos startpos pos heap =
  _siftup_loop lt fuel' x endpos startpos pos heap.
Proof.
  revert fuel' pos heap.
  induction fuel as [|fuel IH]; intros [|fuel'] pos heap Hf Hf'; simpl; try done.
  - by rewrite decide_False by lia.
  - by rewrite decide_False by lia.
  - case_decide; [|done].
    destruct (smaller_child_cases heap endpos (2 * pos + 1)) as [Hc|[Hc ?]];
      rewrite !Hc; (destruct (heap !! _) as [c|]; [|done]); apply IH; lia.
Qed.

Lemma _siftdown_loop_length fuel x startpos pos heap :
  length (_siftdown_loop lt fuel x startpos pos heap) = length heap.
Proof.
  revert pos heap. induction fuel as [|fuel IH]; intros pos heap; simpl.
  - by rewrite length_insert.
  - case_decide; [|by rewrite length_insert].
    destruct (heap !! _) as [parent|]; [|done].
    destruct (lt x parent); [|by rewrite length_insert].
    by rewrite IH, length_insert.
Qed.

Lemma _siftdown_length heap startpos pos :
  length (_siftdown lt heap startpos pos) = length heap.
Proof.
  unfold _siftdown. destruct (heap !! pos); [|done].
  apply _siftdown_loop_length.
Qed.

Lemma _siftup_loop_length fuel x endpos startpos pos heap :
  length (_siftup_loop lt fuel x endpos startpos pos heap) = length heap.
Proof.
  revert pos heap. induction fuel as [|fuel IH]; intros pos heap; simpl.
  - by rewrite _siftdown_length, length_insert.
  - case_decide; [|by rewrite _siftdown_length, length_insert].
    destruct (heap !! _) as [c|]; [|done].
    by rewrite IH, length_insert.
Qed.

Lemma _siftup_length heap pos : length (_siftup lt heap pos) = length heap.
Proof.
  unfold _siftup. destruct (heap !! pos); [|done].
  apply _siftup_loop_length.
Qed.

Lemma heappush_length heap x : length (heappush lt heap x) = S (length heap).
Proof.
  unfold heappush. rewrite _siftdown_length, length_app. simpl. lia.
Qed.

Lemma list_pop_Some heap x heap' :
  list_pop heap = Some (x, heap') ↔ heap = heap' ++ [x].
Proof.
  unfold list_pop. split.
  - destruct (last heap) as [y|] eqn:Hl; [|done].
    intros [= -> <-]. apply last_Some in Hl as [l' ->].
    by rewrite removelast_last.
  - intros ->. by rewrite last_snoc, removelast_last.
Qed.

Lemma list_pop_None heap : list_pop heap = None ↔ heap = [].
Proof.
  unfold list_pop. destruct (last heap) eqn:Hl.
  - split; [done|]. intros ->. done.
  - split; [|done]. intros _. by apply last_None.
Qed.

Lemma heappop_None heap : heappop lt heap = None ↔ heap = [].
Proof.
  unfold heappop. destruct (list_pop heap) as [[lastelt rest]|] eqn:Hp.
  - apply list_pop_Some in Hp as ->. destruct rest; split; try done.
    all: by intros ?%app_nil_inv.
  - apply list_pop_None in Hp as ->. done.
Qed.

Lemma heappop_length heap x heap' :
  heappop lt heap = Some (x, heap') → length heap = S (length heap').
Proof.
  unfold heappop. destruct (list_pop heap) as [[lastelt rest]|] eqn:Hp; [|done].
  apply list_pop_Some in Hp as ->. rewrite length_app. simpl.
  destruct rest as [|r rest]; intros [= <- <-]; simpl; [done|].
  rewrite _siftup_length. simpl. lia.
Qed.

(** Writing [x] where [parent] came from, after [parent] went to [pos]:
    the two cells are exchanged. *)
Lemma insert_moved_Permutation heap i j x a :
  heap !! i = Some a → j < length heap → i ≠ j →
  <[i := x]> (<[j := a]> heap) ≡ₚ <[j := x]> heap.
Proof.
  intros Hi Hj Hne.
  rewrite <-(list_insert_insert_eq heap j a x).
  apply Permutation_insert_swap.
  - by apply list_lookup_insert_eq.
  - by rewrite list_lookup_insert_ne.
Qed.

Lemma _siftdown_loop_Permutation fuel x startpos pos heap :
  pos < length heap →
  _siftdown_loop lt fuel x startpos pos heap ≡ₚ <[pos := x]> heap.
Proof.
  revert pos heap. induction fuel as [|fuel IH]; intros pos heap Hpos; simpl; [done|].
  case_decide as Hlt; [|done].
  destruct (heap !! _) as [parent|] eqn:Hparent.
  - destruct (lt x parent); [|done].
    rewrite IH by (rewrite length_insert; lia).
    apply insert_moved_Permutation; [done..|lia].
  - apply lookup_ge_None in Hparent. lia.
Qed.

Lemma _siftdown_Permutation heap startpos pos :
  _siftdown lt heap startpos pos ≡ₚ heap.
Proof.
  unfold _siftdown. destruct (heap !! pos) as [x|] eqn:Hx; [|done].
  rewrite _siftdown_loop_Permutation by eauto using lookup_lt_Some.
  by rewrite list_insert_id.
Qed.


Lemma _siftup_loop_Permutation fuel x endpos startpos pos heap :
  pos < length heap → endpos ≤ length heap →
  _siftup_loop lt fuel x endpos startpos pos heap ≡ₚ <[pos := x]> heap.
Proof.
  revert pos heap. induction fuel as [|fuel IH]; intros pos heap Hpos Hend; simpl.
  { apply _siftdown_Permutation. }
  case_decide as Hlt; [|apply _siftdown_Permutation].
  destruct (smaller_child_cases heap endpos (2 * pos + 1)) as [Hc|[Hc ?]];
    rewrite !Hc.
  all: destruct (heap !! _) as [c|] eqn:Hchild;
    [|apply lookup_ge_None in Hchild; lia].
  all: rewrite IH by (rewrite ?length_insert; lia).
  all: apply insert_moved_Permutation; [done| |]; lia.
Qed.

Lemma _siftup_Permutation heap pos : _siftup lt heap pos ≡ₚ heap.
Proof.
  unfold _siftup. destruct (heap !! pos) as [x|] eqn:Hx; [|done].
  rewrite _siftup_loop_Permutation by eauto using lookup_lt_Some.
  by rewrite list_insert_id.
Qed.

Lemma heappush_Permutation heap x : heappush lt heap x ≡ₚ x :: heap.
Proof.
  unfold heappush. rewrite _siftdown_Permutation.
  by rewrite Permutation_app_comm.
Qed.

Lemma heappop_Permutation heap x heap' :
  heappop lt heap = Some (x, heap') → heap ≡ₚ x :: heap'.
Proof.
  unfold heappop. destruct (list_pop heap) as [[lastelt rest]|] eqn:Hp; [|done].
  apply list_pop_Some in Hp as ->.
  destruct rest as [|r rest]; intros [= <- <-]; [done|].
  rewrite _siftup_Permutation. simpl.
  apply perm_skip. by rewrite <-Permutation_cons_append.
Qed.
End contents.

(** [lt] is the strict part of a total preorder [le], as far as the heap
    needs it. *)
Section order.
Context {A : Type} (lt : A → A → bool) (le : A → A → Prop).
Hypothesis le_trans : ∀ a b c, le a b → le b c → le a c.
Hypothesis lt_le : ∀ a b, lt a b = true → le a b.
Hypothesis not_lt_le : ∀ a b, lt a b = false → le b a.
Implicit Types (heap : list A) (x : A).

Lemma le_refl x : le x x.
Proof. destruct (lt x x) eqn:E; auto. Qed.

Ltac insert_lookup :=
  repeat match goal with
  | H : context [<[?i := _]> ?l !! ?j] |- _ =>
    first [ rewrite (list_lookup_insert_ne l i j) in H by lia
          | rewrite (list_lookup_insert_eq l i) in H by (rewrite ?length_insert; lia) ]
  | |- context [<[?i := _]> ?l !! ?j] =>
    first [ rewrite (list_lookup_insert_ne l i j) by lia
          | rewrite (list_lookup_insert_eq l i) by (rewrite ?length_insert; lia) ]
  end.

(** Sifting towards the root.  Before each round the heap with [x]
    written at [pos] is in order except between [pos] and its parent,
    and the children of [pos] are not below the parent of [pos]. *)
Lemma _siftdown_loop_ordered fuel x pos heap :
  pos ≤ fuel → pos < length heap →
  (∀ c a b, 0 < c → c ≠ pos →
     <[pos := x]> heap !! c = Some a →
     <[pos := x]> heap !! ((c - 1) / 2) = Some b → le b a) →
  (∀ c a b, 0 < pos → 0 < c → (c - 1) / 2 = pos →
     heap !! c = Some a → heap !! ((pos - 1) / 2) = Some b → le b a) →
  heap_ordered le (_siftdown_loop lt fuel x 0 pos heap).
Proof.
  revert pos heap. induction fuel as [|fuel IH]; intros pos heap Hfuel Hpos J1 J2.
  { simpl. intros c a b Hc. apply J1; lia. }
  simpl. case_decide as Hlt; [|intros c a b Hc; apply J1; lia].
  destruct (heap !! ((pos - 1) / 2)) as [parent|] eqn:Hparent;
    [|apply lookup_ge_None in Hparent; lia].
  destruct (lt x parent) eqn:Hx.
  - apply lt_le in Hx. apply IH; [lia|rewrite length_insert; lia|..].
    + intros c a b Hc Hne Ha Hb.
      destruct (decide (c = pos)) as [->|Hcp].
      { insert_lookup. by simplify_eq. }
      destruct (decide ((c - 1) / 2 = (pos - 1) / 2)) as [Hq|Hq].
      { rewrite Hq in Hb. insert_lookup. simplify_eq.
        apply le_trans with parent; [done|].
        apply (J1 c); [done..| |]; insert_lookup; [done|].
        by rewrite Hq. }
      destruct (decide ((c - 1) / 2 = pos)) as [Hq'|Hq'].
      { rewrite Hq' in Hb. insert_lookup. simplify_eq.
        by apply (J2 c). }
      insert_lookup. apply (J1 c); [done..| |]; by insert_lookup.
    + intros c a b Hpp Hc Hcp Ha Hb. insert_lookup.
      assert (le b parent) as Hbp.
      { apply (J1 ((pos - 1) / 2)); [lia..| |]; by insert_lookup. }
      destruct (decide (c = pos)) as [->|Hne].
      { insert_lookup. by simplify_eq. }
      insert_lookup. apply le_trans with parent; [done|].
      apply (J1 c); [done..| |]; insert_lookup; [done|]. by rewrite Hcp.
  - apply not_lt_le in Hx. intros c a b Hc Ha Hb.
    destruct (decide (c = pos)) as [->|Hne]; [|by apply (J1 c)].
    insert_lookup. by simplify_eq.
Qed.

Lemma _siftdown_ordered heap pos :
  pos < length heap →
  (∀ c a b, 0 < c → c ≠ pos →
     heap !! c = Some a → heap !! ((c - 1) / 2) = Some b → le b a) →
  (∀ c a b, 0 < pos → 0 < c → (c - 1) / 2 = pos →
     heap !! c = Some a → heap !! ((pos - 1) / 2) = Some b → le b a) →
  heap_ordered le (_siftdown lt heap 0 pos).
Proof.
  intros Hpos J1 J2. unfold _siftdown.
  destruct (heap !! pos) as [x|] eqn:Hx; [|apply lookup_ge_None in Hx; lia].
  apply _siftdown_loop_ordered; [done..| |done].
  by rewrite list_insert_id.
Qed.

Lemma smaller_child_least heap childpos a b c :
  childpos < length heap →
  c = childpos ∨ c = childpos + 1 →
  heap !! smaller_child lt heap (length heap) childpos = Some a →
  heap !! c = Some b → le a b.
Proof.
  intros Hlen Hc. unfold smaller_child.
  destruct (heap !! childpos) as [l|] eqn:Hl;
    [|apply lookup_ge_None in Hl; lia].
  destruct (heap !! (childpos + 1)) as [r|] eqn:Hr.
  - rewrite decide_True by eauto using lookup_lt_Some.
    destruct (lt l r) eqn:E; intros Ha Hb; destruct Hc as [-> | ->];
      simplify_eq; auto using le_refl.
  - intros Ha Hb. destruct Hc as [-> | ->]; simplify_eq. apply le_refl.
Qed.

(** Letting the smaller child bubble up.  Before each round the heap is
    in order away from [pos], and the children of [pos] are not below
    the parent of [pos]. *)
Lemma _siftup_loop_ordered fuel x pos heap :
  length heap - pos ≤ fuel → pos < length heap →
  (∀ c a b, 0 < c → c ≠ pos → (c - 1) / 2 ≠ pos →
     heap !! c = Some a → heap !! ((c - 1) / 2) = Some b → le b a) →
  (∀ c a b, 0 < pos → 0 < c → (c - 1) / 2 = pos →
     heap !! c = Some a → heap !! ((pos - 1) / 2) = Some b → le b a) →
  heap_ordered le (_siftup_loop lt fuel x (length heap) 0 pos heap).
Proof.
  revert pos heap. induction fuel as [|fuel IH]; intros pos heap Hfuel Hpos K1 K2;
    [lia|].
  simpl. case_decide as Hlt.
  - pose proof (smaller_child_cases lt heap (length heap) (2 * pos + 1)) as Hcases.
    pose proof (λ a b c, smaller_child_least heap (2 * pos + 1) a b c Hlt) as Hleast.
    set (ch := smaller_child lt heap (length heap) (2 * pos + 1)) in *.
    assert (ch < length heap ∧ (ch - 1) / 2 = pos ∧ pos < ch) as (Hch & Hchp & Hpch)
      by lia.
    destruct (heap !! ch) as [v|] eqn:Hv; [|apply lookup_ge_None in Hv; lia].
    rewrite <-(length_insert heap pos v).
    apply IH; rewrite ?length_insert; [lia|lia|..].
    + intros c a b Hc Hne Hpar Ha Hb.
      destruct (decide (c = pos)) as [->|Hcp].
      { insert_lookup. simplify_eq. apply (K2 ch); [lia..|done|done]. }
      destruct (decide ((c - 1) / 2 = pos)) as [Hq|Hq].
      { rewrite Hq in Hb. insert_lookup. simplify_eq.
        apply (Hleast _ _ c); [lia|done..]. }
      insert_lookup. by apply (K1 c).
    + intros c a b _ Hc Hpar Ha Hb. rewrite Hchp in Hb. insert_lookup.
      simplify_eq. apply (K1 c); [lia..|done|]. by rewrite Hpar.
  - rewrite <-(length_insert heap pos x) in Hpos.
    apply _siftdown_ordered; [done|..].
    + intros c a b Hc Hne Ha Hb.
      destruct (decide ((c - 1) / 2 = pos)) as [Hq|Hq].
      { apply lookup_lt_Some in Ha. rewrite length_insert in *. lia. }
      insert_lookup. by apply (K1 c).
    + intros c a b _ Hc Hpar Ha _.
      apply lookup_lt_Some in Ha. rewrite length_insert in *. lia.
Qed.

Lemma heappush_ordered heap x :
  heap_ordered le heap → heap_ordered le (heappush lt heap x).
Proof.
  intros Hord. unfold heappush.
  assert (length (heap ++ [x]) - 1 = length heap) as ->
    by (rewrite length_app; simpl; lia).
  apply _siftdown_ordered.
  - rewrite length_app. simpl. lia.
  - intros c a b Hc Hne Ha Hb.
    assert (c < length heap).
    { apply lookup_lt_Some in Ha. rewrite length_app in Ha. simpl in Ha. lia. }
    rewrite lookup_app_l in Ha, Hb by lia. by apply (Hord c).
  - intros c a b _ Hc Hpar Ha _.
    apply lookup_lt_Some in Ha. rewrite length_app in Ha. simpl in Ha. lia.
Qed.

Lemma heappop_head heap x heap' :
  heappop lt heap = Some (x, heap') → head heap = Some x.
Proof.
  unfold heappop. destruct (list_pop heap) as [[lastelt rest]|] eqn:Hp; [|done].
  apply list_pop_Some in Hp as ->.
  by destruct rest as [|r rest]; intros [= <- <-].
Qed.

Lemma _siftup_ordered heap :
  (∀ c a b, 0 < c → (c - 1) / 2 ≠ 0 →
     heap !! c = Some a → heap !! ((c - 1) / 2) = Some b → le b a) →
  heap_ordered le (_siftup lt heap 0).
Proof.
  intros K1. unfold _siftup.
  destruct (heap !! 0) as [x|] eqn:Hx.
  - apply _siftup_loop_ordered; [lia|by eapply lookup_lt_Some|..].
    + intros c a b Hc _. by apply K1.
    + lia.
  - intros c a b _ Ha. apply lookup_ge_None in Hx.
    apply lookup_lt_Some in Ha. lia.
Qed.

Lemma heappop_ordered heap x heap' :
  heap_ordered le heap → heappop lt heap = Some (x, heap') →
  heap_ordered le heap'.
Proof.
  intros Hord. unfold heappop.
  destruct (list_pop heap) as [[lastelt rest]|] eqn:Hp; [|done].
  apply list_pop_Some in Hp as ->.
  destruct rest as [|r rest]; intros [= <- <-].
  { intros c a b _ Ha. by destruct c. }
  change (<[0 := lastelt]> (r :: rest)) with (lastelt :: rest).
  apply _siftup_ordered. intros c a b Hc Hpar Ha Hb.
  destruct c as [|c]; [lia|].
  destruct ((S c - 1) / 2) as [|q] eqn:Hq; [lia|].
  apply (Hord (S c)); [lia|..].
  - by apply (lookup_app_l_Some (r :: rest)).
  - rewrite Hq. by apply (lookup_app_l_Some (r :: rest)).
Qed.

(** In a heap in order the root is least. *)
Lemma heap_ordered_root heap x :
  heap_ordered le heap → head heap = Some x → Forall (le x) heap.
Proof.
  intros Hord Hx. apply Forall_lookup. intros i.
  induction (lt_wf i) as [i _ IH]. intros y Hy.
  destruct (decide (i = 0)) as [->|Hi].
  { rewrite <-head_lookup, Hx in Hy. simplify_eq. apply le_refl. }
  destruct (lookup_lt_is_Some_2 heap ((i - 1) / 2)) as [z Hz].
  { apply lookup_lt_Some in Hy. lia. }
  apply le_trans with z; [apply (IH ((i - 1) / 2)); [lia|done]|].
  by apply (Hord i); [lia|..].
Qed.

Lemma heappop_least heap x heap' :
  heap_ordered le heap → heappop lt heap = Some (x, heap') →
  Forall (le x) heap'.
Proof.
  intros Hord Hpop.
  pose proof (heap_ordered_root heap x Hord (heappop_head _ _ _ Hpop)) as Hall.
  rewrite (heappop_Permutation _ _ _ _ Hpop) in Hall.
  by apply Forall_cons in Hall as [_ ?].
Qed.
End order.
End heapq_facts.

(** ** The memory queue backend *)

Module memory_facts.
Import heapq heapq_facts memory.
#[local] Arguments Nat.div : simpl never.

Section facts.
Context {Task : Type} `{EqDecision Task}.
Context (task_eq task_lt : Task → Task → bool).
#[local] Abbreviation entry_lt := (entry_lt task_eq task_lt).
#[local] Abbreviation put := (put task_eq task_lt).
#[local] Abbreviation get := (get task_eq task_lt).
#[local] Abbreviation get_loop := (get_loop task_eq task_lt).
#[local] Abbreviation get_spec := (get_spec task_eq task_lt).
#[local] Abbreviation promote := (promote task_eq task_lt).
#[local] Abbreviation run := (run task_eq task_lt).
#[local] Abbreviation QueueBackend := (@QueueBackend Task).
Implicit Types (self : QueueBackend) (task : Task) (now : Z).

Lemma entry_lt_le x y : entry_lt x y = true → priority_le x y.
Proof.
  unfold memory.entry_lt, priority_le. case_decide as E; [lia|].
  intros ?%bool_decide_eq_true. lia.
Qed.

Lemma entry_not_lt_le x y : entry_lt x y = false → priority_le y x.
Proof.
  unfold memory.entry_lt, priority_le. case_decide as E; [lia|].
  intros ?%bool_decide_eq_false. lia.
Qed.

Lemma priority_le_trans (x y z : Z * Task) :
  priority_le x y → priority_le y z → priority_le x z.
Proof. unfold priority_le. lia. Qed.

(** *** The loop of [get] against the specification's promotion *)

Lemma get_loop_queue now items index self removed :
  (get_loop now items index self removed).1 =
  mkQueue
    (foldl (λ heap e, heappush entry_lt heap (1%Z, e.2))
           (queue_object self) (filter (due now) items))
    (schedule_list self).
Proof.
  revert index self removed.
  induction items as [|[schedule_time task] items IH]; intros index self removed.
  { by destruct self. }
  simpl. rewrite filter_cons. unfold due at 2. simpl.
  case_bool_decide; [rewrite decide_True by done|rewrite decide_False by done];
    by rewrite IH.
Qed.

Lemma get_loop_removed now items index self removed i :
  i ∈ (get_loop now items index self removed).2 ↔
  i ∈ removed ∨ ∃ e, index ≤ i ∧ items !! (i - index) = Some e ∧ due now e.
Proof.
  revert index self removed.
  induction items as [|[schedule_time task] items IH]; intros index self removed.
  { simpl. split; [auto|]. by intros [?|(e & _ & ? & _)]. }
  simpl. case_bool_decide as Hdue; rewrite IH; clear IH.
  - rewrite elem_of_app, list_elem_of_singleton. split.
    + intros [[?| ->]|(e & ? & He & ?)]; [by left| |].
      * right. exists (schedule_time, task). by rewrite Nat.sub_diag.
      * right. exists e. split_and!; [lia| |done].
        by replace (i - index) with (S (i - S index)) by lia.
    + intros [?|(e & ? & He & ?)]; [by left; left|].
      destruct (decide (i = index)) as [->|]; [by left; right|].
      right. exists e. split_and!; [lia| |done].
      by replace (i - index) with (S (i - S index)) in He by lia.
  - split.
    + intros [?|(e & ? & He & ?)]; [by left|].
      right. exists e. split_and!; [lia| |done].
      by replace (i - index) with (S (i - S index)) by lia.
    + intros [?|(e & ? & He & Hd)]; [by left|].
      destruct (decide (i = index)) as [->|].
      { rewrite Nat.sub_diag in He. simpl in He. by simplify_eq. }
      right. exists e. split_and!; [lia| |done].
      by replace (i - index) with (S (i - S index)) in He by lia.
Qed.

(** Filtering [enumerate] by index is filtering by the element the
    index stands for. *)
Lemma filter_imap_index {X : Type} (R : nat → Prop) (Q : X → Prop)
    `{∀ i, Decision (R i)} `{∀ x, Decision (Q x)} (f : nat → nat) (l : list X) :
  (∀ i x, l !! i = Some x → R (f i) ↔ Q x) →
  (filter (λ ix, R ix.1) (imap (λ i x, (f i, x)) l)).*2 = filter Q l.
Proof.
  revert f. induction l as [|x l IH]; intros f Hf; [done|].
  rewrite imap_cons, !filter_cons. simpl.
  pose proof (Hf 0 x eq_refl) as Hhd.
  specialize (IH (f ∘ S) (λ i y Hy, Hf (S i) y Hy)).
  destruct (decide (R (f 0))), (decide (Q x)); try tauto; simpl;
    by rewrite <-IH.
Qed.

Lemma get_loop_remaining now self :
  (filter (λ ix, ix.1 ∉ (get_loop now (schedule_list self) 0 self []).2)
          (enumerate (schedule_list self))).*2 =
  filter (λ e, ¬ due now e) (schedule_list self).
Proof.
  unfold enumerate.
  refine (filter_imap_index
    (λ i, i ∉ (get_loop now (schedule_list self) 0 self []).2)
    (λ e, ¬ due now e) id (schedule_list self) _).
  intros i e He. unfold id. rewrite get_loop_removed, Nat.sub_0_r. split.
  - intros Hn Hd. apply Hn. right. exists e. split_and!; [lia|done..].
  - intros Hn [[]%elem_of_nil|(e' & _ & He' & Hd)]. by simplify_eq.
Qed.

(** [get] is the specification's [get_spec]: promotion of every due
    entry at priority 1, then a pop or [Empty]. *)
Lemma get_get_spec self now : get self now = get_spec self now.
Proof.
  unfold memory.get, memory.get_spec.
  pose proof (get_loop_queue now (schedule_list self) 0 self []) as Hq.
  pose proof (get_loop_remaining now self) as Hr.
  destruct (get_loop _ _ _ _ _) as [self' removed]. simpl in Hq, Hr.
  subst self'. cbn [queue_object schedule_list]. rewrite Hr.
  fold (promote now self).
  case_decide as Hlen.
  - apply nil_length_inv in Hlen.
    destruct (heappop _ _) as [[e heap]|] eqn:Hpop; [|done].
    apply (heappop_None entry_lt) in Hlen. unfold promote in Hpop.
    cbn [queue_object] in Hpop. congruence.
  - destruct (heappop _ _) as [[[p task] heap]|] eqn:Hpop; [done|].
    apply heappop_None in Hpop. by rewrite Hpop in Hlen.
Qed.

(** *** Sizes *)

Lemma size_put self task priority schedule_time :
  size (put self task priority schedule_time) = S (size self).
Proof.
  unfold size. destruct schedule_time; simpl.
  - rewrite length_app. simpl. lia.
  - by rewrite heappush_length.
Qed.

Lemma promoted_Permutation now (heap l : list (Z * Task)) :
  foldl (λ heap e, heappush entry_lt heap (1%Z, e.2)) heap l ≡ₚ
  heap ++ ((λ e, (1%Z, e.2)) <$> l).
Proof.
  revert heap. induction l as [|e l IH]; intros heap; simpl.
  { by rewrite app_nil_r. }
  rewrite IH, heappush_Permutation. simpl. apply Permutation_middle.
Qed.

Lemma size_promote now self : size (promote now self) = size self.
Proof.
  unfold size, promote. simpl.
  rewrite (promoted_Permutation now), length_app, length_fmap.
  rewrite <-(Permutation_length (filter_app_complement (due now) (schedule_list self))).
  rewrite length_app. lia.
Qed.

Lemma size_get self now r self' :
  get self now = (r, self') →
  size self = size self' + (if is_return r then 1 else 0).
Proof.
  rewrite get_get_spec. unfold memory.get_spec.
  rewrite <-(size_promote now self).
  destruct (heappop _ _) as [[e heap]|] eqn:Hpop; intros [= <- <-].
  - apply heappop_length in Hpop. unfold size, promote in *. simpl in *. lia.
  - simpl. lia.
Qed.

Lemma size_run ops self :
  size (run ops self).2 + successful_gets (run ops self).1 =
  size self + puts ops.
Proof.
  revert self. induction ops as [|[task priority schedule_time|now] ops IH];
    intros self; simpl.
  - unfold successful_gets, puts. simpl. lia.
  - rewrite IH, size_put. unfold puts. rewrite filter_cons. simpl. lia.
  - destruct (get self now) as [r self1] eqn:Hget.
    specialize (IH self1). destruct (run ops self1) as [rs self2].
    simpl in *. apply size_get in Hget.
    unfold successful_gets, puts in *. rewrite !filter_cons. simpl.
    destruct r; simpl in *; lia.
Qed.

(** *** The ready heap stays in priority order *)

Lemma heappush_priority heap e :
  heap_ordered priority_le heap →
  heap_ordered priority_le (heappush entry_lt heap e).
Proof.
  apply heappush_ordered;
    eauto using priority_le_trans, entry_lt_le, entry_not_lt_le.
Qed.

Lemma put_ordered self task priority schedule_time :
  heap_ordered priority_le (queue_object self) →
  heap_ordered priority_le (queue_object (put self task priority schedule_time)).
Proof. destruct schedule_time; simpl; auto using heappush_priority. Qed.

Lemma promote_ordered now self :
  heap_ordered priority_le (queue_object self) →
  heap_ordered priority_le (queue_object (promote now self)).
Proof.
  unfold promote. simpl. generalize (filter (due now) (schedule_list self)).
  intros l. revert self. induction l as [|e l IH]; intros [heap sched]; simpl.
  - done.
  - intros Hord. apply (IH (mkQueue _ sched)). simpl.
    by apply heappush_priority.
Qed.

Lemma get_ordered self now r self' :
  heap_ordered priority_le (queue_object self) →
  get self now = (r, self') →
  heap_ordered priority_le (queue_object self').
Proof.
  intros Hord%(promote_ordered now). rewrite get_get_spec. unfold memory.get_spec.
  destruct (heappop _ _) as [[e heap]|] eqn:Hpop; intros [= <- <-]; [|done].
  simpl. eapply heappop_ordered;
    eauto using priority_le_trans, entry_lt_le, entry_not_lt_le.
Qed.

Lemma init_ordered : heap_ordered priority_le (queue_object (@init Task)).
Proof. intros c x y _ Hx. by destruct c. Qed.

Lemma run_ordered ops self :
  heap_ordered priority_le (queue_object self) →
  heap_ordered priority_le (queue_object (run ops self).2).
Proof.
  revert self. induction ops as [|[task priority schedule_time|now] ops IH];
    intros self Hord; simpl.
  - done.
  - by apply IH, put_ordered.
  - destruct (get self now) as [r self1] eqn:Hget.
    specialize (IH self1 (get_ordered _ _ _ _ Hord Hget)).
    by destruct (run ops self1).
Qed.

(** What a successful [get] hands out: an entry of the promoted heap,
    below which no ready entry lies. *)
Lemma get_least self now task self' :
  heap_ordered priority_le (queue_object self) →
  get self now = (Return task, self') →
  ∃ priority,
    queue_object (promote now self) ≡ₚ (priority, task) :: queue_object self' ∧
    schedule_list self' = schedule_list (promote now self) ∧
    Forall (λ e, (priority ≤ e.1)%Z) (queue_object (promote now self)).
Proof.
  intros Hord%(promote_ordered now). rewrite get_get_spec. unfold memory.get_spec.
  destruct (heappop _ _) as [[[priority task'] heap]|] eqn:Hpop;
    intros [= <- <-].
  exists priority. split_and!; [by eapply heappop_Permutation|done|].
  change (Forall (priority_le (priority, task')) (queue_object (promote now self))).
  eapply (heap_ordered_root entry_lt priority_le);
    eauto using priority_le_trans, entry_lt_le, entry_not_lt_le, heappop_head.
Qed.

(** *** Scheduled tasks wait for their time *)

Lemma elem_of_promote now self e :
  e ∈ queue_object (promote now self) ↔
  e ∈ queue_object self ∨
  ∃ s, e.1 = 1%Z ∧ (s, e.2) ∈ schedule_list self ∧ (s ≤ now)%Z.
Proof.
  unfold promote. simpl. rewrite (promoted_Permutation now), elem_of_app.
  rewrite list_elem_of_fmap. split.
  - intros [?|([s task] & -> & [Hd ?]%list_elem_of_filter)]; [by left|].
    right. by exists s.
  - intros [?|(s & Hp & Hin & Hd)]; [by left|]. right.
    exists (s, e.2). split; [by destruct e; simpl in *; subst|].
    by apply list_elem_of_filter.
Qed.

Lemma get_returns self now task self' :
  get self now = (Return task, self') →
  (∃ p, (p, task) ∈ queue_object self) ∨
  (∃ s, (s, task) ∈ schedule_list self ∧ (s ≤ now)%Z).
Proof.
  rewrite get_get_spec. unfold memory.get_spec.
  destruct (heappop _ _) as [[[p task'] heap]|] eqn:Hpop; intros [= <- <-].
  assert ((p, task') ∈ queue_object (promote now self)) as Hin.
  { rewrite (heappop_Permutation _ _ _ _ Hpop). by left. }
  apply elem_of_promote in Hin as [?|(s & _ & ? & ?)]; [left|right]; eauto.
Qed.

Lemma get_ready_after self now r self' e :
  get self now = (r, self') → e ∈ queue_object self' →
  e ∈ queue_object self ∨ ∃ s, (s, e.2) ∈ schedule_list self ∧ (s ≤ now)%Z.
Proof.
  rewrite get_get_spec. unfold memory.get_spec.
  destruct (heappop _ _) as [[e' heap]|] eqn:Hpop; intros [= <- <-] Hin.
  - assert (e ∈ queue_object (promote now self)) as Hin'.
    { rewrite (heappop_Permutation _ _ _ _ Hpop). by right. }
    apply elem_of_promote in Hin' as [?|(s & _ & ? & ?)]; eauto.
  - apply elem_of_promote in Hin as [?|(s & _ & ? & ?)]; eauto.
Qed.

Lemma get_scheduled_after self now r self' e :
  get self now = (r, self') → e ∈ schedule_list self' →
  e ∈ schedule_list self ∧ (now < e.1)%Z.
Proof.
  rewrite get_get_spec. unfold memory.get_spec.
  destruct (heappop _ _) as [[e' heap]|] eqn:Hpop; intros [= <- <-];
    simpl; intros [Hd ?]%list_elem_of_filter; unfold due in Hd; split; (done || lia).
Qed.

Lemma put_held_back x t last self task priority schedule_time :
  held_back x t last self →
  (task = x → ∃ t', schedule_time = Some t' ∧ (t ≤ t')%Z) →
  held_back x t last (put self task priority schedule_time).
Proof.
  intros [Hready Hsched] Hx. split.
  - intros p. destruct schedule_time as [t'|]; simpl; [apply Hready|].
    rewrite heappush_Permutation. intros [E|?]%elem_of_cons; [|by eapply Hready].
    simplify_eq. by destruct Hx as (? & ? & _).
  - intros s. destruct schedule_time as [t'|]; simpl; [|apply Hsched].
    intros [?|E%list_elem_of_singleton]%elem_of_app; [by apply Hsched|].
    simplify_eq. destruct Hx as (? & ? & ?); [done|]. by simplify_eq.
Qed.

Lemma get_held_back x t last self now r self' :
  held_back x t last self → (last ≤ now)%Z →
  get self now = (r, self') → held_back x t now self'.
Proof.
  intros [Hready Hsched] Hnow Hget. split.
  - intros p Hin.
    destruct (get_ready_after _ _ _ _ _ Hget Hin) as [?|(s & Hs & ?)].
    + specialize (Hready p). lia.
    + specialize (Hsched s Hs). lia.
  - intros s Hin. apply Hsched.
    by destruct (get_scheduled_after _ _ _ _ _ Hget Hin).
Qed.

Lemma run_held_back x t ops self last :
  held_back x t last self →
  Forall (Z.le last) (clock_readings ops) →
  StronglySorted Z.le (clock_readings ops) →
  (∀ p s, Put x p s ∈ ops → ∃ t', s = Some t' ∧ (t ≤ t')%Z) →
  ∀ now, (now, Return x) ∈ (run ops self).1 → (t ≤ now)%Z.
Proof.
  revert self last.
  induction ops as [|[task priority schedule_time|now'] ops IH];
    intros self last Hheld Hlast Hsorted Hputs now; simpl.
  - by intros ?%elem_of_nil.
  - apply (IH _ last); [|done..|].
    + apply put_held_back; [done|]. intros ->. apply (Hputs priority). by left.
    + intros p s ?. apply (Hputs p). by right.
  - simpl in Hlast, Hsorted.
    apply Forall_cons in Hlast as [Hnow' _].
    apply StronglySorted_inv in Hsorted as [Hsorted Hafter].
    destruct (get self now') as [r self1] eqn:Hget.
    specialize (IH self1 now' (get_held_back _ _ _ _ _ _ _ Hheld Hnow' Hget)
                   Hafter Hsorted).
    destruct (run ops self1) as [rs self2]. simpl in *.
    intros [E|Hin]%elem_of_cons.
    + simplify_eq. destruct Hheld as [Hready Hsched].
      destruct (get_returns _ _ _ _ Hget) as [[p Hp]|(s & Hs & ?)].
      * specialize (Hready p Hp). lia.
      * specialize (Hsched s Hs). lia.
    + apply IH; [|done]. intros p s ?. apply (Hputs p). by right.
Qed.

Lemma get_held_back_max x t m self now r self' :
  held_back x t m self →
  get self now = (r, self') → held_back x t (Z.max m now) self'.
Proof.
  intros [Hready Hsched] Hget. split.
  - intros p Hin.
    destruct (get_ready_after _ _ _ _ _ Hget Hin) as [?|(s & Hs & ?)].
    + specialize (Hready p). lia.
    + specialize (Hsched s Hs). lia.
  - intros s Hin. apply Hsched.
    by destruct (get_scheduled_after _ _ _ _ _ Hget Hin).
Qed.

(** Whatever the clock does: [x] is returned only after a reading of
    [t] or later (or the queue held it ready before, [t ≤ m]). *)
Lemma run_returned_after x t ops : ∀ self m,
  held_back x t m self →
  (∀ p s, Put x p s ∈ ops → ∃ t', s = Some t' ∧ (t ≤ t')%Z) →
  ∀ i now, (run ops self).1 !! i = Some (now, Return x) →
    (t ≤ m)%Z ∨
    ∃ j now' r, j ≤ i ∧ (run ops self).1 !! j = Some (now', r) ∧ (t ≤ now')%Z.
Proof.
  induction ops as [|[task priority schedule_time|now0] ops IH];
    intros self m Hheld Hputs i now; simpl.
  - done.
  - apply (IH _ m).
    + apply put_held_back; [done|]. intros ->. apply (Hputs priority). by left.
    + intros p s ?. apply (Hputs p). by right.
  - destruct (get self now0) as [r self1] eqn:Hget.
    specialize (IH self1 (Z.max m now0)
                  (get_held_back_max _ _ _ _ _ _ _ Hheld Hget)).
    destruct (run ops self1) as [rs self2]. simpl in *.
    destruct i as [|i]; simpl.
    + intros [= -> ->]. destruct Hheld as [Hready Hsched].
      destruct (get_returns _ _ _ _ Hget) as [[p Hp]|(s & Hs & ?)].
      * left. by apply (Hready p).
      * right. exists 0, now, (Return x). split_and!; [done..|].
        specialize (Hsched s Hs). lia.
    + intros Hi. destruct (IH (λ p s H, Hputs p s (list_elem_of_further _ _ _ H))
                             i now Hi) as [Hle|(j & now' & r' & Hj & Hlook & Hle)].
      * destruct (decide (t ≤ m)%Z) as [?|Hm]; [by left|]. right.
        exists 0, now0, r. split_and!; [lia|done|lia].
      * right. exists (S j), now', r'. split_and!; [lia|done..].
Qed.

Lemma init_held_back x t last : held_back x t last (@init Task).
Proof. split; intros ? []%elem_of_nil. Qed.

(** *** The claims about the queue *)

(** C5.  After any interleaving of [put] and [get] calls on a fresh
    memory queue, [size()] is the number of [put]s minus the number of
    [get]s that returned a task, and it is the length of the ready heap
    plus the length of the scheduled list. *)
Theorem size_is_puts_minus_successful_gets (ops : list op) :
  let rs := (run ops init).1 in
  let self := (run ops init).2 in
  size self = puts ops - successful_gets rs ∧
  successful_gets rs ≤ puts ops ∧
  size self = length (queue_object self) + length (schedule_list self).
Proof.
  intros rs self. pose proof (size_run ops init) as Hrun.
  fold rs self in Hrun. unfold size at 2 in Hrun. simpl in Hrun.
  split_and!; [lia|lia|done].
Qed.

(** C3, as the code has it.  Let every [put] of task [x] carry a
    [schedule_time] of [t] or later.  Then a [get] returns [x] only when
    that [get] or one before it has read a clock of [t] or later; so when
    the clock readings never go back, no [get] returns [x] at a reading
    before [t] (when they do go back, one can).  And every [get]
    takes the scheduled entries with [schedule_time <= now] off the
    scheduled list, leaving the others in their order, and has them in
    the ready heap at priority 1 (a scheduled entry has no priority of
    its own: [put] drops it); it then returns the task of one entry of
    that heap and keeps the rest, or raises [Empty], which it does
    exactly when the heap is empty after the promotion. *)
Theorem scheduled_task_not_returned_early (ops : list op) (x : Task) (t : Z) :
  (∀ p s, Put x p s ∈ ops → ∃ t', s = Some t' ∧ (t ≤ t')%Z) →
  (∀ i now, (run ops init).1 !! i = Some (now, Return x) →
     ∃ j now' r, j ≤ i ∧ (run ops init).1 !! j = Some (now', r) ∧ (t ≤ now')%Z) ∧
  (StronglySorted Z.le (clock_readings ops) →
   ∀ now, (now, Return x) ∈ (run ops init).1 → (t ≤ now)%Z) ∧
  (∀ self now,
     let ready :=
       queue_object self ++
       ((λ e, (1%Z, e.2)) <$> filter (due now) (schedule_list self)) in
     schedule_list (get self now).2 =
       filter (λ e, ¬ due now e) (schedule_list self) ∧
     ((get self now).1 = Raise Empty ↔ ready = []) ∧
     match (get self now).1 with
     | Return task => ∃ p, ready ≡ₚ (p, task) :: queue_object (get self now).2
     | Raise e => e = Empty ∧ queue_object (get self now).2 = []
     end).
Proof.
  intros Hputs. split_and!.
  - intros i now Hi.
    destruct (run_returned_after x t ops init (t - 1)%Z
                (init_held_back x t (t - 1)%Z) Hputs i now Hi) as [?|?]; [lia|done].
  - intros Hsorted.
    destruct (clock_readings ops) as [|now0 readings] eqn:Hreadings.
    + apply (run_held_back x t ops init 0%Z);
        rewrite ?Hreadings; auto using init_held_back.
    + apply (run_held_back x t ops init now0);
        rewrite ?Hreadings; auto using init_held_back.
      apply StronglySorted_inv in Hsorted as [_ Hall].
      constructor; [lia|done].
  - intros self now ready.
    pose proof (promoted_Permutation now (queue_object self)
                  (filter (due now) (schedule_list self))) as Hperm.
    fold ready in Hperm.
    rewrite get_get_spec. unfold memory.get_spec.
    destruct (heappop _ _) as [[[p task] heap]|] eqn:Hpop;
      cbn [fst snd queue_object schedule_list].
    + split_and!; [done| |].
      * split; [done|]. intros Hnil. rewrite Hnil in Hperm.
        apply Permutation_nil_r in Hperm.
        apply (heappop_None entry_lt) in Hperm. unfold promote in Hpop.
        cbn [queue_object] in Hpop. congruence.
      * exists p. rewrite <-Hperm. by apply (heappop_Permutation entry_lt).
    + apply heappop_None in Hpop. unfold promote in Hpop |- *.
      cbn [queue_object schedule_list] in Hpop |- *.
      rewrite Hpop in Hperm |- *. symmetry in Hperm.
      apply Permutation_nil_r in Hperm. by rewrite Hperm.
Qed.

(** C2, as the code has it.  The ready heap is keyed by
    [(priority, task)], without an insertion number.  A [get] returns an
    entry of least priority among the ready entries; and two tasks put
    one after the other with the same priority and no [schedule_time]
    into a fresh queue come back in that order, unless the ordering of
    [Task] ranks the second strictly before the first. *)
Theorem get_least_priority_and_fifo_of_two :
  (∀ (ops : list op) now task self',
     get (run ops init).2 now = (Return task, self') →
     ∃ priority,
       (priority, task) ∈ queue_object (promote now (run ops init).2) ∧
       Forall (λ e, (priority ≤ e.1)%Z)
              (queue_object (promote now (run ops init).2))) ∧
  (∀ (a b : Task) (p now1 now2 : Z),
     entry_lt (p, b) (p, a) = false →
     (run [Put a p None; Put b p None; Get now1; Get now2] init).1 =
     [(now1, Return a); (now2, Return b)]).
Proof.
  split.
  - intros ops now task self' Hget.
    destruct (get_least _ _ _ _ (run_ordered ops init init_ordered) Hget)
      as (priority & Hperm & _ & Hall).
    exists priority. split; [|done]. rewrite Hperm. by left.
  - intros a b p now1 now2 Hlt.
    assert (heappush entry_lt (heappush entry_lt [] (p, a)) (p, b)
            = [(p, a); (p, b)]) as Hheap.
    { cbv [heappush _siftdown _siftdown_loop app length lookup list_lookup
           Nat.sub insert list_insert decide decide_rel]. simpl.
      by rewrite Hlt. }
    cbn [run put queue_object schedule_list init]. rewrite Hheap.
    reflexivity.
Qed.
(** *** Failed [get]s, [clear], conservation *)

Lemma filter_all {X : Type} (P : X → Prop) `{∀ x, Decision (P x)} (l : list X) :
  Forall P l → filter P l = l.
Proof.
  induction 1 as [|x l Hx _ IH]; [done|]. by rewrite filter_cons_True, IH.
Qed.

Lemma filter_none {X : Type} (P : X → Prop) `{∀ x, Decision (P x)} (l : list X) :
  Forall (λ x, ¬ P x) l → filter P l = [].
Proof.
  induction 1 as [|x l Hx _ IH]; [done|]. by rewrite filter_cons_False.
Qed.

(** X1.  [get] raises nothing but [Empty], and only on a queue with no
    ready entry and no scheduled entry that is due; such a [get] leaves
    the queue as it was. *)
Theorem get_raises_only_Empty self now e :
  (get self now).1 = Raise e →
  e = Empty ∧ (get self now).2 = self ∧
  queue_object self = [] ∧ Forall (λ s, (now < s.1)%Z) (schedule_list self).
Proof.
  rewrite get_get_spec. unfold memory.get_spec.
  destruct (heappop _ _) as [[x heap]|] eqn:Hpop; [done|].
  intros [= <-]. apply heappop_None in Hpop.
  unfold promote in Hpop |- *. cbn [queue_object schedule_list fst snd] in *.
  pose proof (promoted_Permutation now (queue_object self)
                (filter (due now) (schedule_list self))) as Hperm.
  rewrite Hpop in Hperm. symmetry in Hperm. apply Permutation_nil_r in Hperm.
  apply app_eq_nil in Hperm as [Hq Hdue]. apply fmap_nil_inv in Hdue.
  assert (Forall (λ s, (now < s.1)%Z) (schedule_list self)) as Hlater.
  { apply Forall_forall. intros s Hs.
    destruct (decide (due now s)) as [Hd|Hd]; [|unfold due in Hd; lia].
    assert (s ∈ filter (due now) (schedule_list self)) as Hin
      by (by apply list_elem_of_filter).
    rewrite Hdue in Hin. by apply elem_of_nil in Hin. }
  split_and!; [done| |done..].
  destruct self as [q sl]. cbn [queue_object schedule_list] in *. subst q.
  rewrite Hdue. cbn [foldl]. f_equal.
  apply filter_all. eapply Forall_impl; [done|].
  intros s Hs. unfold due. simpl in *. lia.
Qed.

Lemma clear_loop_drains fuel : ∀ heap,
  length heap < fuel → clear_loop task_eq task_lt fuel heap = (Raise Empty, []).
Proof.
  induction fuel as [|fuel IH]; intros heap Hfuel; [lia|]. simpl.
  case_decide as Hlen.
  { by apply nil_length_inv in Hlen as ->. }
  destruct (heappop entry_lt heap) as [[x heap']|] eqn:Hpop.
  - apply IH. apply heappop_length in Hpop. lia.
  - apply heappop_None in Hpop. by subst heap.
Qed.

(** X2.  [clear] ends (the loop takes one ready entry per round) and
    leaves an empty queue: its size is 0, the scheduled entries are gone
    with the ready ones, and any [get] after it raises [Empty]. *)
Theorem clear_empties self fuel :
  length (queue_object self) < fuel →
  clear task_eq task_lt fuel self = (Return (), init) ∧
  size (@init Task) = 0 ∧
  ∀ now, get init now = (Raise Empty, init).
Proof.
  intros Hfuel. unfold memory.clear. by rewrite clear_loop_drains.
Qed.

Lemma held_put self task priority schedule_time :
  held (put self task priority schedule_time) ≡ₚ task :: held self.
Proof.
  unfold held. destruct schedule_time as [t|]; simpl.
  - rewrite fmap_app, app_assoc. simpl. symmetry. apply Permutation_cons_append.
  - by rewrite heappush_Permutation.
Qed.

Lemma held_promote now self : held (promote now self) ≡ₚ held self.
Proof.
  unfold held, promote. simpl. rewrite (promoted_Permutation now).
  rewrite fmap_app, <-list_fmap_compose, <-app_assoc.
  apply Permutation_app_head.
  rewrite <-(filter_app_complement (due now) (schedule_list self)) at 3.
  by rewrite fmap_app.
Qed.

Lemma held_get self now r self' :
  get self now = (r, self') →
  held self ≡ₚ match r with Return task => [task] | Raise _ => [] end ++ held self'.
Proof.
  rewrite get_get_spec. unfold memory.get_spec.
  rewrite <-(held_promote now self).
  destruct (heappop _ _) as [[e heap]|] eqn:Hpop; intros [= <- <-]; [|done].
  apply heappop_Permutation in Hpop. unfold held at 1. rewrite Hpop. done.
Qed.

(** X3.  No task is lost and none is made up: after any calls of [put]
    and [get], the tasks that [get] returned together with the tasks the
    queue still holds are the tasks that were there at the start and the
    tasks that were put, each as often. *)
Theorem tasks_conserved (ops : list op) self :
  returned (run ops self).1 ++ held (run ops self).2 ≡ₚ held self ++ put_tasks ops.
Proof.
  revert self. induction ops as [|[task priority schedule_time|now] ops IH];
    intros self; simpl.
  - by rewrite app_nil_r.
  - rewrite IH, held_put. unfold put_tasks. simpl.
    by rewrite Permutation_middle.
  - destruct (get self now) as [r self1] eqn:Hget.
    specialize (IH self1). destruct (run ops self1) as [rs self2].
    simpl in *. apply held_get in Hget.
    unfold returned, put_tasks in *. simpl. rewrite Hget.
    destruct r as [task|e]; simpl; [|done].
    by rewrite IH.
Qed.

(** X4.  Two [get]s in a row come in the order of their priorities:
    when the second [get] finds no scheduled entry due, the task of the
    first was ready at a priority no greater than that of the second. *)
Theorem successive_gets_by_priority (ops : list op) now1 now2 x y self1 self2 :
  get (run ops init).2 now1 = (Return x, self1) →
  get self1 now2 = (Return y, self2) →
  Forall (λ s, (now2 < s.1)%Z) (schedule_list self1) →
  ∃ px py,
    queue_object (promote now1 (run ops init).2) ≡ₚ
      (px, x) :: (py, y) :: queue_object self2 ∧
    (px ≤ py)%Z.
Proof.
  intros Hget1 Hget2 Hlater.
  pose proof (run_ordered ops init init_ordered) as Hord.
  pose proof (get_ordered _ _ _ _ Hord Hget1) as Hord1.
  apply get_least in Hget1 as (px & Hperm1 & _ & Hleast); [|done].
  apply get_least in Hget2 as (py & Hperm2 & _ & _); [|done].
  assert (queue_object (promote now2 self1) = queue_object self1) as Hsame.
  { unfold promote. cbn [queue_object].
    rewrite (filter_none (due now2)); [done|].
    eapply Forall_impl; [done|]. intros s Hs. unfold due. simpl in *. lia. }
  rewrite Hsame in Hperm2. exists px, py. split.
  - by rewrite Hperm1, Hperm2.
  - assert ((py, y) ∈ queue_object (promote now1 (run ops init).2)) as Hin.
    { rewrite Hperm1, Hperm2. right. by left. }
    apply (proj1 (Forall_forall _ _) Hleast (py, y) Hin).
Qed.
End facts.

(** C5 at work: the scenario leaves an empty queue after three [put]s
    and three successful [get]s out of four. *)
Example size_scenario :
  size (run unranked unranked scenario_priority_schedule init).2 = 0 ∧
  puts scenario_priority_schedule = 3 ∧
  successful_gets (run unranked unranked scenario_priority_schedule init).1 = 3.
Proof. by vm_compute. Qed.

(** The scenario of the specification: [B], then [A], then [Empty]
    before the scheduled time, then [C]. *)
Example run_scenario_priority_schedule :
  (run unranked unranked scenario_priority_schedule init).1 =
  [(50%Z, Return 11); (51%Z, Return 10); (52%Z, Raise Empty);
   (100%Z, Return 12)].
Proof. by vm_compute. Qed.

(** Four tasks of one priority come back as first, third, second,
    fourth. *)
Example run_four_equal_priorities :
  (run unranked unranked
     [Put 0 1%Z None; Put 1 1%Z None; Put 2 1%Z None; Put 3 1%Z None;
      Get 0%Z; Get 0%Z; Get 0%Z; Get 0%Z] init).1 =
  [(0%Z, Return 0); (0%Z, Return 2); (0%Z, Return 1); (0%Z, Return 3)].
Proof. by vm_compute. Qed.

(** Task [C] of the scenario, scheduled for 100: it comes back at 100
    and not at the readings before. *)
Lemma scheduled_task_not_returned_early_witness :
  ∃ j now' r,
    j ≤ 3 ∧
    (run unranked unranked scenario_priority_schedule init).1 !! j =
      Some (now', r) ∧
    (100 ≤ now')%Z.
Proof.
  refine (proj1 (scheduled_task_not_returned_early unranked unranked
                   scenario_priority_schedule 12 100%Z _) 3 100%Z _).
  - intros p s Hin. unfold scenario_priority_schedule in Hin.
    repeat (apply elem_of_cons in Hin as [Hin|Hin]; [simplify_eq; eauto|]);
      try by apply elem_of_nil in Hin.
    exists 100%Z. split; [done|lia].
  - reflexivity.
Defined.

(** C3 as stated fails when the clock goes back between two [get]s:
    put [A] (task 10) at priority 0 and [C] (task 12) scheduled for 100;
    the [get] at 100 promotes [C] and returns [A]; then a [get] that
    reads 50 returns [C], at a reading before 100. *)
Lemma scheduled_task_returned_early_counterexample :
  ¬ ∀ (ops : list (@op nat)) (x : nat) (t : Z),
      (∀ p s, Put x p s ∈ ops → ∃ t', s = Some t' ∧ (t ≤ t')%Z) →
      ∀ now, (now, Return x) ∈ (run unranked unranked ops init).1 →
             (t ≤ now)%Z.
Proof.
  intros Hclaim.
  specialize (Hclaim [Put 10 0%Z None; Put 12 5%Z (Some 100%Z);
                      Get 100%Z; Get 50%Z] 12 100%Z).
  assert (100 ≤ 50)%Z as Hle; [|lia].
  apply Hclaim.
  - intros p s Hin.
    repeat (apply elem_of_cons in Hin as [Hin|Hin]; [simplify_eq; eauto|]);
      try by apply elem_of_nil in Hin.
    exists 100%Z. split; [done|lia].
  - vm_compute. right. left.
Qed.

(** The run of that counterexample. *)
Example run_with_clock_set_back :
  (run unranked unranked
     [Put 10 0%Z None; Put 12 5%Z (Some 100%Z); Get 100%Z; Get 50%Z] init).1 =
  [(100%Z, Return 10); (50%Z, Return 12)].
Proof. by vm_compute. Qed.

Lemma get_least_priority_and_fifo_of_two_witness :
  (run unranked unranked
     [Put 7 3%Z None; Put 8 3%Z None; Get 0%Z; Get 1%Z] init).1 =
  [(0%Z, Return 7); (1%Z, Return 8)].
Proof.
  apply (proj2 (get_least_priority_and_fifo_of_two unranked unranked)).
  reflexivity.
Defined.

(** Evaluates a run in [H], looking up the comparisons of tasks in the
    equations at hand whenever the evaluation waits for one. *)
Ltac evaluate_in H :=
  repeat (cbv in H;
          match goal with
          | E : ?f _ _ = true |- _ => is_var f; rewrite E in H
          | E : ?f _ _ = false |- _ => is_var f; rewrite E in H
          end);
  cbv in H.

(** C2 as stated fails: the heap holds [(priority, task)] and nothing
    that remembers the order of insertion.  Whatever ordering [Task] has,
    one of these three sequences, each in put order within the priority
    and the last with the priority 0 task first, is not what [get]
    returns. *)
Lemma fifo_within_priority_counterexample :
  ¬ ∃ task_eq task_lt : nat → nat → bool,
      (run task_eq task_lt
         [Put 1 1%Z None; Put 0 1%Z None; Get 0%Z; Get 0%Z] init).1 =
      [(0%Z, Return 1); (0%Z, Return 0)] ∧
      (run task_eq task_lt
         [Put 0 1%Z None; Put 1 1%Z None; Get 0%Z; Get 0%Z] init).1 =
      [(0%Z, Return 0); (0%Z, Return 1)] ∧
      (run task_eq task_lt
         [Put 0 1%Z None; Put 1 1%Z None; Put 2 0%Z None;
          Get 0%Z; Get 0%Z; Get 0%Z] init).1 =
      [(0%Z, Return 2); (0%Z, Return 0); (0%Z, Return 1)].
Proof.
  intros (task_eq & task_lt & H1 & H2 & H3).
  destruct (task_eq 0 1) eqn:E1, (task_lt 0 1) eqn:E2,
           (task_eq 1 0) eqn:E3, (task_lt 1 0) eqn:E4;
    evaluate_in H1; evaluate_in H2; evaluate_in H3; congruence.
Qed.

(** A [get] before the scheduled time of the only task. *)
Lemma get_raises_only_Empty_witness :
  let self := (run unranked unranked [Put 12 1%Z (Some 100%Z)] init).2 in
  (get unranked unranked self 50%Z).2 = self ∧
  queue_object self = [] ∧ Forall (λ s, (50 < s.1)%Z) (schedule_list self).
Proof.
  refine (proj2 (get_raises_only_Empty unranked unranked
                   (run unranked unranked [Put 12 1%Z (Some 100%Z)] init).2
                   50%Z Empty _)).
  reflexivity.
Defined.

Lemma clear_empties_witness :
  clear unranked unranked 3
    (run unranked unranked
       [Put 10 2%Z None; Put 11 1%Z None; Put 12 1%Z (Some 100%Z)] init).2 =
  (Return (), init).
Proof.
  refine (proj1 (clear_empties unranked unranked
                   (run unranked unranked
                      [Put 10 2%Z None; Put 11 1%Z None; Put 12 1%Z (Some 100%Z)]
                      init).2 3 _)).
  simpl. lia.
Defined.

Lemma successive_gets_by_priority_witness :
  ∃ px py, (px ≤ py)%Z ∧
    [(1%Z, 11); (2%Z, 10)] ≡ₚ [(px, 11); (py, 10)].
Proof.
  destruct (successive_gets_by_priority unranked unranked
              [Put 10 2%Z None; Put 11 1%Z None] 0%Z 0%Z 11 10
              (mkQueue [(2%Z, 10)] []) (mkQueue [] []))
    as (px & py & Hperm & Hle); [reflexivity|reflexivity|constructor|].
  exists px, py. split; [exact Hle|exact Hperm].
Defined.
End memory_facts.

(** ** [merge_with_dict] *)

Module http_facts.
Import http.
Section facts.
Context {V : Type}.
Implicit Types (d : dict V) (l : list (string * V)).

Lemma elem_of_dict_setitem_keys key val d k :
  k ∈ (dict_setitem key val d).*1 ↔ k = key ∨ k ∈ d.*1.
Proof.
  induction d as [|[k' v'] d IH]; simpl.
  - rewrite list_elem_of_singleton. split; [auto|]. by intros [?|?%elem_of_nil].
  - case_decide as E; simpl; rewrite !elem_of_cons, ?IH; subst; tauto.
Qed.

Lemma merge_mapping_keeps_keys d (hdr2 : dict V) replace k :
  k ∈ d.*1 → k ∈ (merge_mapping d hdr2 replace).*1.
Proof.
  unfold merge_mapping. revert d.
  induction hdr2 as [|[key val] hdr2 IH]; intros d Hk; simpl; [done|].
  apply IH. destruct (replace || negb (dict_contains key d)); [|done].
  apply elem_of_dict_setitem_keys. by right.
Qed.

Lemma merge_mapping_has_keys d (hdr2 : dict V) replace k :
  k ∈ hdr2.*1 → k ∈ (merge_mapping d hdr2 replace).*1.
Proof.
  unfold merge_mapping. revert d.
  induction hdr2 as [|[key val] hdr2 IH]; intros d; simpl.
  { by intros ?%elem_of_nil. }
  intros [->|Hk]%elem_of_cons; [|by apply IH].
  apply merge_mapping_keeps_keys.
  destruct (replace || negb (dict_contains key d)) eqn:E.
  - apply elem_of_dict_setitem_keys. by left.
  - apply orb_false_iff in E as [_ E]. apply negb_false_iff in E.
    by apply bool_decide_eq_true in E.
Qed.

(** C9.  Called with a sequence of pairs, [merge_with_dict] leaves
    [hdr1] as it was and returns [None], whatever list it merged on the
    way; called with a mapping it returns [None] as well, and only then
    has it an effect: every key of [hdr2] is a key of [hdr1] afterwards. *)
Theorem merge_with_dict_sequence_unchanged l (hdr2 : dict V) replace :
  merge_with_dict (Sequence l) hdr2 replace = (Sequence l, None) ∧
  ∀ d, ∃ d',
    merge_with_dict (Mapping d) hdr2 replace = (Mapping d', None) ∧
    ∀ key, key ∈ hdr2.*1 → key ∈ d'.*1.
Proof.
  split; [done|]. intros d. eexists. split; [done|].
  intros key. apply merge_mapping_has_keys.
Qed.

(** *** The mapping branch, key by key *)

Lemma dict_setitem_fst key val d :
  (dict_setitem key val d).*1 =
  if decide (key ∈ d.*1) then d.*1 else d.*1 ++ [key].
Proof.
  induction d as [|[k' v'] d IH].
  { cbn. case_decide as E; [by apply elem_of_nil in E|done]. }
  cbn [dict_setitem]. destruct (decide (k' = key)) as [->|E].
  - rewrite !fmap_cons. cbn [fst]. rewrite decide_True; [done|by left].
  - rewrite !fmap_cons, IH. cbn [fst].
    destruct (decide (key ∈ d.*1)) as [Hin|Hin],
             (decide (key ∈ k' :: d.*1)) as [Hin'|Hin']; try done.
    + destruct Hin'. by right.
    + by apply elem_of_cons in Hin' as [?|?].
Qed.

Lemma dict_get_setitem key val d k :
  dict_get k (dict_setitem key val d) =
  if decide (key = k) then Some val else dict_get k d.
Proof.
  induction d as [|[k' v'] d IH]; simpl.
  { by case_decide. }
  destruct (decide (k' = key)) as [->|E]; simpl.
  - by case_decide.
  - rewrite IH. repeat case_decide; congruence.
Qed.

Lemma dict_get_None key d : dict_get key d = None ↔ key ∉ d.*1.
Proof.
  induction d as [|[k v] d IH]; simpl.
  { split; [intros _; apply not_elem_of_nil|done]. }
  rewrite not_elem_of_cons. case_decide as E.
  - split; [done|]. intros [Hne _]. by destruct Hne.
  - rewrite IH. split; [intros ?; by split; [congruence|]|by intros [_ ?]].
Qed.

Lemma dict_get_Some key val d :
  NoDup d.*1 → dict_get key d = Some val ↔ (key, val) ∈ d.
Proof.
  induction d as [|[k v] d IH]; simpl; intros Hnodup.
  { split; [done|by intros ?%elem_of_nil]. }
  apply NoDup_cons in Hnodup as [Hk Hnodup]. rewrite elem_of_cons.
  case_decide as E.
  - subst k. split; [intros [= ->]; by left|].
    intros [[= ->]|Hin]; [done|]. destruct Hk.
    by apply (list_elem_of_fmap_2 fst) in Hin.
  - rewrite IH by done. split; [by right|]. by intros [[= ? ?]|?].
Qed.

Lemma dict_setitem_same key val d :
  dict_get key d = Some val → dict_setitem key val d = d.
Proof.
  induction d as [|[k v] d IH]; simpl; [done|].
  case_decide; [by intros [= ->]|]. intros Hd. by rewrite IH.
Qed.

Lemma filter_agree {X : Type} (P Q : X → Prop) `{∀ x, Decision (P x)}
    `{∀ x, Decision (Q x)} (l : list X) :
  (∀ x, x ∈ l → P x ↔ Q x) → filter P l = filter Q l.
Proof.
  induction l as [|x l IH]; intros Hagree; [done|].
  rewrite !filter_cons, IH by (intros y Hy; apply Hagree; by right).
  destruct (decide (P x)) as [HP|HP], (decide (Q x)) as [HQ|HQ]; try done.
  - destruct HQ. apply Hagree; [by left|done].
  - destruct HP. apply Hagree; [by left|done].
Qed.

Lemma merge_mapping_fst (hdr2 : dict V) replace : ∀ d,
  NoDup hdr2.*1 →
  (merge_mapping d hdr2 replace).*1 = d.*1 ++ filter (λ k, k ∉ d.*1) hdr2.*1.
Proof.
  unfold merge_mapping.
  induction hdr2 as [|[key val] hdr2 IH]; intros d Hnodup; simpl.
  { by rewrite app_nil_r. }
  apply NoDup_cons in Hnodup as [Hkey Hnodup]. rewrite IH by done.
  unfold dict_contains. rewrite filter_cons.
  destruct (decide (key ∈ d.*1)) as [Hin|Hin].
  - rewrite decide_False by (intros Hn; by apply Hn).
    rewrite bool_decide_eq_true_2 by done. simpl. rewrite orb_false_r.
    destruct replace; [|done].
    rewrite dict_setitem_fst, decide_True by done. done.
  - rewrite decide_True by done.
    rewrite bool_decide_eq_false_2 by done. simpl. rewrite orb_true_r.
    rewrite dict_setitem_fst, decide_False by done.
    rewrite <-app_assoc. simpl. do 2 f_equal.
    apply filter_agree. intros x Hx. rewrite not_elem_of_app.
    split; [by intros [? _]|]. intros Hxd. split; [done|].
    intros ->%list_elem_of_singleton. done.
Qed.

Lemma merge_mapping_get (hdr2 : dict V) replace k : ∀ d,
  NoDup hdr2.*1 →
  dict_get k (merge_mapping d hdr2 replace) =
  if replace
  then from_option Some (dict_get k d) (dict_get k hdr2)
  else from_option Some (dict_get k hdr2) (dict_get k d).
Proof.
  unfold merge_mapping.
  induction hdr2 as [|[key val] hdr2 IH]; intros d Hnodup; simpl.
  { destruct replace; [done|]. by destruct (dict_get k d). }
  apply NoDup_cons in Hnodup as [Hkey Hnodup]. rewrite IH by done.
  unfold dict_contains. destruct replace; simpl.
  - rewrite dict_get_setitem. case_decide as E; [|done].
    subst k. by rewrite (proj2 (dict_get_None key hdr2)).
  - case_bool_decide as Hin; simpl.
    + case_decide as E; [|done]. subst k.
      destruct (dict_get key d) eqn:Hd; [done|].
      by apply dict_get_None in Hd.
    + rewrite dict_get_setitem. case_decide as E.
      * subst k. by rewrite (proj2 (dict_get_None key d)).
      * done.
Qed.

(** X5.  On a mapping, [merge_with_dict] keeps every key of [hdr1] in
    its place and appends the keys of [hdr2] that [hdr1] lacks, in the
    order of [hdr2].  A key of both holds the value of [hdr2] if
    [replace] is set and keeps the value of [hdr1] otherwise; a key of
    one holds its value. *)
Theorem merge_with_dict_mapping d (hdr2 : dict V) replace :
  NoDup hdr2.*1 →
  ∃ d',
    merge_with_dict (Mapping d) hdr2 replace = (Mapping d', None) ∧
    d'.*1 = d.*1 ++ filter (λ k, k ∉ d.*1) hdr2.*1 ∧
    ∀ k, dict_get k d' =
         if replace
         then from_option Some (dict_get k d) (dict_get k hdr2)
         else from_option Some (dict_get k hdr2) (dict_get k d).
Proof.
  intros Hnodup. exists (merge_mapping d hdr2 replace). split_and!; [done|..].
  - by apply merge_mapping_fst.
  - intros k. by apply merge_mapping_get.
Qed.

(** X6.  Merging the same mapping a second time changes nothing. *)
Theorem merge_with_dict_twice d (hdr2 : dict V) replace :
  NoDup hdr2.*1 →
  merge_mapping (merge_mapping d hdr2 replace) hdr2 replace =
  merge_mapping d hdr2 replace.
Proof.
  intros Hnodup. set (d' := merge_mapping d hdr2 replace).
  assert (∀ key val, (key, val) ∈ hdr2 →
            (if replace || negb (dict_contains key d')
             then dict_setitem key val d' else d') = d') as Hstep.
  { intros key val Hin. unfold dict_contains.
    rewrite bool_decide_eq_true_2
      by (apply merge_mapping_has_keys; by apply (list_elem_of_fmap_2 fst) in Hin).
    simpl. rewrite orb_false_r. destruct replace; [|done].
    apply dict_setitem_same. unfold d'. rewrite merge_mapping_get by done.
    by rewrite (proj2 (dict_get_Some key val hdr2 Hnodup)). }
  unfold merge_mapping at 1. clearbody d'. clear Hnodup.
  induction hdr2 as [|[key val] hdr2 IH]; simpl; [done|].
  rewrite Hstep by (by left). apply IH. intros k v Hin. apply Hstep. by right.
Qed.
End facts.

(** The list merged from a sequence is not the sequence, and is lost. *)
Example merge_sequence_lost :
  merge_sequence [("Accept", 1)] [("Host", 2)] false =
    [("Accept", 1); ("Host", 2)] ∧
  merge_with_dict (Sequence [("Accept", 1)]) [("Host", 2)] false =
    (Sequence [("Accept", 1)], None) ∧
  merge_with_dict (Mapping [("Accept", 1)]) [("Host", 2)] false =
    (Mapping [("Accept", 1); ("Host", 2)], None).
Proof. by vm_compute. Qed.

Lemma merge_with_dict_mapping_witness :
  ∃ d', merge_with_dict (Mapping [("Accept", 1); ("Host", 2)])
          [("Host", 3); ("Cookie", 4)] true = (Mapping d', None) ∧
        d'.*1 = ["Accept"; "Host"; "Cookie"] ∧
        dict_get "Host" d' = Some 3.
Proof.
  destruct (merge_with_dict_mapping [("Accept", 1); ("Host", 2)]
              [("Host", 3); ("Cookie", 4)] true) as (d' & Hmerge & Hkeys & Hget).
  { apply (bool_decide_unpack _). vm_compute. exact I. }
  exists d'. split_and!; [exact Hmerge|exact Hkeys|exact (Hget "Host")].
Defined.

Lemma merge_with_dict_twice_witness :
  merge_mapping (merge_mapping [("Accept", 1); ("Host", 2)]
                   [("Host", 3); ("Cookie", 4)] false)
    [("Host", 3); ("Cookie", 4)] false =
  merge_mapping [("Accept", 1); ("Host", 2)] [("Host", 3); ("Cookie", 4)] false.
Proof.
  apply (merge_with_dict_twice [("Accept", 1); ("Host", 2)]
           [("Host", 3); ("Cookie", 4)] false).
  apply (bool_decide_unpack _). vm_compute. exact I.
Defined.
End http_facts.

(** ** The task dispatcher *)

Module task_dispatcher_facts.
Import task_dispatcher.
Section facts.
Context {Task Handler ExcInfo GrabConfig : Type}.
Context (task_clone : Task → Task).
Context (task_get_raw : Task → bool).
Context (find_task_handler : Task → Handler).
Context (handler__name__ : Handler → option string).
Context (is_valid_network_response_code : Z → Task → bool).
Context (network_try_limit : Z).
Context (task_setup_grab_config : Task → @value ExcInfo GrabConfig → Task).
#[local] Abbreviation process_service_result :=
  (process_service_result task_clone task_get_raw find_task_handler
     handler__name__ is_valid_network_response_code network_try_limit
     task_setup_grab_config).
#[local] Abbreviation process_network_result :=
  (process_network_result task_get_raw is_valid_network_response_code
     network_try_limit task_setup_grab_config).
Implicit Types (e : exception) (task : option Task)
  (meta : option (gmap string (@value ExcInfo GrabConfig))).

(** The name under which a parser error is reported. *)
Definition reported_handler task : string :=
  match task with
  | Some t => default "NONE" (handler__name__ (find_task_handler t))
  | None => "NA"
  end.


(** C10.  For an exception that is not a [ResponseNotValid] the
    dispatcher reads [meta["exc_info"]] whatever [meta["from"]] says;
    when [meta] has no ["exc_info"] (or is [None]) the call raises
    [KeyError], before anything is told to the spider, and it is not a
    [SpiderError]. *)
Theorem exception_without_exc_info_raises_KeyError e task meta :
  is_ResponseNotValid e = false →
  default ∅ meta !! "exc_info" = None →
  process_service_result (RException e) task meta =
    ([], Raise (KeyError "exc_info")) ∧
  ∀ (m : gmap string (@value ExcInfo GrabConfig)) v,
    process_service_result (RException e) task (Some (<["from" := v]> m)) =
    process_service_result (RException e) task (Some m).
Proof.
  intros He Hmeta. simpl. rewrite He, Hmeta. split; [done|].
  intros m v. simpl. by rewrite lookup_insert_ne.
Qed.

(** *** Network results and the worker *)

#[local] Abbreviation settle :=
  (settle network_try_limit task_setup_grab_config).

Lemma process_network_result_settle
    (d : gmap string (@value ExcInfo GrabConfig)) (t : Task) :
  process_network_result d (Some t) =
  if task_get_raw t then settle d t true
  else
    match d !! "ok" with
    | None => ([log_network_result_stats d (Some t)], Raise (KeyError "ok"))
    | Some ok =>
      if truthy ok then
        match d !! "grab" with
        | None => ([log_network_result_stats d (Some t)], Raise (KeyError "grab"))
        | Some (VGrab res_code) =>
          settle d t (is_valid_network_response_code res_code t)
        | Some _ => ([log_network_result_stats d (Some t)], Raise AttributeError)
        end
      else settle d t false
    end.
Proof. reflexivity. Qed.

Lemma settle_returns (d : gmap string (@value ExcInfo GrabConfig)) t is_valid calls :
  settle d t is_valid = (calls, Return ()) →
  ∃ middle,
    calls = log_network_result_stats d (Some t) :: middle ++
            [stat_inc "spider:request"] ∧
    (is_valid = true ∧ middle = [parser_service_input_queue_put d (Some t)]
     ∨ is_valid = false ∧
       ((0 < network_try_limit)%Z ∧
        (∃ backup, d !! "grab_config_backup" = Some backup ∧
           middle = [log_failed_network_result d;
                     add_task (task_setup_grab_config t backup)])
        ∨ (network_try_limit ≤ 0)%Z ∧ middle = [log_failed_network_result d])).
Proof using Type.
  unfold task_dispatcher.settle. destruct is_valid.
  - intros [= <-]. exists [parser_service_input_queue_put d (Some t)].
    split; [reflexivity|]. by left.
  - case_bool_decide as Hlimit.
    + destruct (d !! "grab_config_backup") as [backup|] eqn:Hbackup; [|done].
      intros [= <-].
      exists [log_failed_network_result d; add_task (task_setup_grab_config t backup)].
      split; [reflexivity|]. right. split; [done|]. left. split; [done|].
      by exists backup.
    + intros [= <-]. exists [log_failed_network_result d].
      split; [reflexivity|]. right. split; [done|]. right.
      split; [by apply Z.nlt_ge|done].
Qed.

Lemma settle_raises (d : gmap string (@value ExcInfo GrabConfig)) t is_valid
    calls (err : exn) :
  settle d t is_valid = (calls, Raise err) →
  calls = [log_network_result_stats d (Some t); log_failed_network_result d] ∧
  err = KeyError "grab_config_backup" ∧ d !! "grab_config_backup" = None.
Proof using Type.
  unfold task_dispatcher.settle. destruct is_valid; [done|].
  case_bool_decide; [|done].
  destruct (d !! "grab_config_backup") eqn:Hbackup; [done|].
  by intros [= <- <-].
Qed.

#[local] Abbreviation worker_callback :=
  (worker_callback task_clone task_get_raw find_task_handler
     handler__name__ is_valid_network_response_code network_try_limit
     task_setup_grab_config).

(** X7.  When [process_network_result] returns, it has logged the
    result first and counted one request last, and in between it has
    done one of three things: handed the result to the parser (the task
    is raw, or the response is ok and its code valid); or logged the
    failure and put the task back with its grab config restored from the
    backup (the try limit is positive); or logged the failure only (the
    try limit is not positive).  It never does both, hand over and put
    back. *)
Theorem process_network_result_returns
    (d : gmap string (@value ExcInfo GrabConfig)) task calls :
  process_network_result d task = (calls, Return ()) →
  ∃ t middle,
    task = Some t ∧
    calls = log_network_result_stats d task :: middle ++ [stat_inc "spider:request"] ∧
    (middle = [parser_service_input_queue_put d task] ∧
       (task_get_raw t = true ∨
        ∃ ok code, d !! "ok" = Some ok ∧ truthy ok = true ∧
                   d !! "grab" = Some (VGrab code) ∧
                   is_valid_network_response_code code t = true)
     ∨ task_get_raw t = false ∧
       ((0 < network_try_limit)%Z ∧
        (∃ backup, d !! "grab_config_backup" = Some backup ∧
           middle = [log_failed_network_result d;
                     add_task (task_setup_grab_config t backup)])
        ∨ (network_try_limit ≤ 0)%Z ∧ middle = [log_failed_network_result d])).
Proof using Type.
  destruct task as [t|]; [|done]. rewrite process_network_result_settle.
  intros Hcalls. exists t.
  destruct (task_get_raw t) eqn:Hraw.
  { apply settle_returns in Hcalls as (middle & -> & [[_ ->]|[? _]]); [|done].
    exists [parser_service_input_queue_put d (Some t)].
    split_and!; [done..|]. left. split; [done|]. by left. }
  destruct (d !! "ok") as [ok|] eqn:Hok; [|done].
  destruct (truthy ok) eqn:Htruthy.
  - destruct (d !! "grab") as [[| | |code| |]|] eqn:Hgrab; try done.
    apply settle_returns in Hcalls as (middle & -> & [[Hvalid ->]|[_ Hretry]]).
    + exists [parser_service_input_queue_put d (Some t)].
      split_and!; [done..|]. left. split; [done|]. right. by exists ok, code.
    + exists middle. split_and!; [done..|]. by right.
  - apply settle_returns in Hcalls as (middle & -> & [[? _]|[_ Hretry]]); [done|].
    exists middle. split_and!; [done..|]. by right.
Qed.

(** X8.  When [process_network_result] raises, the result has reached
    neither the parser nor the task queue and the request is not
    counted: all it has done is log.  It raises [AttributeError] (no
    task, or a ["grab"] entry without a document) or [KeyError] for a
    key the result lacks. *)
Theorem process_network_result_raises
    (d : gmap string (@value ExcInfo GrabConfig)) task calls (err : exn) :
  process_network_result d task = (calls, Raise err) →
  (calls = [log_network_result_stats d task] ∨
   calls = [log_network_result_stats d task; log_failed_network_result d]) ∧
  (err = AttributeError ∨ ∃ key, err = KeyError key ∧ d !! key = None).
Proof using Type.
  destruct task as [t|]; [|intros [= <- <-]; by auto].
  rewrite process_network_result_settle.
  destruct (task_get_raw t).
  { intros (-> & -> & Hnone)%settle_raises. split; [by right|]. right. eauto. }
  destruct (d !! "ok") as [ok|] eqn:Hok;
    [|intros [= <- <-]; split; [by left|]; right; eauto].
  destruct (truthy ok).
  - destruct (d !! "grab") as [[| | |code| |]|] eqn:Hgrab;
      try (intros [= <- <-]; split; [by left|]; by left).
    + intros (-> & -> & Hnone)%settle_raises. split; [by right|]. right. eauto.
    + intros [= <- <-]. split; [by left|]. right. eauto.
  - intros (-> & -> & Hnone)%settle_raises. split; [by right|]. right. eauto.
Qed.

Lemma worker_callback_app gets1 gets2 calls :
  worker_callback gets1 = (calls, Return ()) →
  worker_callback (gets1 ++ gets2) =
    ((calls ++ (worker_callback gets2).1), (worker_callback gets2).2).
Proof.
  revert calls. induction gets1 as [|[[[result task] meta]|] gets1 IH];
    intros calls; simpl.
  - intros [= <-]. by destruct (worker_callback gets2).
  - destruct (process_service_result result task meta) as [calls1 [[]|e]]; [|done].
    destruct (worker_callback gets1) as [calls' r] eqn:Hrest.
    intros [= <- ->]. rewrite (IH calls') by done.
    simpl. by rewrite app_assoc.
  - apply IH.
Qed.

(** X9.  The worker takes the items in the order of the queue, and an
    exception ends it: when an item makes [process_service_result]
    raise, what was told to the spider is what the items before it and
    that item caused, and no item behind it is looked at. *)
Theorem worker_callback_stops_at_exception gets result task meta behind
    calls_before calls (err : exn) :
  worker_callback gets = (calls_before, Return ()) →
  process_service_result result task meta = (calls, Raise err) →
  worker_callback (gets ++ Some (result, task, meta) :: behind) =
    (calls_before ++ calls, Raise err).
Proof.
  intros Hbefore Hraise. rewrite (worker_callback_app _ _ calls_before) by done.
  simpl. by rewrite Hraise.
Qed.
End facts.


(** C4.  The claim's last case against the code: a service that
    submits the tuple [("a", "b")] comes to the last branch of
    [process_service_result], where [raise SpiderError("...: %s" %
    result)] does not get to raise [SpiderError]: the format has one
    place and the tuple two items, so the [%] raises [TypeError] (not
    all arguments converted during string formatting), and nothing has
    been told to the spider. *)
Theorem tuple_result_raises_TypeError :
  process_service_result (λ t : nat, t) (λ _, false) (λ t : nat, t)
    (λ _, Some "task_page") (λ _ _, true) 3%Z (λ t _, t)
    (RTuple [@VStr string unit "a"; VStr "b"]) None None =
  ([], Raise TypeError).
Proof. reflexivity. Qed.

(** The sample parser failure is reported and, being fatal, forwarded. *)
Example fatal_error_reported :
  process_service_result (λ t : nat, t) (λ _, false) (λ t : nat, t)
    (λ _, Some "task_page") (λ _ _, true) 3%Z (λ t _, t)
    (RException sample_fatal) (Some 7)
    (Some {[ "from" := @VStr string unit "parser";
             "exc_info" := VExcInfo "trace" ]}) =
  ([process_parser_error "task_page" (Some 7) (VExcInfo "trace");
    fatal_error_queue_put (VExcInfo "trace")], Return ()).
Proof. by vm_compute. Qed.

Lemma exception_without_exc_info_raises_KeyError_witness :
  process_service_result (λ t : nat, t) (λ _, false) (λ t : nat, t)
    (λ _, Some "task_page") (λ _ _, true) 3%Z (λ t _, t)
    (RException sample_fatal) (Some 7)
    (Some {[ "source" := @VStr string unit "task_generator" ]}) =
  ([], Raise (KeyError "exc_info")).
Proof.
  apply (exception_without_exc_info_raises_KeyError (λ t : nat, t) (λ _, false)
           (λ t : nat, t) (λ _, Some "task_page") (λ _ _, true) 3%Z (λ t _, t)
           sample_fatal (Some 7)
           (Some {[ "source" := VStr "task_generator" ]})).
  - reflexivity.
  - reflexivity.
Defined.

(** An integrity failure named [Data_Not_Valid] counts
    ["integrity:Data-Not-Valid"]. *)
Example integrity_failure_retried :
  process_service_result (λ t : nat, S t) (λ _, false) (λ t : nat, t)
    (λ _, Some "task_page") (λ _ _, true) 3%Z (λ t _, t)
    (RException sample_integrity) (Some 7) (@None (gmap string (@value string unit))) =
  ([add_task 8; stat_inc "integrity:Data-Not-Valid"], Return ()).
Proof. reflexivity. Qed.

(** A failed response ([ok] false) for task 7, try limit 3: the task
    goes back on the queue. *)
Lemma process_network_result_returns_witness :
  let d : gmap string (@value string unit) :=
    {[ "grab" := VGrab 500; "ok" := VBool false;
       "grab_config_backup" := VConfig () ]} in
  ∃ middle,
    process_network_result (λ _ : nat, false) (λ _ _, true) 3%Z (λ t _, t)
      d (Some 7) =
    (log_network_result_stats d (Some 7) :: middle ++ [stat_inc "spider:request"],
     Return ()).
Proof.
  intros d.
  destruct (process_network_result_returns (λ _ : nat, false) (λ _ _, true) 3%Z
              (λ t _, t) d (Some 7)
              [log_network_result_stats d (Some 7); log_failed_network_result d;
               add_task 7; stat_inc "spider:request"])
    as (t & middle & _ & Hcalls & _); [reflexivity|].
  exists middle. rewrite <-Hcalls. reflexivity.
Defined.

(** The same response without the backup of the grab config. *)
Lemma process_network_result_raises_witness :
  let d : gmap string (@value string unit) :=
    {[ "grab" := VGrab 500; "ok" := VBool false ]} in
  ∃ key, KeyError "grab_config_backup" = KeyError key ∧ d !! key = None.
Proof.
  intros d.
  destruct (process_network_result_raises (λ _ : nat, false) (λ _ _, true)
              3%Z (λ t _, t) d (Some 7)
              [log_network_result_stats d (Some 7); log_failed_network_result d]
              (KeyError "grab_config_backup"))
    as [_ [Herr|Hkey]]; [reflexivity|discriminate Herr|exact Hkey].
Defined.

(** A task, then a parser failure without [exc_info], then a task. *)
Lemma worker_callback_stops_at_exception_witness :
  worker_callback (λ t : nat, t) (λ _, false) (λ t : nat, t)
    (λ _, Some "task_page") (λ _ _, true) 3%Z (λ t _, t)
    [Some (RTask 1, None, None); None;
     Some (RException sample_fatal, Some 7,
           Some {[ "from" := @VStr string unit "parser" ]});
     Some (RTask 2, None, None)] =
  ([add_task 1], Raise (KeyError "exc_info")).
Proof.
  refine (worker_callback_stops_at_exception (λ t : nat, t) (λ _, false)
            (λ t : nat, t) (λ _, Some "task_page") (λ _ _, true) 3%Z (λ t _, t)
            [Some (RTask 1, None, None); None]
            (RException sample_fatal) (Some 7)
            (Some {[ "from" := @VStr string unit "parser" ]})
            [Some (RTask 2, None, None)] [add_task 1] [] _ _ _).
  - reflexivity.
  - reflexivity.
Defined.
End task_dispatcher_facts.

(** ** The task generator *)

Module task_generator_facts.
Import task_dispatcher task_generator.
Section facts.
Context {Task ExcInfo GrabConfig : Type}.
Context {Generator : Type} (next : Generator → option (Task * Generator)).
#[local] Abbreviation item := (@item Task ExcInfo GrabConfig).
#[local] Abbreviation generated := (@generated Task ExcInfo GrabConfig).
#[local] Abbreviation fill := (@fill Task ExcInfo GrabConfig Generator next).
#[local] Abbreviation worker_callback :=
  (@worker_callback Task ExcInfo GrabConfig Generator next).
#[local] Abbreviation draw := (draw next).
Implicit Types (g : Generator) (tasks : list Task) (puts : list item)
  (rounds : list round).

Lemma draw_cons task tasks g g1 g' :
  next g = Some (task, g1) →
  draw (length tasks) g1 = (tasks, g') →
  draw (length (task :: tasks)) g = (task :: tasks, g').
Proof. intros Hnext Hdraw. simpl. by rewrite Hnext, Hdraw. Qed.

Lemma draw_app tasks1 : ∀ g g1 tasks2 g2,
  draw (length tasks1) g = (tasks1, g1) →
  draw (length tasks2) g1 = (tasks2, g2) →
  draw (length (tasks1 ++ tasks2)) g = (tasks1 ++ tasks2, g2).
Proof.
  induction tasks1 as [|task tasks1 IH]; intros g g1 tasks2 g2 Hd1 Hd2.
  { simpl in Hd1. by injection Hd1 as <-. }
  simpl in Hd1. destruct (next g) as [[task' g']|] eqn:Hnext; [|done].
  destruct (draw (length tasks1) g') as [tasks' g''] eqn:Hd.
  injection Hd1 as -> -> ->.
  apply (draw_cons _ _ _ g'); [done|]. by apply (IH g' g1).
Qed.

(** Drawing past the end of the generator gives no more. *)
Lemma draw_past n : ∀ g tasks g' k,
  draw n g = (tasks, g') → next g' = None → n ≤ k → draw k g = (tasks, g').
Proof.
  induction n as [|n IH]; intros g tasks g' k Hd Hend Hle.
  { simpl in Hd. injection Hd as <- <-. destruct k; simpl; [done|].
    by rewrite Hend. }
  destruct k as [|k]; [lia|]. simpl in *.
  destruct (next g) as [[task g1]|] eqn:Hnext; [|done].
  destruct (draw n g1) as [tasks' g''] eqn:Hd'. injection Hd as <- <-.
  by rewrite (IH g1 tasks' g'' k) by (done || lia).
Qed.

Lemma draw_split n : ∀ g tasks g',
  draw (length tasks) g = (tasks, g') → n ≤ length tasks →
  ∃ g1, draw n g = (take n tasks, g1) ∧
        draw (length (drop n tasks)) g1 = (drop n tasks, g').
Proof.
  induction n as [|n IH]; intros g tasks g' Hd Hle.
  { exists g. by rewrite take_0, drop_0. }
  destruct tasks as [|task tasks]; [simpl in Hle; lia|]. simpl in *.
  destruct (next g) as [[task' g1]|] eqn:Hnext; [|done].
  destruct (draw (length tasks) g1) as [tasks' g''] eqn:Hd'.
  injection Hd as <- <- <-.
  destruct (IH g1 tasks' g'' Hd') as (g2 & Htake & Hdrop); [lia|].
  exists g2. by rewrite Htake.
Qed.

(** The [for] loop: what it has put, and why it ended. *)
Lemma fill_spec n : ∀ i pause g puts r g' puts',
  fill n i pause g puts = (r, g', puts') →
  ∃ tasks,
    draw (length tasks) g = (tasks, g') ∧
    puts' = puts ++ (generated <$> tasks) ∧
    length tasks ≤ n ∧
    match r with
    | None => length tasks = n
    | Some Exhausted => next g' = None
    | Some Paused => pause (i + length tasks) = true
    | Some _ => False
    end.
Proof.
  induction n as [|n IH]; intros i pause g puts r g' puts'; simpl.
  { intros [= <- <- <-]. exists []. by rewrite app_nil_r. }
  destruct (pause i) eqn:Hpause.
  { intros [= <- <- <-]. exists []. rewrite app_nil_r, Nat.add_0_r.
    split_and!; [done..|simpl; lia|done]. }
  destruct (next g) as [[task g1]|] eqn:Hnext.
  - intros (tasks & Hdraw & -> & Hlen & Hr)%IH. exists (task :: tasks).
    split_and!.
    + by apply (draw_cons _ _ _ g1).
    + by rewrite <-app_assoc.
    + simpl. lia.
    + destruct r as [[]|]; try done.
      * by replace (i + length (task :: tasks)) with (S i + length tasks)
          by (simpl; lia).
      * simpl. by rewrite Hr.
  - intros [= <- <- <-]. exists []. rewrite app_nil_r.
    split_and!; [done..|simpl; lia|done].
Qed.

Lemma fill_no_pause n : ∀ i pause g puts,
  (∀ j, pause j = false) →
  fill n i pause g puts =
    (if bool_decide (length (draw n g).1 < n) then Some Exhausted else None,
     (draw n g).2, puts ++ (generated <$> (draw n g).1)).
Proof.
  induction n as [|n IH]; intros i pause g puts Hpause; simpl.
  { by rewrite app_nil_r. }
  rewrite Hpause. destruct (next g) as [[task g1]|] eqn:Hnext; simpl.
  - rewrite IH by done. destruct (draw n g1) as [tasks g2]. simpl.
    rewrite <-app_assoc. simpl.
    repeat case_bool_decide; (done || lia).
  - by rewrite app_nil_r.
Qed.

Lemma worker_callback_spec threshold rounds : ∀ g puts e g' puts',
  worker_callback threshold rounds g puts = (e, g', puts') →
  ∃ tasks,
    draw (length tasks) g = (tasks, g') ∧
    puts' = puts ++ (generated <$> tasks) ∧
    length tasks ≤ sum_list (room threshold <$> rounds) ∧
    match e with
    | Exhausted => next g' = None
    | Stopped => Exists (λ r, stop_event r = true) rounds
    | Paused => Exists (λ r, ∃ i, pause_event r i = true) rounds
    | Running => Forall (λ r, stop_event r = false) rounds
    end.
Proof.
  induction rounds as [|r rounds IH]; intros g puts e g' puts'; simpl.
  { intros [= <- <- <-]. exists []. by rewrite app_nil_r. }
  unfold room at 1. destruct (stop_event r) eqn:Hstop.
  { intros [= <- <- <-]. exists []. rewrite app_nil_r.
    split_and!; [done..|simpl; lia|]. by apply Exists_cons_hd. }
  assert (∀ e, match e with
               | Exhausted => next g' = None
               | Stopped => Exists (λ r, stop_event r = true) rounds
               | Paused => Exists (λ r, ∃ i, pause_event r i = true) rounds
               | Running => Forall (λ r, stop_event r = false) rounds
               end →
               match e with
               | Exhausted => next g' = None
               | Stopped => Exists (λ r, stop_event r = true) (r :: rounds)
               | Paused => Exists (λ r, ∃ i, pause_event r i = true) (r :: rounds)
               | Running => Forall (λ r, stop_event r = false) (r :: rounds)
               end) as Hlater.
  { intros []; [by apply Exists_cons_tl..|done|intros ?; by constructor]. }
  case_bool_decide as Hsize.
  - destruct (fill _ 0 (pause_event r) g puts) as [[r1 g1] puts1] eqn:Hfill.
    apply fill_spec in Hfill as (tasks1 & Hdraw1 & -> & Hlen1 & Hr1).
    destruct r1 as [e1|].
    + intros [= <- <- <-]. exists tasks1. split_and!; [done..|lia|].
      destruct e1; try done.
      apply Exists_cons_hd. eauto.
    + intros (tasks2 & Hdraw2 & -> & Hlen2 & He)%IH.
      exists (tasks1 ++ tasks2). split_and!.
      * by apply (draw_app _ _ g1).
      * by rewrite fmap_app, app_assoc.
      * rewrite length_app. by apply Nat.add_le_mono.
      * by apply Hlater.
  - intros (tasks & Hdraw & -> & Hlen & He)%IH.
    exists tasks. split_and!; [done..| |by apply Hlater].
    etrans; [exact Hlen|]. apply Nat.le_add_l.
Qed.

(** X10.  Whatever the worker of the task generator observes, the items
    it puts are the first tasks of the generator, in the order of the
    generator, none left out and none twice, each as
    [(task, None, {"source": "task_generator"})]; the generator is left
    where the last of them was taken; and in every round the worker puts
    no more than the larger queue is below the threshold. *)
Theorem worker_callback_puts_in_order threshold rounds g puts e g' puts' :
  worker_callback threshold rounds g puts = (e, g', puts') →
  ∃ tasks,
    draw (length tasks) g = (tasks, g') ∧
    puts' = puts ++ (generated <$> tasks) ∧
    length tasks ≤ sum_list (room threshold <$> rounds).
Proof.
  intros (tasks & ? & ? & ? & _)%worker_callback_spec. eauto.
Qed.


(** X12.  Left alone (no stop, no pause) the worker puts every task of a
    finite generator and ends as exhausted, once the rounds have had
    room for one task more than the generator gives. *)
Theorem worker_callback_exhausts threshold rounds : ∀ g puts tasks g',
  Forall (λ r, stop_event r = false ∧ ∀ i, pause_event r i = false) rounds →
  draw (length tasks) g = (tasks, g') → next g' = None →
  length tasks < sum_list (room threshold <$> rounds) →
  worker_callback threshold rounds g puts =
    (Exhausted, g', puts ++ (generated <$> tasks)).
Proof.
  induction rounds as [|r rounds IH]; intros g puts tasks g' Hquiet Hdraw Hend Hroom.
  { simpl in Hroom. lia. }
  apply Forall_cons in Hquiet as [[Hstop Hpause] Hquiet].
  simpl in *. unfold room at 1 in Hroom. rewrite Hstop in *.
  change (list_fmap round nat (room threshold) rounds)
    with (room threshold <$> rounds) in *.
  case_bool_decide as Hsize; [|apply IH; (done || lia)].
  set (n := Z.to_nat (threshold - Z.max (task_queue_size r) (parser_qsize r))) in *.
  rewrite fill_no_pause by done.
  destruct (decide (length tasks < n)) as [Hlt|Hge].
  - rewrite (draw_past (length tasks) g tasks g' n) by (done || lia). simpl.
    by rewrite bool_decide_eq_true_2.
  - destruct (draw_split n g tasks g' Hdraw) as (g1 & Htake & Hdrop); [lia|].
    rewrite Htake. simpl. rewrite length_take.
    rewrite bool_decide_eq_false_2 by lia.
    rewrite (IH g1 _ (drop n tasks) g'); [|done|done|done|].
    + by rewrite <-app_assoc, <-fmap_app, take_drop.
    + rewrite length_drop. lia.
Qed.

(** The threshold of the task queue is 200, or twice the number of
    threads when that is more. *)
Lemma task_queue_threshold_bounds (thread_number : Z) :
  (200 ≤ task_queue_threshold thread_number)%Z ∧
  (thread_number * 2 ≤ task_queue_threshold thread_number)%Z ∧
  (task_queue_threshold thread_number = 200 ↔ thread_number ≤ 100)%Z.
Proof. unfold task_queue_threshold. lia. Qed.

(** *** The generator and the dispatcher *)

Context {Handler : Type}.
Context (task_clone : Task → Task).
Context (task_get_raw : Task → bool).
Context (find_task_handler : Task → Handler).
Context (handler__name__ : Handler → option string).
Context (is_valid_network_response_code : Z → Task → bool).
Context (network_try_limit : Z).
Context (task_setup_grab_config : Task → @value ExcInfo GrabConfig → Task).
#[local] Abbreviation dispatch :=
  (task_dispatcher.worker_callback task_clone task_get_raw find_task_handler
     handler__name__ is_valid_network_response_code network_try_limit
     task_setup_grab_config).

Lemma dispatch_generated tasks :
  dispatch (Some <$> (generated <$> tasks)) = (add_task <$> tasks, Return ()).
Proof.
  induction tasks as [|task tasks IH]; [done|].
  cbn [fmap list_fmap task_dispatcher.worker_callback generated
       task_generator.generated]. simpl.
  change (list_fmap _ _ Some (list_fmap _ _ generated tasks))
    with (Some <$> (generated <$> tasks)).
  by rewrite IH.
Qed.

(** X13.  From the generator to the task queue: the dispatcher worker,
    given the items that the generator worker has put, adds the tasks of
    the generator to the task queue, one [add_task] for each, in the
    order of the generator, and nothing else. *)
Theorem generated_tasks_are_added threshold rounds g e g' puts' :
  worker_callback threshold rounds g [] = (e, g', puts') →
  ∃ tasks,
    draw (length tasks) g = (tasks, g') ∧
    dispatch (Some <$> puts') = (add_task <$> tasks, Return ()).
Proof.
  intros (tasks & Hdraw & -> & _)%worker_callback_spec.
  exists tasks. split; [done|]. apply dispatch_generated.
Qed.
End facts.

(** *** The countdown generator under the default threshold *)

(** Two rounds with room for two tasks and for one. *)
Lemma worker_callback_puts_in_order_witness :
  ∃ tasks,
    draw countdown (length tasks) 5 = (tasks, 2) ∧
    @generated nat string unit <$> [5; 4; 3] = [] ++ (generated <$> tasks) ∧
    length tasks ≤ 3.
Proof.
  refine (worker_callback_puts_in_order countdown
            (task_queue_threshold 8)
            [mkRound false 198 0 (λ _, false); mkRound false 10 199 (λ _, false)]
            5 [] Running 2 (generated <$> [5; 4; 3]) _).
  reflexivity.
Defined.


Lemma worker_callback_exhausts_witness :
  worker_callback countdown (task_queue_threshold 8)
    [mkRound false 198 0 (λ _, false); mkRound false 150 199 (λ _, false);
     mkRound false 0 0 (λ _, false)] 3 [] =
  (Exhausted, 0, [] ++ (@generated nat string unit <$> [3; 2; 1])).
Proof.
  refine (worker_callback_exhausts countdown (task_queue_threshold 8)
            [mkRound false 198 0 (λ _, false); mkRound false 150 199 (λ _, false);
             mkRound false 0 0 (λ _, false)] 3 [] [3; 2; 1] 0 _ _ _ _).
  - repeat constructor.
  - reflexivity.
  - reflexivity.
  - vm_compute. lia.
Defined.

Lemma generated_tasks_are_added_witness :
  ∃ tasks,
    draw countdown (length tasks) 5 = (tasks, 3) ∧
    task_dispatcher.worker_callback (λ t : nat, t) (λ _, false) (λ t : nat, t)
      (λ _, Some "task_page") (λ _ _, true) 3%Z (λ t _, t)
      (Some <$> (@generated nat string unit <$> [5; 4])) =
    (add_task <$> tasks, Return ()).
Proof.
  refine (generated_tasks_are_added countdown (λ t : nat, t) (λ _, false)
            (λ t : nat, t) (λ _, Some "task_page") (λ _ _, true) 3%Z (λ t _, t)
            (task_queue_threshold 8) [mkRound false 198 0 (λ _, false)]
            5 Running 3 (generated <$> [5; 4]) _).
  reflexivity.
Defined.
End task_generator_facts.

(** ** The client: serialisation, [clone], requests *)

Module grab_facts.
Import http grab.

(** Unfolds the sequencing of store computations. *)
Ltac munfold :=
  repeat progress
    (unfold mbind, M_bind, mret, M_ret, ret, raise, alloc, update,
       get_dict, get_jar, get_transport, get_cookies, build_jar in *;
     cbn beta iota in *).

(** *** The jar *)

Lemma jar_wf_empty : jar_wf ∅.
Proof. intros k c. by rewrite lookup_empty. Qed.

Lemma jar_wf_insert m c : jar_wf m → jar_wf (<[cookie_key c := c]> m).
Proof.
  intros Hwf k c'. rewrite lookup_insert. case_decide.
  - by intros [= <-].
  - apply Hwf.
Qed.

Lemma built_from (m0 : gmap (string * string * string) Cookie) items :
  NoDup (cookie_key <$> items) →
  (∀ c, c ∈ items → m0 !! cookie_key c = None) →
  foldl (λ m c, <[cookie_key c := c]> m) m0 items =
  list_to_map ((λ c, (cookie_key c, c)) <$> items) ∪ m0.
Proof.
  revert m0. induction items as [|c items IH]; intros m0 Hnodup Hfresh; simpl.
  { by rewrite (left_id_L ∅ (∪)). }
  apply NoDup_cons in Hnodup as [Hc Hnodup].
  rewrite IH; [|done|].
  - rewrite <-insert_union_r, insert_union_l; [done|].
    apply not_elem_of_list_to_map_1. by rewrite <-list_fmap_compose.
  - intros c' Hc'. rewrite lookup_insert_ne; [apply Hfresh; by right|].
    intros E. apply Hc. rewrite E. by apply list_elem_of_fmap_2.
Qed.

(** Building a jar from the cookies of a jar gives the same jar. *)
Lemma built_jar_items m : jar_wf m → built (jar_items m) = m.
Proof.
  intros Hwf. unfold built, jar_items.
  assert ((λ c, (cookie_key c, c)) <$> (map_to_list m).*2 = map_to_list m) as Hitems.
  { rewrite <-list_fmap_compose. rewrite <-(list_fmap_id (map_to_list m)) at 2.
    apply list_fmap_ext. intros i [k c] Hkc%list_elem_of_lookup_2.
    apply elem_of_map_to_list in Hkc. simpl. by rewrite (Hwf k c Hkc). }
  rewrite built_from.
  - rewrite Hitems, list_to_map_to_list. apply (right_id_L ∅ (∪)).
  - replace (cookie_key <$> (map_to_list m).*2) with ((map_to_list m).*1).
    { apply NoDup_fst_map_to_list. }
    rewrite <-Hitems at 1. by rewrite <-list_fmap_compose.
  - intros c _. apply lookup_empty.
Qed.

(** *** Serialisation *)

(** A state none of whose entries makes [__setstate__] stumble before
    it meets a key it does not know: the cookie lists are lists of
    cookies. *)
Lemma __setstate___unknown_key state : ∀ self σ key value,
  (key, value) ∈ state →
  key ≠ "_cookies_items" → key ∉ __slots__ →
  (∀ v, ("_cookies_items", v) ∈ state →
        ∃ l items, v = VRef l ∧ σ !! l = Some (OCookies items)) →
  (__setstate__ self state σ).2 = Raise ValueError.
Proof.
  induction state as [|[k v] state IH]; intros self σ key value Hin Hne Hslot Hitems.
  { by apply elem_of_nil in Hin. }
  simpl. case_decide as Hk.
  - subst k. destruct (Hitems v) as (l & items & -> & Hl); [by left|].
    munfold. rewrite Hl. simpl.
    apply elem_of_cons in Hin as [[= ? ?]|Hin]; [done|].
    apply (IH _ _ key value); [done..|].
    intros v' Hv'. destruct (Hitems v') as (l' & items' & -> & Hl'); [by right|].
    exists l', items'. split; [done|]. by apply lookup_app_l_Some.
  - apply elem_of_cons in Hin as [[= <- <-]|Hin].
    { by rewrite decide_False. }
    case_decide; [|done].
    apply (IH _ _ key value); [done..|].
    intros v' Hv'. apply Hitems. by right.
Qed.

(** C8.  [__getstate__] followed by [__setstate__] on a blank object
    gives the slots of a client with the same config object, the same
    transport and a new jar that holds exactly the cookies of the old
    one (the same cookie under every domain, path and name), and leaves
    every object of the store as it was.  A state with a key that is
    neither a slot nor ["_cookies_items"] makes [__setstate__] raise
    [ValueError]. *)
Theorem getstate_setstate_roundtrip (σ : store) (self : Grab) m :
  σ !! cookies self = Some (OJar m) → jar_wf m →
  (∃ σ' jar,
     (state ← __getstate__ self; __setstate__ ∅ state) σ =
       (σ', Return (slots_of (mkGrab (config self) (transport self) jar))) ∧
     σ' !! jar = Some (OJar m) ∧
     ∀ l, l < length σ → σ' !! l = σ !! l) ∧
  (∀ state blank σ0 key value,
     (key, value) ∈ state →
     key ≠ "_cookies_items" → key ∉ __slots__ →
     (∀ v, ("_cookies_items", v) ∈ state →
           ∃ l items, v = VRef l ∧ σ0 !! l = Some (OCookies items)) →
     (__setstate__ blank state σ0).2 = Raise ValueError).
Proof.
  intros Hjar Hwf. split; [|intros; by eapply __setstate___unknown_key].
  exists ((σ ++ [OCookies (jar_items m)]) ++ [OJar m]), (S (length σ)).
  split_and!.
  - unfold __getstate__. munfold. rewrite Hjar. simpl. munfold.
    rewrite lookup_app_r by lia. rewrite Nat.sub_diag. simpl.
    rewrite built_jar_items by done. rewrite length_app. simpl.
    rewrite Nat.add_1_r. reflexivity.
  - rewrite lookup_app_r; rewrite length_app; simpl; [|lia].
    by replace (S (length σ) - (length σ + 1)) with 0 by lia.
  - intros l Hl. by rewrite !lookup_app_l by (rewrite ?length_app; simpl; lia).
Qed.

Lemma getstate_setstate_roundtrip_witness :
  ∃ σ' jar,
    (state ← __getstate__ sample_grab; __setstate__ ∅ state)
      sample_store_with_cookie =
      (σ', Return (slots_of (mkGrab 0 1 jar))) ∧
    σ' !! jar = Some (OJar {[ cookie_key sample_cookie := sample_cookie ]}) ∧
    ∀ l, l < 3 → σ' !! l = sample_store_with_cookie !! l.
Proof.
  refine (proj1 (getstate_setstate_roundtrip sample_store_with_cookie
                   sample_grab {[ cookie_key sample_cookie := sample_cookie ]} _ _)).
  - reflexivity.
  - intros k c [<- <-]%lookup_singleton_Some. reflexivity.
Defined.

(** *** [clone] *)

Lemma shallow_app σ ext v :
  (∀ l, v = VRef l → l < length σ) → shallow (σ ++ ext) v = shallow σ v.
Proof.
  intros Hv. destruct v as [| | | |l|]; simpl; try done.
  by rewrite lookup_app_l by auto.
Qed.

Lemma elem_of_dict_refs (items : dict val) l :
  l ∈ dict_refs items ↔ ∃ k, (k, VRef l) ∈ items.
Proof.
  unfold dict_refs. rewrite list_elem_of_omap. split.
  - intros ([k v] & Hin & Hv). simpl in Hv. destruct v; simplify_eq. eauto.
  - intros [k Hin]. by exists (k, VRef l).
Qed.

(** Copying the items of a dict appends the copies to the store; the
    new items show what the old ones show, and refer to new objects only. *)
Lemma copy_items_spec (items : dict val) : ∀ σ,
  (∀ l, l ∈ dict_refs items → l < length σ) →
  ∃ objs items',
    copy_items items σ = (σ ++ objs, Return items') ∧
    (∀ ext, (λ kv, (kv.1, shallow ((σ ++ objs) ++ ext) kv.2)) <$> items' =
            (λ kv, (kv.1, shallow σ kv.2)) <$> items) ∧
    (∀ l, l ∈ dict_refs items' → length σ ≤ l < length (σ ++ objs)).
Proof.
  induction items as [|[x y] items IH]; intros σ Hrefs.
  { exists [], []. simpl. munfold. rewrite app_nil_r. split_and!; [done..|].
    by intros l ?%elem_of_nil. }
  assert (∃ o1 y', copy y σ = (σ ++ o1, Return y') ∧
            (∀ ext, shallow ((σ ++ o1) ++ ext) y' = shallow σ y) ∧
            (∀ l, y' = VRef l → length σ ≤ l < length (σ ++ o1)))
    as (o1 & y' & Hcopy & Hy' & Hfresh).
  { destruct y as [| | | |l|]; try by (eexists [], _; simpl; munfold;
      rewrite app_nil_r; split_and!; [done|done|intros ? [=]]).
    destruct (lookup_lt_is_Some_2 σ l) as [o Ho].
    { apply Hrefs, elem_of_dict_refs. exists x. by left. }
    exists [o], (VRef (length σ)). split_and!; [unfold copy; by rewrite Ho|..].
    - intros ext. simpl. rewrite <-app_assoc, lookup_app_r, Nat.sub_diag by lia.
      by rewrite Ho.
    - intros ? [= <-]. rewrite length_app. simpl. lia. }
  destruct (IH (σ ++ o1)) as (objs & items' & Hitems & Hshow & Hnew).
  { intros l Hl. rewrite length_app.
    assert (l < length σ); [|lia].
    apply Hrefs. apply elem_of_dict_refs in Hl as [k Hk].
    apply elem_of_dict_refs. exists k. by right. }
  exists (o1 ++ objs), ((x, y') :: items'). split_and!.
  - simpl. munfold. rewrite Hcopy. munfold. rewrite Hitems. munfold.
    by rewrite app_assoc.
  - intros ext. rewrite !fmap_cons. simpl. f_equal.
    + f_equal. rewrite app_assoc, <-(app_assoc (σ ++ o1)). apply Hy'.
    + rewrite app_assoc, Hshow. apply list_fmap_ext. intros i [k v] Hkv. simpl.
      f_equal. apply shallow_app. intros l ->. apply Hrefs.
      apply elem_of_dict_refs. exists k. right. by eapply list_elem_of_lookup_2.
  - intros l [k [[= <- Hl]|Hl]%elem_of_cons]%elem_of_dict_refs.
    + specialize (Hfresh l (eq_sym Hl)). rewrite !length_app in *. lia.
    + assert (l ∈ dict_refs items') as Hl' by (apply elem_of_dict_refs; eauto).
      specialize (Hnew l Hl'). rewrite !length_app in *. lia.
Qed.

(** A client shows the same in two stores that agree on its objects. *)
Lemma view_agree σ1 σ2 self :
  (∀ l, l ∈ owned σ1 self → σ2 !! l = σ1 !! l) →
  view σ2 self = view σ1 self.
Proof.
  intros Hagree. unfold view, owned in *.
  rewrite (Hagree (config self)) by set_solver.
  rewrite (Hagree (cookies self)) by set_solver.
  f_equal. destruct (σ1 !! config self) as [[|items| | |]|]; try done.
  f_equal. apply list_fmap_ext. intros i [k v] Hkv. simpl. f_equal.
  destruct v as [| | | |l|]; simpl; try done. f_equal.
  apply Hagree. do 2 right. apply elem_of_dict_refs. exists k.
  by eapply list_elem_of_lookup_2.
Qed.

Lemma view_update σ self l o :
  l ∉ owned σ self → view (<[l := o]> σ) self = view σ self.
Proof.
  intros Hl. apply view_agree. intros l' Hl'.
  apply list_lookup_insert_ne. by intros ->.
Qed.

(** C7, as the code has it.  [clone] makes a new client with the same
    transport.  Its config is a new dict with the same keys, each value
    copied one level ([copy], not a deep copy); its jar is a new jar
    with the same cookies.  Both clients show the same right after, and
    writing to any object of one of them (assigning a config key,
    changing a config value in place, setting or clearing cookies)
    leaves what the other shows unchanged: its config keys, its config
    values and their contents, its cookies. *)
Theorem clone_copies_one_level (σ : store) (self : Grab) items m :
  σ !! config self = Some (ODict items) →
  σ !! cookies self = Some (OJar m) → jar_wf m →
  (∀ l, l ∈ dict_refs items → l < length σ) →
  ∃ σ' self',
    clone self [] σ = (σ', Return self') ∧
    transport self' = transport self ∧
    view σ' self' = view σ self ∧
    view σ' self = view σ self ∧
    (∀ l o, l ∈ owned σ' self' → view (<[l := o]> σ') self = view σ' self) ∧
    (∀ l o, l ∈ owned σ' self → view (<[l := o]> σ') self' = view σ' self').
Proof.
  intros Hconfig Hjar Hwf Hrefs.
  pose proof (lookup_lt_Some _ _ _ Hconfig) as Hc.
  pose proof (lookup_lt_Some _ _ _ Hjar) as Hj.
  set (σ1 := (σ ++ [ODict [("reuse_cookies", VBool true)]]) ++ [OJar ∅]).
  assert (length σ1 = S (S (length σ))) as Hlen1
    by (unfold σ1; rewrite !length_app; simpl; lia).
  destruct (copy_items_spec items σ1) as (objs & items' & Hcopy & Hshow & Hnew).
  { intros l Hl. specialize (Hrefs l Hl). lia. }
  set (σ' := ((σ1 ++ objs) ++ [ODict items']) ++ [OJar m]).
  set (self' := mkGrab (length (σ1 ++ objs)) (transport self)
                       (S (length (σ1 ++ objs)))).
  assert (∀ l, l < length σ → σ' !! l = σ !! l) as Hold.
  { intros l Hl. unfold σ', σ1.
    by rewrite !lookup_app_l by (rewrite ?length_app; simpl; lia). }
  assert (σ' !! config self' = Some (ODict items')) as Hconfig'.
  { unfold σ', self'. simpl.
    rewrite lookup_app_l by (rewrite !length_app; simpl; lia).
    by rewrite lookup_app_r, Nat.sub_diag by lia. }
  assert (σ' !! cookies self' = Some (OJar m)) as Hjar'.
  { unfold σ', self'. simpl. rewrite lookup_app_r; rewrite !length_app; simpl; [|lia].
    by replace (S (_ + _) - (_ + _ + 1)) with 0 by lia. }
  assert (∀ l, l ∈ owned σ' self → l < length σ) as Hself.
  { intros l. unfold owned. rewrite (Hold _ Hc), Hconfig.
    intros [->|[->|Hl]%elem_of_cons]%elem_of_cons; auto. }
  assert (∀ l, l ∈ owned σ' self' → length σ ≤ l) as Hself'.
  { intros l. unfold owned. rewrite Hconfig'. unfold self' at 1 2. simpl.
    rewrite !length_app, Hlen1.
    intros [->|[->|Hl]%elem_of_cons]%elem_of_cons; [lia..|].
    specialize (Hnew l Hl). lia. }
  exists σ', self'. split_and!.
  - unfold clone, Grab__init__, default_grab_config, copy_config.
    munfold. simpl. munfold. fold σ1.
    assert (σ1 !! config self = Some (ODict items)) as ->.
    { unfold σ1. by rewrite !lookup_app_l by (rewrite ?length_app; simpl; lia). }
    rewrite Hcopy.
    assert (((σ1 ++ objs) ++ [ODict items']) !! cookies self = Some (OJar m)) as ->.
    { unfold σ1. by rewrite !lookup_app_l by (rewrite ?length_app; simpl; lia). }
    rewrite built_jar_items by done.
    unfold σ', self'. do 3 f_equal. rewrite !length_app. simpl. lia.
  - done.
  - unfold view. rewrite Hconfig', Hjar', Hconfig, Hjar. f_equal. f_equal.
    unfold σ'. rewrite <-app_assoc. rewrite Hshow.
    apply list_fmap_ext. intros i [k v] Hkv. simpl. f_equal.
    unfold σ1. rewrite <-app_assoc. apply shallow_app. intros l ->.
    apply Hrefs, elem_of_dict_refs. exists k. by eapply list_elem_of_lookup_2.
  - apply view_agree. intros l Hl. apply Hold. unfold owned in Hl.
    rewrite Hconfig in Hl.
    apply elem_of_cons in Hl as [->|[->|Hl]%elem_of_cons]; auto.
  - intros l o Hl. apply view_update. intros Hl'.
    specialize (Hself _ Hl'). specialize (Hself' _ Hl). lia.
  - intros l o Hl. apply view_update. intros Hl'.
    specialize (Hself _ Hl). specialize (Hself' _ Hl'). lia.
Qed.

Lemma clone_copies_one_level_witness :
  ∃ σ' self',
    clone sample_grab [] nested_store = (σ', Return self') ∧
    transport self' = 1 ∧
    view σ' self' = view nested_store sample_grab ∧
    view σ' sample_grab = view nested_store sample_grab ∧
    (∀ l o, l ∈ owned σ' self' →
            view (<[l := o]> σ') sample_grab = view σ' sample_grab) ∧
    (∀ l o, l ∈ owned σ' sample_grab →
            view (<[l := o]> σ') self' = view σ' self').
Proof.
  apply (clone_copies_one_level nested_store sample_grab
           [("reuse_cookies", VRef 3)] ∅).
  - reflexivity.
  - reflexivity.
  - apply jar_wf_empty.
  - intros l Hl. apply elem_of_dict_refs in Hl as [k Hl].
    apply list_elem_of_singleton in Hl. simplify_eq. simpl. lia.
Defined.

(** C7 as stated fails: the copy is one level deep.  With
    [config = {"reuse_cookies": [[1]]}] the clone's config value is a new
    list holding the same inner list; [append(2)] on that inner list (at
    location 4), which is part of the clone's config, shows in the
    config of the original. *)
Lemma clone_config_is_not_deep_copied :
  ∃ σ' self',
    clone sample_grab [] nested_store = (σ', Return self') ∧
    let σ'' := <[4 := OList [VInt 1; VInt 2]]> σ' in
    OList [VInt 1] ∈ contents 3 σ' (VRef (config self')) ∧
    contents 3 σ'' (VRef (config self')) ≠ contents 3 σ' (VRef (config self')) ∧
    contents 3 σ'' (VRef (config sample_grab)) ≠
      contents 3 σ' (VRef (config sample_grab)).
Proof.
  eexists _, _. split; [by vm_compute|]. simpl. split_and!.
  - set_solver.
  - discriminate.
  - discriminate.
Qed.

(** *** Requests *)

Section request.
Context (init_keys : gset string).
Context (default_redirect_limit : Z).
Context (urljoin : string → string → string).
Context (hostname : string → option string).
#[local] Abbreviation merge_loop := (merge_loop init_keys).
#[local] Abbreviation merge_request_configs := (merge_request_configs init_keys).
#[local] Abbreviation create_from_mapping := (create_from_mapping default_redirect_limit).
#[local] Abbreviation update_session_cookies := (update_session_cookies hostname).
#[local] Abbreviation prepare_request :=
  (prepare_request init_keys default_redirect_limit hostname).
#[local] Abbreviation request_loop :=
  (request_loop init_keys default_redirect_limit urljoin hostname).
#[local] Abbreviation request :=
  (request init_keys default_redirect_limit urljoin hostname).

#[local] Abbreviation prepared := (prepared default_redirect_limit).
#[local] Abbreviation chain_urls := (chain_urls urljoin).
#[local] Abbreviation kwargs_ok := (kwargs_ok init_keys).
#[local] Abbreviation merged := (merged init_keys).
#[local] Abbreviation hop := (hop default_redirect_limit).
#[local] Abbreviation kwargs_for := (kwargs_for init_keys).

(** **** Merging the keyword arguments *)

Lemma merge_loop_valid (kwargs : dict val) : ∀ cfg,
  Forall (λ kv, kv.1 ∈ init_keys) kwargs →
  merge_loop cfg kwargs = Return (foldl (λ c kv, <[kv.1 := kv.2]> c) cfg kwargs).
Proof.
  induction kwargs as [|[k v] kwargs IH]; intros cfg Hvalid; simpl; [done|].
  apply Forall_cons in Hvalid as [Hk Hvalid]. rewrite decide_True by done.
  by apply IH.
Qed.

Lemma merge_loop_invalid (kwargs : dict val) : ∀ cfg,
  Exists (λ kv, kv.1 ∉ init_keys) kwargs →
  merge_loop cfg kwargs = Raise GrabMisuseError.
Proof.
  induction kwargs as [|[k v] kwargs IH]; intros cfg Hbad; simpl.
  { by apply Exists_nil in Hbad. }
  case_decide as Hk; [|done].
  apply Exists_cons in Hbad as [?|Hbad]; [done|]. by apply IH.
Qed.

Lemma foldl_insert_comm (kwargs : dict val) : ∀ (cfg : gmap string val) k v,
  k ∉ kwargs.*1 →
  foldl (λ c kv, <[kv.1 := kv.2]> c) (<[k := v]> cfg) kwargs =
  <[k := v]> (foldl (λ c kv, <[kv.1 := kv.2]> c) cfg kwargs).
Proof.
  induction kwargs as [|[k' v'] kwargs IH]; intros cfg k v Hk; simpl; [done|].
  apply not_elem_of_cons in Hk as [Hne Hk]. simpl in Hne.
  rewrite insert_insert_ne by done. by apply IH.
Qed.

Lemma foldl_insert_setitem (kwargs : dict val) : ∀ (cfg : gmap string val) k v,
  NoDup kwargs.*1 →
  foldl (λ c kv, <[kv.1 := kv.2]> c) cfg (dict_setitem k v kwargs) =
  <[k := v]> (foldl (λ c kv, <[kv.1 := kv.2]> c) cfg kwargs).
Proof.
  induction kwargs as [|[k' v'] kwargs IH]; intros cfg k v Hnodup; simpl; [done|].
  apply NoDup_cons in Hnodup as [Hk' Hnodup]. case_decide as E; simpl.
  - subst k'. rewrite <-(foldl_insert_comm kwargs _ k v) by done.
    by rewrite insert_insert_eq.
  - by apply IH.
Qed.

Lemma dict_setitem_keys (kwargs : dict val) k v :
  (dict_setitem k v kwargs).*1 =
  if decide (k ∈ kwargs.*1) then kwargs.*1 else kwargs.*1 ++ [k].
Proof.
  induction kwargs as [|[k' v'] kwargs IH].
  { cbn. case_decide as E; [by apply elem_of_nil in E|done]. }
  cbn [dict_setitem]. destruct (decide (k' = k)) as [->|E].
  - rewrite !fmap_cons. cbn [fst]. rewrite decide_True; [done|by left].
  - rewrite !fmap_cons, IH. cbn [fst].
    destruct (decide (k ∈ kwargs.*1)) as [Hin|Hin],
             (decide (k ∈ k' :: kwargs.*1)) as [Hin'|Hin']; try done.
    + destruct Hin'. by right.
    + by apply elem_of_cons in Hin' as [?|?].
Qed.

Lemma kwargs_ok_setitem kwargs k v :
  k ∈ init_keys → kwargs_ok kwargs → kwargs_ok (dict_setitem k v kwargs).
Proof.
  intros Hk [Hvalid Hnodup]. split.
  - apply Forall_forall. intros [k' v'] Hin.
    assert (k' ∈ (dict_setitem k v kwargs).*1) as Hk'
      by (by apply (list_elem_of_fmap_2 fst) in Hin).
    apply http_facts.elem_of_dict_setitem_keys in Hk' as [->|Hk']; [done|].
    apply list_elem_of_fmap in Hk' as ([k'' v''] & -> & Hin').
    by apply (proj1 (Forall_forall _ _) Hvalid (k'', v'')).
  - rewrite dict_setitem_keys. case_decide as Hin; [done|].
    apply NoDup_app. split_and!; [done| |apply NoDup_singleton].
    intros k' Hk' ->%list_elem_of_singleton. done.
Qed.

Lemma merge_request_configs_setitem kwargs k v cfg :
  k ∈ init_keys → kwargs_ok kwargs →
  merge_request_configs kwargs = Return cfg →
  merge_request_configs (dict_setitem k v kwargs) = Return (<[k := v]> cfg).
Proof.
  intros Hk [Hvalid Hnodup]. unfold grab.merge_request_configs.
  rewrite (merge_loop_valid kwargs) by done.
  rewrite (merge_loop_valid (dict_setitem k v kwargs))
    by (by apply kwargs_ok_setitem).
  intros [= <-]. by rewrite foldl_insert_setitem, insert_union_l.
Qed.

Lemma merge_request_configs_invalid kwargs :
  Exists (λ kv, kv.1 ∉ init_keys) kwargs →
  merge_request_configs kwargs = Raise GrabMisuseError.
Proof.
  intros Hbad. unfold grab.merge_request_configs.
  by rewrite merge_loop_invalid.
Qed.

(** The defaults leave the URL alone, and the URL the rest. *)
Lemma prepared_url cfg u :
  prepared (<["url" := VStr u]> cfg) =
  mkRequest (VStr u) (method (prepared cfg)) (follow_location (prepared cfg))
            (redirect_limit (prepared cfg)) (req_cookies (prepared cfg)).
Proof.
  unfold grab.prepared, grab.create_from_mapping.
  rewrite (lookup_insert_ne _ "url" "method") by done.
  destruct (truthy [] (default VNone (cfg !! "method")));
    rewrite ?(lookup_insert_ne _ "method" "follow_location") by done;
    rewrite ?(lookup_insert_ne _ "url" "follow_location") by done;
    destruct (decide (cfg !! "follow_location" = Some VNone)); simpl;
    by simplify_map_eq.
Qed.

(** A client in a store: a dict, a jar and a transport at its three
    slots, and [reuse_cookies] a boolean of its config. *)
Context (σ0 : store) (self : Grab) (config_items : dict val) (reuse : bool).
Context (m0 : gmap (string * string * string) Cookie) (t0 : Transport).
Hypothesis Hconfig : σ0 !! config self = Some (ODict config_items).
Hypothesis Hreuse : dict_getitem "reuse_cookies" config_items = ret (VBool reuse).
Hypothesis Hjar : σ0 !! cookies self = Some (OJar m0).
Hypothesis Htransport : σ0 !! transport self = Some (OTransport t0).
#[local] Abbreviation state := (with_state σ0 self).
Implicit Types (m : gmap (string * string * string) Cookie) (t : Transport).

Lemma Hct : config self ≠ transport self.
Proof using Hconfig Htransport. intros E. rewrite E in Hconfig. congruence. Qed.
Lemma Hcj : config self ≠ cookies self.
Proof using Hconfig Hjar. intros E. rewrite E in Hconfig. congruence. Qed.
Lemma Htj : transport self ≠ cookies self.
Proof using Hjar Htransport. intros E. rewrite E in Htransport. congruence. Qed.

Lemma state_transport m t : state m t !! transport self = Some (OTransport t).
Proof.
  unfold with_state. rewrite list_lookup_insert_ne by (pose proof Htj; done).
  apply list_lookup_insert_eq. by eapply lookup_lt_Some.
Qed.

Lemma state_cookies m t : state m t !! cookies self = Some (OJar m).
Proof.
  unfold with_state. apply list_lookup_insert_eq.
  rewrite length_insert. by eapply lookup_lt_Some.
Qed.

Lemma state_other m t l :
  l ≠ transport self → l ≠ cookies self → state m t !! l = σ0 !! l.
Proof. intros. unfold with_state. by rewrite !list_lookup_insert_ne. Qed.

Lemma state_config m t : state m t !! config self = Some (ODict config_items).
Proof. by rewrite state_other by (apply Hct || apply Hcj). Qed.

Lemma state_set_transport m t t' :
  <[transport self := OTransport t']> (state m t) = state m t'.
Proof.
  unfold with_state. rewrite list_insert_insert_ne by (pose proof Htj; done).
  by rewrite list_insert_insert_eq.
Qed.

Lemma state_set_cookies m t m' :
  <[cookies self := OJar m']> (state m t) = state m' t.
Proof. unfold with_state. by rewrite list_insert_insert_eq. Qed.

Lemma transport_reset_state m t :
  transport_reset (transport self) (state m t) =
  (state m (reset t), Return ()).
Proof.
  unfold transport_reset. munfold. rewrite state_transport.
  by rewrite state_set_transport.
Qed.

Lemma transport_request_state m t req jar doc rest :
  incoming t = doc :: rest →
  transport_request (transport self) req jar (state m t) =
  (state m (mkTransport rest (Some doc) (sent t ++ [req])), Return ()).
Proof.
  intros Hin. unfold transport_request. munfold. rewrite state_transport, Hin.
  munfold. by rewrite state_set_transport.
Qed.

Lemma set_cookies_state items : ∀ m t,
  set_cookies (cookies self) items (state m t) =
  (state (foldl (λ m c, <[cookie_key c := c]> m) m items) t, Return ()).
Proof.
  induction items as [|c items IH]; intros m t; simpl; [done|].
  unfold set_cookie. munfold. rewrite state_cookies, state_set_cookies.
  apply IH.
Qed.

Lemma process_request_result_state m t req doc :
  raw t = Some doc →
  process_request_result self req (state m t) =
  (state (if reuse then foldl (λ m c, <[cookie_key c := c]> m) m (doc_cookies doc)
          else m) t, Return doc).
Proof.
  intros Hraw. unfold process_request_result, transport_prepare_response.
  munfold. rewrite state_transport, Hraw. munfold. rewrite state_config.
  rewrite Hreuse. munfold. unfold is_true. simpl.
  destruct reuse; [|done]. by rewrite set_cookies_state.
Qed.

(** **** Preparing a request *)

Lemma truthy_immediate σ v : (∀ l, v ≠ VRef l) → truthy σ v = truthy [] v.
Proof. intros Hv. destruct v; try done. by destruct (Hv l). Qed.

Lemma update_session_cookies_state m t c u :
  cookies_ok σ0 c →
  ∃ m', update_session_cookies self c (VStr u) (state m t) = (state m' t, Return ()).
Proof.
  intros Hc. unfold grab.update_session_cookies.
  destruct (hostname u) as [host|]; [|by exists m].
  destruct (String.eqb host ""); [by exists m|].
  destruct Hc as [->|(l & items & -> & Hl)]; [by exists m|].
  assert (state m t !! l = Some (ODict items)) as Hl'.
  { rewrite state_other; [done|intros ->; congruence..]. }
  munfold. unfold is_true. simpl. rewrite Hl'.
  destruct (negb _); [|by exists m]. munfold. rewrite Hl'.
  rewrite set_cookies_state. eauto.
Qed.

(** [prepare_request] up to the session cookies. *)
Lemma prepare_request_unfold m t kwargs cfg u :
  merge_request_configs kwargs = Return cfg →
  cfg !! "url" = Some (VStr u) →
  is_Some (cfg !! "method") → (∀ l, cfg !! "method" ≠ Some (VRef l)) →
  is_Some (cfg !! "follow_location") →
  prepare_request self kwargs (state m t) =
  (update_session_cookies self (default VNone (cfg !! "cookies")) (VStr u);;
   ret (prepared cfg)) (state m (reset t)).
Proof.
  intros Hmerge Hurl [mth Hmth] Hnoref [f Hf].
  unfold grab.prepare_request. cbv zeta. munfold. rewrite transport_reset_state.
  unfold lift, cfg_getitem. rewrite Hmerge, Hurl. simpl.
  rewrite Hmth. unfold is_true.
  rewrite truthy_immediate by (intros l ->; by apply (Hnoref l)).
  set (cfg1 := if truthy [] mth then cfg else <["method" := VStr "GET"]> cfg).
  assert (cfg1 !! "follow_location" = Some f) as Hf1.
  { unfold cfg1. destruct (truthy [] mth); [done|]. by rewrite lookup_insert_ne. }
  rewrite Hf1.
  set (cfg2 := if decide (f = VNone)
               then <["follow_location" := VBool true]> cfg1 else cfg1).
  assert (grab.create_from_mapping default_redirect_limit cfg2 = prepared cfg) as Hreq.
  { unfold grab.prepared. rewrite Hmth. simpl. fold cfg1. rewrite Hf1.
    unfold cfg2. destruct (decide (f = VNone)) as [->|Hne].
    - by rewrite decide_True.
    - rewrite decide_False; [done|]. by intros [= ->]. }
  assert (default VNone (cfg2 !! "url") = VStr u ∧
          default VNone (cfg2 !! "cookies") = default VNone (cfg !! "cookies"))
    as [Hu Hc].
  { unfold cfg2, cfg1.
    destruct (decide (f = VNone)), (truthy [] mth);
      rewrite ?lookup_insert_ne by done; by rewrite ?Hurl. }
  by rewrite Hreq, Hu, Hc.
Qed.

Lemma prepare_request_state m t kwargs cfg u :
  merge_request_configs kwargs = Return cfg →
  cfg !! "url" = Some (VStr u) →
  is_Some (cfg !! "method") → (∀ l, cfg !! "method" ≠ Some (VRef l)) →
  is_Some (cfg !! "follow_location") →
  cookies_ok σ0 (default VNone (cfg !! "cookies")) →
  ∃ m', prepare_request self kwargs (state m t) =
        (state m' (reset t), Return (prepared cfg)).
Proof.
  intros Hmerge Hurl Hmth Hnoref Hf Hcookies.
  rewrite (prepare_request_unfold m t kwargs cfg u) by done.
  destruct (update_session_cookies_state m (reset t)
              (default VNone (cfg !! "cookies")) u Hcookies) as [m' Hm'].
  exists m'. munfold. by rewrite Hm'.
Qed.

(** Without cookies of its own, a request leaves the jar alone. *)
Lemma update_session_cookies_none m t u :
  update_session_cookies self VNone (VStr u) (state m t) = (state m t, Return ()).
Proof.
  unfold grab.update_session_cookies.
  destruct (hostname u) as [host|]; [|done]. by destruct (String.eqb host "").
Qed.

(** **** The redirect loop *)

Section loop.
(** The merged config [cfg] that the keyword arguments stand for, up
    to the URL; following is on and the limit is the integer [limit]. *)
Context (cfg : gmap string val) (limit : Z).
Hypothesis Hurl_key : "url" ∈ init_keys.
Hypothesis Hmethod : is_Some (cfg !! "method").
Hypothesis Hmethod_immediate : ∀ l, cfg !! "method" ≠ Some (VRef l).
Hypothesis Hfollow_key : is_Some (cfg !! "follow_location").
Hypothesis Hcookies : cookies_ok σ0 (default VNone (cfg !! "cookies")).
Hypothesis Hfollow : follow_location (prepared cfg) = VBool true.
Hypothesis Hlimit : redirect_limit (prepared cfg) = VInt limit.

#[local] Abbreviation hop' := (hop cfg).
#[local] Abbreviation kwargs_for' := (kwargs_for cfg).

Lemma kwargs_for_setitem kwargs u :
  kwargs_for' kwargs → kwargs_for' (dict_setitem "url" (VStr u) kwargs).
Proof using Hurl_key.
  intros [Hok (cfg' & Hmerge & Hcfg)]. split; [by apply kwargs_ok_setitem|].
  exists (<["url" := VStr u]> cfg'). split.
  - by apply merge_request_configs_setitem.
  - intros u'. rewrite insert_insert_eq. apply Hcfg.
Qed.

Lemma prepare_hop m t kwargs u :
  kwargs_for' kwargs →
  ∃ m', prepare_request self (dict_setitem "url" (VStr u) kwargs) (state m t) =
        (state m' (reset t), Return (hop' u)).
Proof using All.
  intros [Hok (cfg' & Hmerge & Hcfg)]. unfold grab.hop.
  apply (prepare_request_state m t _ _ u).
  - rewrite <-Hcfg. by apply merge_request_configs_setitem.
  - by rewrite lookup_insert_eq.
  - by rewrite lookup_insert_ne.
  - intros l. by rewrite lookup_insert_ne.
  - by rewrite lookup_insert_ne.
  - by rewrite lookup_insert_ne.
Qed.

(** One round of the loop on a request [rq] that follows redirects. *)
Lemma request_loop_final fuel rq kwargs count m t doc rest :
  follow_location rq = VBool true →
  incoming t = doc :: rest →
  find_redirect_url doc = Return None →
  ∃ m', request_loop (S fuel) self rq kwargs count (state m t) =
        (state m' (mkTransport rest (Some doc) (sent t ++ [rq])), Return doc).
Proof using Hconfig Hreuse Hjar Htransport.
  intros Hrq Hin Hdoc. cbn [grab.request_loop]. munfold.
  rewrite (transport_request_state _ _ _ _ _ _ Hin). munfold.
  rewrite (process_request_result_state _ _ _ doc) by done. munfold.
  unfold is_true, lift. rewrite Hrq, Hdoc. simpl. eauto.
Qed.

Lemma request_loop_over fuel rq kwargs count m t doc rest location r :
  follow_location rq = VBool true → redirect_limit rq = VInt r →
  incoming t = doc :: rest →
  find_redirect_url doc = Return (Some location) →
  (r < Z.of_nat (S count))%Z →
  ∃ m', request_loop (S fuel) self rq kwargs count (state m t) =
        (state m' (mkTransport rest (Some doc) (sent t ++ [rq])),
         Raise GrabTooManyRedirectsError).
Proof using Hconfig Hreuse Hjar Htransport.
  intros Hrq Hr Hin Hdoc Hover. cbn [grab.request_loop]. munfold.
  rewrite (transport_request_state _ _ _ _ _ _ Hin). munfold.
  rewrite (process_request_result_state _ _ _ doc) by done. munfold.
  unfold is_true, lift. rewrite Hrq, Hdoc, Hr. cbn [truthy exceeds].
  rewrite bool_decide_eq_true_2 by done. eauto.
Qed.

Lemma request_loop_step fuel rq kwargs count m t doc rest location r u :
  follow_location rq = VBool true → redirect_limit rq = VInt r →
  url rq = VStr u →
  incoming t = doc :: rest →
  find_redirect_url doc = Return (Some location) →
  (Z.of_nat (S count) ≤ r)%Z →
  kwargs_for' kwargs →
  ∃ m', request_loop (S fuel) self rq kwargs count (state m t) =
        request_loop fuel self (hop' (urljoin u location))
          (dict_setitem "url" (VStr (urljoin u location)) kwargs) (S count)
          (state m' (mkTransport rest None (sent t ++ [rq]))).
Proof using All.
  intros Hrq Hr Hu Hin Hdoc Hle Hkwargs. cbn [grab.request_loop]. munfold.
  rewrite (transport_request_state _ _ _ _ _ _ Hin). munfold.
  rewrite (process_request_result_state _ _ _ doc) by done. munfold.
  unfold is_true, lift. rewrite Hrq, Hdoc, Hr, Hu. cbn [truthy exceeds].
  rewrite bool_decide_eq_false_2 by lia. cbv zeta.
  match goal with |- context [prepare_request _ _ (state ?m1 ?t1)] =>
    destruct (prepare_hop m1 t1 kwargs (urljoin u location) Hkwargs) as [m' Hm']
  end.
  exists m'. by rewrite Hm'.
Qed.

Lemma hop_fields u :
  url (hop' u) = VStr u ∧ follow_location (hop' u) = VBool true ∧
  redirect_limit (hop' u) = VInt limit.
Proof using Hfollow Hlimit. unfold grab.hop. by rewrite prepared_url. Qed.

(** A chain within the limit is followed to its end. *)
Lemma request_loop_returns final rest redirects :
  find_redirect_url final = Return None →
  ∀ locations fuel kwargs u m t count,
    Forall2 (λ doc location, find_redirect_url doc = Return (Some location))
            redirects locations →
    kwargs_for' kwargs →
    incoming t = redirects ++ final :: rest →
    length redirects < fuel →
    (Z.of_nat (count + length redirects) ≤ limit)%Z →
    ∃ m', request_loop fuel self (hop' u) kwargs count (state m t) =
          (state m' (mkTransport rest (Some final)
                       (sent t ++ (hop' <$> chain_urls u locations))),
           Return final).
Proof using All.
  intros Hfinal. induction redirects as [|doc redirects IH];
    intros locations fuel kwargs u m t count Hchain Hkwargs Hin Hfuel Hcount.
  - apply Forall2_nil_inv_l in Hchain as ->.
    destruct fuel as [|fuel]; [simpl in Hfuel; lia|].
    destruct (hop_fields u) as (_ & Hf & _).
    apply (request_loop_final fuel (hop' u) kwargs count m t final rest); done.
  - apply Forall2_cons_inv_l in Hchain as (location & locations' & Hdoc & Hchain & ->).
    destruct fuel as [|fuel]; [simpl in Hfuel; lia|]. simpl in Hfuel, Hcount.
    destruct (hop_fields u) as (Hu & Hf & Hl).
    destruct (request_loop_step fuel (hop' u) kwargs count m t doc
                (redirects ++ final :: rest) location limit u)
      as [m1 Hstep]; [done..|lia|done|].
    rewrite Hstep.
    destruct (IH locations' fuel (dict_setitem "url" (VStr (urljoin u location)) kwargs)
                (urljoin u location) m1
                (mkTransport (redirects ++ final :: rest) None (sent t ++ [hop' u]))
                (S count))
      as [m' Hm']; [done|by apply kwargs_for_setitem|done|lia|lia|].
    exists m'. rewrite Hm'. simpl. by rewrite <-app_assoc.
Qed.

(** A chain beyond the limit ends in [GrabTooManyRedirectsError],
    after one exchange more than the limit allows redirects. *)
Lemma request_loop_raises rest redirects :
  ∀ locations fuel kwargs u m t count,
    Forall2 (λ doc location, find_redirect_url doc = Return (Some location))
            redirects locations →
    kwargs_for' kwargs →
    incoming t = redirects ++ rest →
    length redirects ≤ fuel →
    0 < length redirects →
    (limit < Z.of_nat (count + length redirects))%Z →
    ∃ m' t', request_loop fuel self (hop' u) kwargs count (state m t) =
             (state m' t', Raise GrabTooManyRedirectsError) ∧
             sent t' = sent t ++ (hop' <$> take (S (Z.to_nat limit - count))
                                              (chain_urls u locations)).
Proof using All.
  induction redirects as [|doc redirects IH];
    intros locations fuel kwargs u m t count Hchain Hkwargs Hin Hfuel Hpos Hcount.
  { simpl in Hpos. lia. }
  clear Hpos.
  apply Forall2_cons_inv_l in Hchain as (location & locations' & Hdoc & Hchain & ->).
  destruct fuel as [|fuel]; [simpl in Hfuel; lia|]. simpl in Hfuel, Hcount.
  destruct (hop_fields u) as (Hu & Hf & Hl).
  destruct (decide (limit < Z.of_nat (S count))%Z) as [Hover|Hunder].
  - destruct (request_loop_over fuel (hop' u) kwargs count m t doc
                (redirects ++ rest) location limit) as [m' Hm']; [done..|].
    eexists _, _. split; [done|].
    replace (Z.to_nat limit - count) with 0 by lia. done.
  - destruct (request_loop_step fuel (hop' u) kwargs count m t doc
                (redirects ++ rest) location limit u)
      as [m1 Hstep]; [done..|lia|done|].
    rewrite Hstep.
    destruct (IH locations' fuel (dict_setitem "url" (VStr (urljoin u location)) kwargs)
                (urljoin u location) m1
                (mkTransport (redirects ++ rest) None (sent t ++ [hop' u]))
                (S count))
      as (m' & t' & Hm' & Hsent);
      [done|by apply kwargs_for_setitem|done|lia|lia|lia|].
    exists m', t'. split; [done|]. rewrite Hsent.
    replace (Z.to_nat limit - count) with (S (Z.to_nat limit - S count)) by lia.
    cbn [chain_urls take fmap list_fmap sent]. by rewrite <-app_assoc.
Qed.
End loop.

(** **** The merged config, key by key *)

Lemma merge_request_configs_ok kwargs :
  kwargs_ok kwargs → merge_request_configs kwargs = Return (merged kwargs).
Proof.
  intros [Hvalid _]. unfold grab.merge_request_configs.
  by rewrite merge_loop_valid.
Qed.

Lemma foldl_insert_lookup (kwargs : dict val) : ∀ (cfg : gmap string val) k x,
  foldl (λ c kv, <[kv.1 := kv.2]> c) cfg kwargs !! k = Some x →
  (k, x) ∈ kwargs ∨ cfg !! k = Some x.
Proof.
  induction kwargs as [|[k' v'] kwargs IH]; intros cfg k x; simpl; [auto|].
  intros [Hin|Hcfg]%IH; [left; by right|].
  apply lookup_insert_Some in Hcfg as [[<- <-]|[_ ?]]; [left; by left|by right].
Qed.

Lemma foldl_insert_lookup_in (kwargs : dict val) : ∀ (cfg : gmap string val) k x,
  NoDup kwargs.*1 → (k, x) ∈ kwargs →
  foldl (λ c kv, <[kv.1 := kv.2]> c) cfg kwargs !! k = Some x.
Proof.
  induction kwargs as [|[k' v'] kwargs IH]; intros cfg k x Hnodup Hin.
  { by apply elem_of_nil in Hin. }
  apply NoDup_cons in Hnodup as [Hk' Hnodup]. simpl.
  apply elem_of_cons in Hin as [[= -> ->]|Hin]; [|by apply IH].
  rewrite foldl_insert_comm by done. apply lookup_insert_eq.
Qed.

Lemma foldl_insert_given (kwargs : dict val) : ∀ (cfg : gmap string val) k x,
  (k, x) ∈ kwargs → is_Some (foldl (λ c kv, <[kv.1 := kv.2]> c) cfg kwargs !! k).
Proof.
  induction kwargs as [|[k' v'] kwargs IH]; intros cfg k x Hin.
  { by apply elem_of_nil in Hin. }
  simpl. destruct (decide (k ∈ kwargs.*1)) as [Hk|Hk].
  - apply list_elem_of_fmap in Hk as ([k'' x'] & -> & Hin'). by apply (IH _ _ x').
  - apply elem_of_cons in Hin as [[= -> ->]|Hin].
    + rewrite foldl_insert_comm by done. rewrite lookup_insert_eq. eauto.
    + destruct Hk. by apply (list_elem_of_fmap_2 fst) in Hin.
Qed.

Lemma merged_lookup_in kwargs k x :
  kwargs_ok kwargs → (k, x) ∈ kwargs → merged kwargs !! k = Some x.
Proof.
  intros [_ Hnodup] Hin. unfold grab.merged.
  apply lookup_union_Some_l. by apply foldl_insert_lookup_in.
Qed.

Lemma merged_lookup_absent kwargs k :
  k ∈ init_keys → (∀ x, (k, x) ∈ kwargs → x = VNone) →
  merged kwargs !! k = Some VNone.
Proof.
  intros Hk Hnone. unfold grab.merged.
  destruct (foldl (λ c kv, <[kv.1 := kv.2]> c) (∅ : gmap string val) kwargs !! k)
    as [x|] eqn:Hx.
  - apply lookup_union_Some_l.
    apply foldl_insert_lookup in Hx as Hx'.
    destruct Hx' as [Hin|Hempty]; [|by rewrite lookup_empty in Hempty].
    by rewrite <-(Hnone x Hin).
  - rewrite lookup_union_r by done. by apply lookup_gset_to_gmap_Some.
Qed.

Lemma merged_lookup_key kwargs k : k ∈ init_keys → is_Some (merged kwargs !! k).
Proof.
  intros Hk. unfold grab.merged.
  destruct (foldl (λ c kv, <[kv.1 := kv.2]> c) (∅ : gmap string val) kwargs !! k)
    as [x|] eqn:Hx.
  - exists x. by apply lookup_union_Some_l.
  - exists VNone. rewrite lookup_union_r by done. by apply lookup_gset_to_gmap_Some.
Qed.

Lemma state_initial : state m0 t0 = σ0.
Proof using Hjar Htransport.
  unfold with_state.
  rewrite (list_insert_id σ0 (transport self)) by done.
  by rewrite list_insert_id.
Qed.

Lemma merged_method_immediate kwargs :
  (∀ l, ("method", VRef l) ∉ kwargs) → ∀ l, merged kwargs !! "method" ≠ Some (VRef l).
Proof.
  intros Hmethod l Hl. unfold grab.merged in Hl.
  apply lookup_union_Some_raw in Hl as [Hl|[_ Hl]].
  - apply foldl_insert_lookup in Hl as [Hl|Hl]; [by apply (Hmethod l)|].
    by rewrite lookup_empty in Hl.
  - by apply lookup_gset_to_gmap_Some in Hl as [_ ?].
Qed.

Lemma kwargs_for_merged kwargs : kwargs_ok kwargs → kwargs_for (merged kwargs) kwargs.
Proof.
  intros Hok. split; [done|]. exists (merged kwargs).
  split; [by apply merge_request_configs_ok|done].
Qed.

Lemma prepared_hop cfg u : cfg !! "url" = Some (VStr u) → prepared cfg = hop cfg u.
Proof. intros Hu. unfold grab.hop. by rewrite insert_id. Qed.

(** One round of the loop on a request [rq] that does not follow
    redirects: the response is returned unread. *)
Lemma request_loop_stops fuel rq kwargs count m t doc rest :
  follow_location rq = VBool false →
  incoming t = doc :: rest →
  ∃ m', request_loop (S fuel) self rq kwargs count (state m t) =
        (state m' (mkTransport rest (Some doc) (sent t ++ [rq])), Return doc).
Proof using Hconfig Hreuse Hjar Htransport.
  intros Hrq Hin. cbn [grab.request_loop]. munfold.
  rewrite (transport_request_state _ _ _ _ _ _ Hin). munfold.
  rewrite (process_request_result_state _ _ _ doc) by done. munfold.
  unfold is_true, lift. rewrite Hrq. simpl. eauto.
Qed.

(** **** [request], from its arguments *)

(** Called with a URL or [None], [request] raises [GrabMisuseError]
    when a keyword is no request key, and when no URL is given (nowhere,
    or as [None]).  The transport has been reset by then, and nothing
    else has happened: no request is sent, no response is taken. *)
Lemma request_rejects_bad_arguments fuel (v : val) (kwargs : dict val) :
  Exists (λ kv, kv.1 ∉ init_keys) (with_url v kwargs) ∨
  ("url" ∈ init_keys ∧ ∀ x, ("url", x) ∈ with_url v kwargs → x = VNone) →
  request fuel self (UrlValue v) kwargs σ0 =
    (with_state σ0 self m0 (reset t0), Raise GrabMisuseError) ∧
  sent (reset t0) = sent t0 ∧ incoming (reset t0) = incoming t0.
Proof using Hjar Htransport.
  intros Hbad. split; [|done].
  unfold grab.request. fold (with_url v kwargs).
  rewrite <-state_initial at 1.
  unfold grab.prepare_request. munfold. rewrite transport_reset_state.
  unfold lift.
  destruct (decide (Exists (λ kv, kv.1 ∉ init_keys) (with_url v kwargs)))
    as [Hex|Hall].
  { by rewrite merge_request_configs_invalid. }
  destruct Hbad as [?|[Hkey Hnone]]; [done|].
  apply not_Exists_Forall in Hall; [|intros ?; apply _].
  unfold grab.merge_request_configs. rewrite merge_loop_valid.
  - fold (merged (with_url v kwargs)). unfold cfg_getitem.
    by rewrite merged_lookup_absent.
  - eapply Forall_impl; [done|]. intros kv Hkv. simpl in *.
    by destruct (decide (kv.1 ∈ init_keys)).
Qed.

Lemma request_prepares (v : val) (kwargs : dict val) u :
  kwargs_ok (with_url v kwargs) →
  "url" ∈ init_keys → "method" ∈ init_keys → "follow_location" ∈ init_keys →
  ("url", VStr u) ∈ with_url v kwargs →
  (∀ l, ("method", VRef l) ∉ with_url v kwargs) →
  cookies_ok σ0 (default VNone (merged (with_url v kwargs) !! "cookies")) →
  ∃ m', ∀ fuel,
    request fuel self (UrlValue v) kwargs σ0 =
    request_loop fuel self (prepared (merged (with_url v kwargs)))
      (with_url v kwargs) 0 (with_state σ0 self m' (reset t0)).
Proof using All.
  intros Hok Hurl_key Hmethod_key Hfollow_key Hurl Hmethod Hcookies.
  destruct (prepare_request_state m0 t0 (with_url v kwargs)
              (merged (with_url v kwargs)) u) as [m' Hm'];
    [by apply merge_request_configs_ok|by apply merged_lookup_in|
     by apply merged_lookup_key|by apply merged_method_immediate|
     by apply merged_lookup_key|done|].
  exists m'. intros fuel. unfold grab.request. fold (with_url v kwargs).
  rewrite <-state_initial at 1. munfold. by rewrite Hm'.
Qed.

(** Called with a URL and keywords that are all request keys, each
    once, [request] sends first the request for that URL with the
    defaults in: the method is ["GET"] when none is given (or [None]) and
    is the given string otherwise; [follow_location] is [True] when none
    is given (or [None]) and is the given boolean otherwise. *)
Lemma request_applies_defaults (v : val) (kwargs : dict val) u :
  let cfg := merged (with_url v kwargs) in
  kwargs_ok (with_url v kwargs) →
  "url" ∈ init_keys → "method" ∈ init_keys → "follow_location" ∈ init_keys →
  ("url", VStr u) ∈ with_url v kwargs →
  (∀ l, ("method", VRef l) ∉ with_url v kwargs) →
  cookies_ok σ0 (default VNone (cfg !! "cookies")) →
  (∃ m', ∀ fuel,
     request fuel self (UrlValue v) kwargs σ0 =
     request_loop fuel self (prepared cfg) (with_url v kwargs) 0
       (with_state σ0 self m' (reset t0))) ∧
  url (prepared cfg) = VStr u ∧
  ((∀ x, ("method", x) ∈ with_url v kwargs → x = VNone) →
   method (prepared cfg) = VStr "GET") ∧
  (∀ s, ("method", VStr s) ∈ with_url v kwargs → s ≠ "" →
        method (prepared cfg) = VStr s) ∧
  ((∀ x, ("follow_location", x) ∈ with_url v kwargs → x = VNone) →
   follow_location (prepared cfg) = VBool true) ∧
  (∀ b, ("follow_location", VBool b) ∈ with_url v kwargs →
        follow_location (prepared cfg) = VBool b).
Proof using All.
  intros cfg Hok Hurl_key Hmethod_key Hfollow_key Hurl Hmethod Hcookies.
  assert (cfg !! "url" = Some (VStr u)) as Hu by (by apply merged_lookup_in).
  split_and!.
  - by apply (request_prepares v kwargs u).
  - unfold grab.prepared, grab.create_from_mapping.
    destruct (truthy [] _), (decide _); simpl;
      rewrite ?lookup_insert_ne by done; by rewrite Hu.
  - intros Hnone. unfold grab.prepared.
    assert (cfg !! "method" = Some VNone) as ->
      by (by apply merged_lookup_absent).
    simpl. unfold grab.create_from_mapping. simpl.
    destruct (decide _); rewrite ?lookup_insert_ne by done;
      by rewrite lookup_insert_eq.
  - intros s Hs Hne. unfold grab.prepared.
    assert (cfg !! "method" = Some (VStr s)) as Hm
      by (by apply merged_lookup_in).
    rewrite Hm. simpl.
    rewrite (proj2 (String.eqb_neq s "")) by done. simpl.
    unfold grab.create_from_mapping. simpl.
    destruct (decide _); rewrite ?lookup_insert_ne by done; by rewrite Hm.
  - intros Hnone. unfold grab.prepared.
    assert (∀ c : gmap string val, c !! "follow_location" = Some VNone →
              follow_location (create_from_mapping
                (if decide (c !! "follow_location" = Some VNone)
                 then <["follow_location" := VBool true]> c else c)) = VBool true)
      as Hset.
    { intros c Hc. rewrite decide_True by done. unfold grab.create_from_mapping.
      simpl. by rewrite lookup_insert_eq. }
    destruct (truthy [] _); apply Hset; rewrite ?lookup_insert_ne by done;
      by apply merged_lookup_absent.
  - intros b Hb. unfold grab.prepared.
    assert (∀ c : gmap string val, c !! "follow_location" = Some (VBool b) →
              follow_location (create_from_mapping
                (if decide (c !! "follow_location" = Some VNone)
                 then <["follow_location" := VBool true]> c else c)) = VBool b)
      as Hkeep.
    { intros c Hc. rewrite decide_False by (by rewrite Hc).
      unfold grab.create_from_mapping. simpl. by rewrite Hc. }
    destruct (truthy [] _); apply Hkeep; rewrite ?lookup_insert_ne by done;
      by apply merged_lookup_in.
Qed.

(** A redirect chain within the limit is followed to its end: the
    final document is returned, every response of the chain has been
    taken, and the requests sent are those for the URLs of the chain,
    each location resolved against the URL of the request before it. *)
Lemma request_follows_redirect_chain (v : val) (kwargs : dict val) u limit
    redirects locations final rest fuel :
  let cfg := merged (with_url v kwargs) in
  kwargs_ok (with_url v kwargs) →
  "url" ∈ init_keys → "method" ∈ init_keys → "follow_location" ∈ init_keys →
  ("url", VStr u) ∈ with_url v kwargs →
  (∀ l, ("method", VRef l) ∉ with_url v kwargs) →
  cookies_ok σ0 (default VNone (cfg !! "cookies")) →
  follow_location (prepared cfg) = VBool true →
  redirect_limit (prepared cfg) = VInt limit →
  Forall2 (λ doc location, find_redirect_url doc = Return (Some location))
          redirects locations →
  find_redirect_url final = Return None →
  incoming t0 = redirects ++ final :: rest →
  (Z.of_nat (length redirects) ≤ limit)%Z →
  length redirects < fuel →
  ∃ m', request fuel self (UrlValue v) kwargs σ0 =
        (with_state σ0 self m'
           (mkTransport rest (Some final)
              (sent t0 ++ (hop cfg <$> chain_urls u locations))),
         Return final).
Proof using All.
  intros cfg Hok Hurl_key Hmethod_key Hfollow_key Hurl Hmethod Hcookies
    Hfollow Hlimit Hchain Hfinal Hin Hcount Hfuel.
  destruct (request_prepares v kwargs u) as [m1 Hm1]; [done..|].
  rewrite Hm1. fold cfg. rewrite (prepared_hop cfg u) by (by apply merged_lookup_in).
  destruct (request_loop_returns cfg limit Hurl_key
              (merged_lookup_key _ _ Hmethod_key)
              (merged_method_immediate _ Hmethod)
              (merged_lookup_key _ _ Hfollow_key) Hcookies Hfollow Hlimit
              final rest redirects Hfinal locations fuel (with_url v kwargs) u
              m1 (reset t0) 0) as [m' Hm']; [done|by apply kwargs_for_merged|done..|].
  exists m'. by rewrite Hm'.
Qed.

(** A redirect chain longer than the limit ends in
    [GrabTooManyRedirectsError]; by then one request more than the
    limit has been sent, for the first URLs of the chain. *)
Lemma request_raises_beyond_limit (v : val) (kwargs : dict val) u limit
    redirects locations rest fuel :
  let cfg := merged (with_url v kwargs) in
  kwargs_ok (with_url v kwargs) →
  "url" ∈ init_keys → "method" ∈ init_keys → "follow_location" ∈ init_keys →
  ("url", VStr u) ∈ with_url v kwargs →
  (∀ l, ("method", VRef l) ∉ with_url v kwargs) →
  cookies_ok σ0 (default VNone (cfg !! "cookies")) →
  follow_location (prepared cfg) = VBool true →
  redirect_limit (prepared cfg) = VInt limit →
  Forall2 (λ doc location, find_redirect_url doc = Return (Some location))
          redirects locations →
  incoming t0 = redirects ++ rest →
  (0 ≤ limit < Z.of_nat (length redirects))%Z →
  length redirects ≤ fuel →
  ∃ m' t', request fuel self (UrlValue v) kwargs σ0 =
           (with_state σ0 self m' t', Raise GrabTooManyRedirectsError) ∧
           sent t' = sent t0 ++ (hop cfg <$> take (S (Z.to_nat limit))
                                               (chain_urls u locations)).
Proof using All.
  intros cfg Hok Hurl_key Hmethod_key Hfollow_key Hurl Hmethod Hcookies
    Hfollow Hlimit Hchain Hin Hcount Hfuel.
  destruct (request_prepares v kwargs u) as [m1 Hm1]; [done..|].
  rewrite Hm1. fold cfg. rewrite (prepared_hop cfg u) by (by apply merged_lookup_in).
  destruct (request_loop_raises cfg limit Hurl_key
              (merged_lookup_key _ _ Hmethod_key)
              (merged_method_immediate _ Hmethod)
              (merged_lookup_key _ _ Hfollow_key) Hcookies Hfollow Hlimit
              rest redirects locations fuel (with_url v kwargs) u
              m1 (reset t0) 0) as (m' & t' & Hm' & Hsent);
    [done|by apply kwargs_for_merged|done|done|lia|simpl; lia|].
  exists m', t'. rewrite Hm'. split; [done|].
  rewrite Hsent. by rewrite Nat.sub_0_r.
Qed.

(** X14.  With [follow_location] false, [request] returns the first
    response, whatever it is: a redirect is not followed, and exactly
    one request is sent. *)
Theorem request_without_follow_location (v : val) (kwargs : dict val) u
    doc rest fuel :
  let cfg := merged (with_url v kwargs) in
  kwargs_ok (with_url v kwargs) →
  "url" ∈ init_keys → "method" ∈ init_keys → "follow_location" ∈ init_keys →
  ("url", VStr u) ∈ with_url v kwargs →
  (∀ l, ("method", VRef l) ∉ with_url v kwargs) →
  cookies_ok σ0 (default VNone (cfg !! "cookies")) →
  ("follow_location", VBool false) ∈ with_url v kwargs →
  incoming t0 = doc :: rest →
  ∃ m', request (S fuel) self (UrlValue v) kwargs σ0 =
        (with_state σ0 self m'
           (mkTransport rest (Some doc) (sent t0 ++ [prepared cfg])),
         Return doc).
Proof using All.
  intros cfg Hok Hurl_key Hmethod_key Hfollow_key Hurl Hmethod Hcookies
    Hfollow Hin.
  destruct (request_applies_defaults v kwargs u) as (_ & _ & _ & _ & _ & Hkeep);
    [done..|].
  destruct (request_prepares v kwargs u) as [m1 Hm1]; [done..|].
  rewrite Hm1. fold cfg.
  apply (request_loop_stops fuel (prepared cfg) (with_url v kwargs) 0 m1
           (reset t0) doc rest); [|done].
  by apply Hkeep.
Qed.

(** Given a prebuilt [Request], [request] sends it as it is; but once
    its first response redirects, every further request is built from
    the keyword arguments alone.  The chain is then followed as the
    keyword arguments say: within their redirect limit the final
    document is returned, whatever limit the prebuilt request carries
    beyond one. *)
Lemma prebuilt_request_returns (rq : Request) (kwargs : dict val) u r
    limit doc location redirects locations final rest fuel :
  let cfg := merged kwargs in
  kwargs_ok kwargs →
  "url" ∈ init_keys → "method" ∈ init_keys → "follow_location" ∈ init_keys →
  (∀ l, ("method", VRef l) ∉ kwargs) →
  cookies_ok σ0 (default VNone (cfg !! "cookies")) →
  follow_location (prepared cfg) = VBool true →
  redirect_limit (prepared cfg) = VInt limit →
  url rq = VStr u → follow_location rq = VBool true →
  redirect_limit rq = VInt r →
  find_redirect_url doc = Return (Some location) →
  Forall2 (λ doc location, find_redirect_url doc = Return (Some location))
          redirects locations →
  find_redirect_url final = Return None →
  incoming t0 = doc :: redirects ++ final :: rest →
  (1 ≤ r)%Z → (Z.of_nat (S (length redirects)) ≤ limit)%Z →
  S (length redirects) < fuel →
  ∃ m', request fuel self (UrlRequest rq) kwargs σ0 =
        (with_state σ0 self m'
           (mkTransport rest (Some final)
              (sent t0 ++ rq :: (hop cfg <$> chain_urls (urljoin u location)
                                                       locations))),
         Return final).
Proof using All.
  intros cfg Hok Hurl_key Hmethod_key Hfollow_key Hmethod Hcookies
    Hfollow Hlimit Hu Hf Hr Hdoc Hchain Hfinal Hin Hone Hcount Hfuel.
  destruct fuel as [|fuel]; [lia|].
  unfold grab.request.
  destruct (request_loop_step cfg limit Hurl_key
              (merged_lookup_key _ _ Hmethod_key)
              (merged_method_immediate _ Hmethod)
              (merged_lookup_key _ _ Hfollow_key) Hcookies Hfollow Hlimit
              fuel rq kwargs 0 m0 t0 doc (redirects ++ final :: rest)
              location r u) as [m1 Hstep];
    [done|done|done|done|done|lia|by apply kwargs_for_merged|].
  rewrite state_initial in Hstep. rewrite Hstep.
  destruct (request_loop_returns cfg limit Hurl_key
              (merged_lookup_key _ _ Hmethod_key)
              (merged_method_immediate _ Hmethod)
              (merged_lookup_key _ _ Hfollow_key) Hcookies Hfollow Hlimit
              final rest redirects Hfinal locations fuel
              (dict_setitem "url" (VStr (urljoin u location)) kwargs)
              (urljoin u location) m1
              (mkTransport (redirects ++ final :: rest) None (sent t0 ++ [rq]))
              1) as [m' Hm'];
    [done| |done|lia|lia|].
  { apply kwargs_for_setitem; [done|]. by apply kwargs_for_merged. }
  exists m'. rewrite Hm'. simpl. by rewrite <-app_assoc.
Qed.

(** Likewise the limit of a prebuilt [Request] does not carry over:
    after the first redirect the limit of the keyword arguments
    decides, and a chain longer than that ends in
    [GrabTooManyRedirectsError] however large the limit of the prebuilt
    request is. *)
Lemma prebuilt_request_raises (rq : Request) (kwargs : dict val) u r
    limit doc location redirects locations rest fuel :
  let cfg := merged kwargs in
  kwargs_ok kwargs →
  "url" ∈ init_keys → "method" ∈ init_keys → "follow_location" ∈ init_keys →
  (∀ l, ("method", VRef l) ∉ kwargs) →
  cookies_ok σ0 (default VNone (cfg !! "cookies")) →
  follow_location (prepared cfg) = VBool true →
  redirect_limit (prepared cfg) = VInt limit →
  url rq = VStr u → follow_location rq = VBool true →
  redirect_limit rq = VInt r →
  find_redirect_url doc = Return (Some location) →
  Forall2 (λ doc location, find_redirect_url doc = Return (Some location))
          redirects locations →
  incoming t0 = doc :: redirects ++ rest →
  (1 ≤ r)%Z → 0 < length redirects →
  (limit < Z.of_nat (S (length redirects)))%Z →
  length redirects < fuel →
  ∃ m' t', request fuel self (UrlRequest rq) kwargs σ0 =
           (with_state σ0 self m' t', Raise GrabTooManyRedirectsError).
Proof using All.
  intros cfg Hok Hurl_key Hmethod_key Hfollow_key Hmethod Hcookies
    Hfollow Hlimit Hu Hf Hr Hdoc Hchain Hin Hone Hpos Hcount Hfuel.
  destruct fuel as [|fuel]; [lia|].
  unfold grab.request.
  destruct (request_loop_step cfg limit Hurl_key
              (merged_lookup_key _ _ Hmethod_key)
              (merged_method_immediate _ Hmethod)
              (merged_lookup_key _ _ Hfollow_key) Hcookies Hfollow Hlimit
              fuel rq kwargs 0 m0 t0 doc (redirects ++ rest)
              location r u) as [m1 Hstep];
    [done|done|done|done|done|lia|by apply kwargs_for_merged|].
  rewrite state_initial in Hstep. rewrite Hstep.
  destruct (request_loop_raises cfg limit Hurl_key
              (merged_lookup_key _ _ Hmethod_key)
              (merged_method_immediate _ Hmethod)
              (merged_lookup_key _ _ Hfollow_key) Hcookies Hfollow Hlimit
              rest redirects locations fuel
              (dict_setitem "url" (VStr (urljoin u location)) kwargs)
              (urljoin u location) m1
              (mkTransport (redirects ++ rest) None (sent t0 ++ [rq]))
              1) as (m' & t' & Hm' & _);
    [done| |done|lia|done|lia|].
  { apply kwargs_for_setitem; [done|]. by apply kwargs_for_merged. }
  exists m', t'. by rewrite Hm'.
Qed.

(** One round of the loop that ends the loop, with the jar it leaves. *)
Lemma request_loop_once fuel rq kwargs count m t doc rest :
  follow_location rq = VBool false ∨
  follow_location rq = VBool true ∧ find_redirect_url doc = Return None →
  incoming t = doc :: rest →
  request_loop (S fuel) self rq kwargs count (state m t) =
  (state (if reuse then foldl (λ m c, <[cookie_key c := c]> m) m (doc_cookies doc)
          else m)
         (mkTransport rest (Some doc) (sent t ++ [rq])), Return doc).
Proof using Hconfig Hreuse Hjar Htransport.
  intros Hrq Hin. cbn [grab.request_loop]. munfold.
  rewrite (transport_request_state _ _ _ _ _ _ Hin). munfold.
  rewrite (process_request_result_state _ _ _ doc) by done. munfold.
  unfold is_true, lift. destruct Hrq as [->|[-> ->]]; done.
Qed.


(** X16.  [merge_request_configs] accepts exactly the keyword arguments
    whose keys are all request keys.  The config it returns has every
    request key and no other; a key holds a value given for it, and
    [None] if none was given. *)
Theorem merge_request_configs_keys (kwargs : dict val) :
  (Forall (λ kv, kv.1 ∈ init_keys) kwargs ↔
   ∃ cfg, merge_request_configs kwargs = Return cfg) ∧
  (¬ Forall (λ kv, kv.1 ∈ init_keys) kwargs →
   merge_request_configs kwargs = Raise GrabMisuseError) ∧
  (∀ cfg, merge_request_configs kwargs = Return cfg →
     dom cfg = init_keys ∧
     ∀ k x, cfg !! k = Some x →
            (k, x) ∈ kwargs ∨ x = VNone ∧ k ∉ kwargs.*1).
Proof.
  assert (¬ Forall (λ kv, kv.1 ∈ init_keys) kwargs →
          merge_request_configs kwargs = Raise GrabMisuseError) as Hbad.
  { intros Hnot. apply merge_request_configs_invalid.
    apply not_Forall_Exists in Hnot; [done|]. intros kv. apply _. }
  assert (∀ cfg, merge_request_configs kwargs = Return cfg →
                 Forall (λ kv, kv.1 ∈ init_keys) kwargs) as Hgood.
  { intros cfg Hcfg.
    destruct (decide (Forall (λ kv, kv.1 ∈ init_keys) kwargs)) as [|Hnot]; [done|].
    rewrite Hbad in Hcfg by done. discriminate Hcfg. }
  split_and!; [|done|].
  - split.
    + intros Hvalid. exists (merged kwargs). unfold grab.merge_request_configs.
      by rewrite merge_loop_valid.
    + intros [cfg Hcfg]. by apply (Hgood cfg).
  - intros cfg Hcfg. pose proof (Hgood cfg Hcfg) as Hvalid.
    unfold grab.merge_request_configs in Hcfg.
    rewrite merge_loop_valid in Hcfg by done. injection Hcfg as <-.
    split.
    + apply set_eq. intros k. rewrite dom_union, elem_of_union, dom_gset_to_gmap.
      split; [|by right]. intros [Hk|Hk]; [|done].
      apply elem_of_dom in Hk as [x Hx].
      apply foldl_insert_lookup in Hx as [Hin|Hx]; [|by rewrite lookup_empty in Hx].
      by apply (proj1 (Forall_forall _ _) Hvalid (k, x)).
    + intros k x Hx. apply lookup_union_Some_raw in Hx as [Hx|[Hnone Hx]].
      * apply foldl_insert_lookup in Hx as [Hin|Hx]; [by left|].
        by rewrite lookup_empty in Hx.
      * right. apply lookup_gset_to_gmap_Some in Hx as [_ <-]. split; [done|].
        intros Hk. apply list_elem_of_fmap in Hk as ([k' x'] & -> & Hin).
        apply (foldl_insert_given kwargs ∅) in Hin as [y Hy].
        simpl in Hnone. by rewrite Hy in Hnone.
Qed.

(** **** The claims about [request] *)



End request.

(** *** [setup] *)

(** X18.  [setup] with options that the config has assigns them all, in
    order, each key keeping its place: the keys of the config are the
    same before and after. *)
Theorem setup_known_options (self : Grab) (kwargs : dict val) : ∀ σ items,
  σ !! config self = Some (ODict items) →
  Forall (λ kv, kv.1 ∈ items.*1) kwargs →
  setup self kwargs σ =
    (<[config self :=
         ODict (foldl (λ d kv, dict_setitem kv.1 kv.2 d) items kwargs)]> σ,
     Return ()) ∧
  (foldl (λ d kv, dict_setitem kv.1 kv.2 d) items kwargs).*1 = items.*1.
Proof.
  induction kwargs as [|[key val] kwargs IH]; intros σ items Hconfig Hknown.
  { simpl. by rewrite list_insert_id. }
  apply Forall_cons in Hknown as [Hkey Hknown]. simpl in Hkey.
  assert ((dict_setitem key val items).*1 = items.*1) as Hkeys.
  { rewrite dict_setitem_keys. by rewrite decide_True. }
  destruct (IH (<[config self := ODict (dict_setitem key val items)]> σ)
              (dict_setitem key val items)) as [Hsetup Hsame].
  { apply list_lookup_insert_eq. by eapply lookup_lt_Some. }
  { by rewrite Hkeys. }
  split; [|by rewrite <-Hkeys].
  cbn [setup]. munfold. rewrite Hconfig. unfold dict_contains.
  rewrite bool_decide_eq_true_2 by done. munfold.
  rewrite Hsetup. by rewrite list_insert_insert_eq.
Qed.

(** X19.  [setup] stops at the first option that the config does not
    have and raises [GrabMisuseError]; the options before it have been
    assigned by then, and stay so. *)
Theorem setup_unknown_option (self : Grab) (before : dict val) key
    (value : val) (after : dict val) σ items :
  σ !! config self = Some (ODict items) →
  Forall (λ kv, kv.1 ∈ items.*1) before →
  key ∉ items.*1 →
  setup self (before ++ (key, value) :: after) σ =
    (<[config self :=
         ODict (foldl (λ d kv, dict_setitem kv.1 kv.2 d) items before)]> σ,
     Raise GrabMisuseError).
Proof.
  revert σ items. induction before as [|[k v] before IH];
    intros σ items Hconfig Hknown Hkey.
  { cbn [app setup foldl]. munfold. rewrite Hconfig. unfold dict_contains.
    rewrite bool_decide_eq_false_2 by done. by rewrite list_insert_id. }
  apply Forall_cons in Hknown as [Hk Hknown]. simpl in Hk.
  assert ((dict_setitem k v items).*1 = items.*1) as Hkeys.
  { rewrite dict_setitem_keys. by rewrite decide_True. }
  cbn [app setup foldl]. munfold. rewrite Hconfig. unfold dict_contains.
  rewrite bool_decide_eq_true_2 by done. munfold.
  rewrite (IH _ (dict_setitem k v items)).
  - by rewrite list_insert_insert_eq.
  - apply list_lookup_insert_eq. by eapply lookup_lt_Some.
  - by rewrite Hkeys.
  - by rewrite Hkeys.
Qed.

(** *** The sample client on the sample server *)

Ltac among :=
  vm_compute; intros;
  repeat match goal with
         | H : list_elem_of _ _ |- _ => inversion H; clear H; subst
         | H : _ ∈ _ |- _ => inversion H; clear H; subst
         end;
  try reflexivity.
Ltac keys_ok :=
  split; [repeat constructor; vm_compute; reflexivity
         |apply (bool_decide_unpack _); vm_compute; exact I].
Ltac sample_side :=
  first [reflexivity | by left | simpl; lia | vm_compute; reflexivity
        |keys_ok | by (vm_compute; repeat constructor) | by among].






Lemma request_without_follow_location_witness :
  ∃ m', request spec_init_keys 5 sample_urljoin sample_hostname 1 sample_grab
          (UrlValue (VStr "http://host/")) [("follow_location", VBool false)]
          (sample_store [redirect_to "/a"; page "done"]) =
        (with_state (sample_store [redirect_to "/a"; page "done"]) sample_grab m'
           (mkTransport [page "done"] (Some (redirect_to "/a"))
              [prepared 5 (merged spec_init_keys
                             [("follow_location", VBool false);
                              ("url", VStr "http://host/")])]),
         Return (redirect_to "/a")).
Proof.
  refine (request_without_follow_location spec_init_keys 5 sample_urljoin
            sample_hostname _ sample_grab [("reuse_cookies", VBool true)] true ∅
            (mkTransport [redirect_to "/a"; page "done"] None [])
            _ _ _ _ (VStr "http://host/") [("follow_location", VBool false)]
            "http://host/" (redirect_to "/a") [page "done"] 0
            _ _ _ _ _ _ _ _ _); sample_side.
Defined.


Lemma setup_known_options_witness :
  setup sample_grab [("reuse_cookies", VBool false)] (sample_store []) =
  ([ODict [("reuse_cookies", VBool false)];
    OTransport (mkTransport [] None []); OJar ∅], Return ()).
Proof.
  refine (proj1 (setup_known_options sample_grab [("reuse_cookies", VBool false)]
                   (sample_store []) [("reuse_cookies", VBool true)] _ _)).
  - reflexivity.
  - repeat constructor.
Defined.

Lemma setup_unknown_option_witness :
  setup sample_grab
    [("reuse_cookies", VBool false); ("timeout", VInt 3)] (sample_store []) =
  ([ODict [("reuse_cookies", VBool false)];
    OTransport (mkTransport [] None []); OJar ∅], Raise GrabMisuseError).
Proof.
  refine (setup_unknown_option sample_grab [("reuse_cookies", VBool false)]
            "timeout" (VInt 3) [] (sample_store []) [("reuse_cookies", VBool true)] _ _ _).
  - reflexivity.
  - repeat constructor.
  - by among.
Defined.
End grab_facts.
